(** * crx-grabber: the extension-fetch proxy

    A shallow embedding of the two route handlers of the repository,
    [src/app/api/crx/[id]/route.ts] (archive delivery: the CRX header is
    stripped and a ZIP is served) and its streaming sibling (raw container
    delivery through a size-limiting [TransformStream]), together with the
    properties the specification states about them.

    Conventions of the embedding:
    - a [Uint8Array] is a [list byte]; [buf[i]] is list lookup, which is
      [None] where JavaScript yields [undefined];
    - a JavaScript string is a [string] of 8-bit code units (Latin-1);
    - JavaScript numbers that hold integers are [N] or [Z]; every quantity
      the handlers compute stays far below 2^53, where doubles are exact;
    - a computation that may throw returns a [completion];
    - the handlers run in the monad [M], which threads the process-wide
      [rateMap] and a log of the effects performed, and may throw. *)

From Stdlib Require Import ZArith NArith Lia List Ascii String Strings.Byte.
From stdpp Require Import gmap strings list fin_maps pretty.

Local Open Scope N_scope.

(** ** Completions: normal return or a thrown exception *)

(** The exceptions the handlers can meet, by their [name] property;
    [GenericError] stands for every other name (["Error"], ["AbortError"],
    ...), which the handlers do not tell apart. *)
Inductive exn : Type :=
  | RangeError
  | TypeError
  | TimeoutError
  | GenericError.

Inductive completion (A : Type) : Type :=
  | Normal (a : A)
  | Throw (e : exn).
Arguments Normal {A} a.
Arguments Throw {A} e.

#[global] Instance completion_ret : MRet completion := fun A a => Normal a.
#[global] Instance completion_bind : MBind completion := fun A B k c =>
  match c with
  | Normal a => k a
  | Throw e => Throw e
  end.

(** ** Byte buffers ([Uint8Array], [DataView]) *)

(** [buf.subarray(begin)] for [0 <= begin]: the view from [begin] to the end. *)
Definition subarray (buf : list byte) (begin : N) : list byte :=
  drop (N.to_nat begin) buf.

Definition byteLength (buf : list byte) : N := N.of_nat (length buf).

(** [buf[i] === v]: false when [i] is out of range ([undefined]). *)
Definition byteAt_is (buf : list byte) (i : nat) (v : byte) : bool :=
  match buf !! i with
  | Some b => Byte.eqb b v
  | None => false
  end.

(** [view.getUint32(byteOffset, true)]: a [DataView] read is bounds-checked
    and throws a [RangeError] when the four bytes do not lie in the view. *)
Definition getUint32 (buf : list byte) (byteOffset : nat) : completion N :=
  match buf !! byteOffset, buf !! (byteOffset + 1)%nat,
        buf !! (byteOffset + 2)%nat, buf !! (byteOffset + 3)%nat with
  | Some b0, Some b1, Some b2, Some b3 =>
      Normal (Byte.to_N b0 + 256 * Byte.to_N b1
              + 65536 * Byte.to_N b2 + 16777216 * Byte.to_N b3)
  | _, _, _, _ => Throw RangeError
  end.

(** ** The Container Parser ([stripCrxHeader]) *)

(** The loop of the fallback: [for (i; i < bound; i++)], with [n] iterations
    left, looking for the ZIP local-file-header magic [PK\x03\x04]. *)
Fixpoint scanZip (buf : list byte) (i n : nat) : option (list byte) :=
  match n with
  | O => None
  | S n' =>
      if byteAt_is buf i x50 && byteAt_is buf (i + 1) x4b
         && byteAt_is buf (i + 2) x03 && byteAt_is buf (i + 3) x04
      then Some (subarray buf (N.of_nat i))
      else scanZip buf (S i) n'
  end.

(** The bounds check that ends the magic branch:
    [if (zipOffset < buf.byteLength) return buf.subarray(zipOffset); return null]. *)
Definition sliceFrom (buf : list byte) (zipOffset : N) : option (list byte) :=
  if zipOffset <? byteLength buf then Some (subarray buf zipOffset) else None.

(** [stripCrxHeader]: [Normal (Some zip)] is the returned view, [Normal None]
    is [return null], [Throw e] is an exception that leaves the function. *)
Definition stripCrxHeader (buf : list byte) : completion (option (list byte)) :=
  if byteAt_is buf 0 x43 && byteAt_is buf 1 x72
     && byteAt_is buf 2 x32 && byteAt_is buf 3 x34
  then
    version ← getUint32 buf 4;
    if version =? 3 then
      headerSize ← getUint32 buf 8;
      Normal (sliceFrom buf (12 + headerSize))
    else if version =? 2 then
      pkLen ← getUint32 buf 8;
      sigLen ← getUint32 buf 12;
      Normal (sliceFrom buf (16 + pkLen + sigLen))
    else Normal None
  else
    Normal (scanZip buf 0 (Nat.min (length buf) 1024)).

(** *** Synthetic containers, as the specification's tests build them *)

(** The byte of value [n mod 256]. *)
Definition byte_of_N (n : N) : byte :=
  match Byte.of_N (n mod 256) with
  | Some b => b
  | None => x00
  end.

(** [LE32 n]: the four bytes of [n] as a little-endian 32-bit integer. *)
Definition LE32 (n : N) : list byte :=
  [byte_of_N n; byte_of_N (n / 256); byte_of_N (n / 65536);
   byte_of_N (n / 16777216)].

(** The magic ["Cr24"]. *)
Definition magic : list byte := [x43; x72; x32; x34].

(** ["Cr24" + LE32(3) + LE32(headerLen) + header + payload] *)
Definition crx3 (header payload : list byte) : list byte :=
  magic ++ LE32 3 ++ LE32 (byteLength header) ++ header ++ payload.

(** ["Cr24" + LE32(2) + LE32(pkLen) + LE32(sigLen) + pk + sig + payload] *)
Definition crx2 (pk sig payload : list byte) : list byte :=
  magic ++ LE32 2 ++ LE32 (byteLength pk) ++ LE32 (byteLength sig)
        ++ pk ++ sig ++ payload.

(** ** Strings (the [String.prototype] methods and regular expressions used) *)

Definition code (c : ascii) : N := N_of_ascii c.

(** The character class [[a-z]]. *)
Definition is_lower (c : ascii) : bool := (97 <=? code c) && (code c <=? 122).
(** The character class [[A-Z]]. *)
Definition is_upper (c : ascii) : bool := (65 <=? code c) && (code c <=? 90).
(** The character class [[0-9]]. *)
Definition is_digit (c : ascii) : bool := (48 <=? code c) && (code c <=? 57).
(** The character class [[a-z0-9]]. *)
Definition is_alnum (c : ascii) : bool := is_lower c || is_digit c.

Fixpoint forall_chars (p : ascii -> bool) (s : string) : bool :=
  match s with
  | EmptyString => true
  | String c s' => p c && forall_chars p s'
  end.

(** [/^[a-z]{32}$/.test(id)]: no flag, so [$] is the end of the input and
    the class holds the 26 lowercase letters only. *)
Definition test_id (id : string) : bool :=
  (String.length id =? 32)%nat && forall_chars is_lower id.

(** [c.toLowerCase()] on one Latin-1 code unit: [A-Z] and the accented
    capitals U+00C0..U+00DE (but U+00D7, the multiplication sign) move up
    by 32; every other code unit below 256 is its own lowercase. *)
Definition lower_char (c : ascii) : ascii :=
  if is_upper c
     || ((192 <=? code c) && (code c <=? 222) && negb (code c =? 215))
  then ascii_of_N (code c + 32)
  else c.

Fixpoint toLowerCase (s : string) : string :=
  match s with
  | EmptyString => EmptyString
  | String c s' => String (lower_char c) (toLowerCase s')
  end.

(** [s.replace(/[^a-z0-9]+/g, "-")]: scanning from the left, every maximal
    run of characters outside [[a-z0-9]] is replaced by one hyphen.
    [in_run] tells that the previous character was part of a run whose
    hyphen has been emitted already. *)
Fixpoint replace_runs (in_run : bool) (s : string) : string :=
  match s with
  | EmptyString => EmptyString
  | String c s' =>
      if is_alnum c then String c (replace_runs false s')
      else if in_run then replace_runs true s'
      else String "-" (replace_runs true s')
  end.

(** The alternative [-$] of the second replace, applied to the rest of the
    string once the scan has left position 0: a hyphen that is the last
    character is removed. *)
Fixpoint drop_final_hyphen (s : string) : string :=
  match s with
  | EmptyString => EmptyString
  | String c EmptyString => if Ascii.eqb c "-" then EmptyString else s
  | String c s' => String c (drop_final_hyphen s')
  end.

(** [s.replace(/^-|-$/g, EMPTY)], with [EMPTY] the empty string: at
    position 0 the alternative [^-] removes a leading hyphen; the scan
    resumes after it, where only [-$] can match. *)
Definition strip_edge_hyphens (s : string) : string :=
  match s with
  | String c s' => if Ascii.eqb c "-" then drop_final_hyphen s'
                   else drop_final_hyphen s
  | EmptyString => EmptyString
  end.

(** [StrWhiteSpaceChar] below 256: TAB, LF, VT, FF, CR, SP, NBSP. *)
Definition is_space (c : ascii) : bool :=
  ((9 <=? code c) && (code c <=? 13)) || (code c =? 32) || (code c =? 160).

Fixpoint trimStart (s : string) : string :=
  match s with
  | String c s' => if is_space c then trimStart s' else s
  | EmptyString => EmptyString
  end.

Fixpoint trimEnd (s : string) : string :=
  match s with
  | EmptyString => EmptyString
  | String c s' =>
      match trimEnd s' with
      | EmptyString => if is_space c then EmptyString else String c EmptyString
      | t => String c t
      end
  end.

(** [s.trim()] *)
Definition trim (s : string) : string := trimEnd (trimStart s).

(** [s.split(",")[0]]: the part before the first comma. *)
Fixpoint before_comma (s : string) : string :=
  match s with
  | EmptyString => EmptyString
  | String c s' => if Ascii.eqb c "," then EmptyString
                   else String c (before_comma s')
  end.

(** The decimal digits at the head of [s], folded into [acc];
    [seen] tells whether a digit has been read. *)
Fixpoint digits_prefix (s : string) (acc : Z) (seen : bool) : option Z :=
  match s with
  | String c s' =>
      if is_digit c
      then digits_prefix s' (10 * acc + Z.of_N (code c - 48))%Z true
      else if seen then Some acc else None
  | EmptyString => if seen then Some acc else None
  end.

(** [parseInt(s, 10)]: leading white space is skipped, one sign is read,
    then the longest run of decimal digits; [None] is [NaN]. *)
Definition parseInt (s : string) : option Z :=
  match trimStart s with
  | String c s' =>
      if Ascii.eqb c "-" then Z.opp <$> digits_prefix s' 0%Z false
      else if Ascii.eqb c "+" then digits_prefix s' 0%Z false
      else digits_prefix (String c s') 0%Z false
  | EmptyString => None
  end.

(** [n > k] on numbers, where [NaN > k] is false. *)
Definition num_gt (n : option Z) (k : Z) : bool :=
  match n with
  | Some z => (k <? z)%Z
  | None => false
  end.

(** [s.replace(pat, rep)] with a string pattern: the first occurrence of
    [pat] is replaced. The replacement is taken literally; the handlers
    pass an identifier that holds letters only, so no [$] pattern occurs. *)
Fixpoint replace_first (pat rep s : string) : string :=
  match String.prefix pat s, s with
  | true, _ => rep +:+ String.substring (String.length pat)
                         (String.length s - String.length pat)%nat s
  | false, String c s' => String c (replace_first pat rep s')
  | false, EmptyString => EmptyString
  end.

(** ** The Rate Limiter ([rateMap], [isRateLimited], the periodic sweep)

    Both route files carry the same text for this part; each module
    instance owns its [rateMap]. Times are milliseconds ([Date.now()]). *)

Local Open Scope Z_scope.

Record entry : Type := { count : Z; resetAt : Z }.

Definition RATE_WINDOW_MS : Z := 60000.
Definition RATE_LIMIT : Z := 5.

(** [isRateLimited(ip)], with [now] the value [Date.now()] returns in the
    call, on the store [m]; the result is the returned boolean and the
    store after the call. [entry.count++] updates the object held by the
    map, so the new count is what the map holds afterwards. *)
Definition isRateLimited (now : Z) (ip : string) (m : gmap string entry)
  : bool * gmap string entry :=
  match m !! ip with
  | Some e =>
      if resetAt e <? now
      then (false, <[ip := {| count := 1; resetAt := now + RATE_WINDOW_MS |}]> m)
      else let e' := {| count := count e + 1; resetAt := resetAt e |} in
           (RATE_LIMIT <? count e', <[ip := e']> m)
  | None =>
      (false, <[ip := {| count := 1; resetAt := now + RATE_WINDOW_MS |}]> m)
  end.

(** The body of the [setInterval] callback, run at time [now]: every
    entry with [now > entry.resetAt] is deleted. *)
Definition sweep (now : Z) (m : gmap string entry) : gmap string entry :=
  filter (fun kv => ¬ (resetAt kv.2 < now)) m.

(** What can happen to one [rateMap]: a check for a caller key or a sweep,
    each at the time its [Date.now()] reads. *)
Inductive op : Type :=
  | OpCheck (now : Z) (ip : string)
  | OpSweep (now : Z).

Definition op_time (o : op) : Z :=
  match o with
  | OpCheck now _ => now
  | OpSweep now => now
  end.

Definition run_op (o : op) (m : gmap string entry) : gmap string entry :=
  match o with
  | OpCheck now ip => (isRateLimited now ip m).2
  | OpSweep now => sweep now m
  end.

Definition run_ops (os : list op) (m : gmap string entry) : gmap string entry :=
  foldl (fun m o => run_op o m) m os.

(** The answers to a sequence of checks of one key at the given times. *)
Fixpoint checks (ip : string) (times : list Z) (m : gmap string entry)
  : list bool * gmap string entry :=
  match times with
  | [] => ([], m)
  | now :: times' =>
      let '(b, m') := isRateLimited now ip m in
      let '(bs, m'') := checks ip times' m' in
      (b :: bs, m'')
  end.

(** ** The Size-Guarded Streamer (the [limiter] [TransformStream]) *)

(** 20 MiB. *)
Definition MAX_CRX_SIZE : Z := 20 * 1024 * 1024.

Definition chunk_len (chunk : list byte) : Z := Z.of_nat (length chunk).

(** The limiter: the closure variable [bytesRead], the chunks handed to
    [controller.enqueue] so far, in order, and the error given to
    [controller.error], if any. *)
Record limiter : Type :=
  { bytesRead : Z; enqueued : list (list byte); errored : option exn }.

Definition limiter_init : limiter :=
  {| bytesRead := 0; enqueued := []; errored := None |}.

(** [transform(chunk, controller)] *)
Definition transform (chunk : list byte) (st : limiter) : limiter :=
  let bytesRead' := bytesRead st + chunk_len chunk in
  if MAX_CRX_SIZE <? bytesRead'
  then {| bytesRead := bytesRead'; enqueued := enqueued st;
          errored := Some GenericError |}
  else {| bytesRead := bytesRead'; enqueued := enqueued st ++ [chunk];
          errored := None |}.

(** The pipe feeds the upstream chunks to [transform] one by one; once the
    controller has been errored the stream is dead and [transform] is not
    called again. *)
Fixpoint feed (chunks : list (list byte)) (st : limiter) : limiter :=
  match chunks with
  | [] => st
  | chunk :: rest =>
      let st' := transform chunk st in
      match errored st' with
      | Some _ => st'
      | None => feed rest st'
      end
  end.

(** How a byte stream ends: closed normally, or errored. *)
Inductive ending : Type :=
  | Closed
  | Errored (e : exn).

(** A byte stream, seen whole: its chunks in order and its end. *)
Record stream : Type := { chunks : list (list byte); stream_end : ending }.

(** [upstream.pipeThrough(limiter)]: what the readable side carries. An
    error of the limiter ends it; otherwise it ends as the upstream does. *)
Definition pipeThrough (upstream : stream) : stream :=
  let st := feed (chunks upstream) limiter_init in
  {| chunks := enqueued st;
     stream_end := match errored st with
                   | Some e => Errored e
                   | None => stream_end upstream
                   end |}.

(** ** The world of a handler: shared state, effects, exceptions *)

(** The effects a handler performs that the specification speaks of. *)
Inductive event : Type :=
  | EvRateCheck (ip : string)   (* a call of [isRateLimited] *)
  | EvFetch (url : string)      (* [fetch(url, ...)] is issued *)
  | EvReadBody.                 (* the upstream body is read *)

(** [rateMap] is the only module-level mutable binding of a route file;
    [log] records the effects in the order they happen. *)
Record world : Type := { rateMap : gmap string entry; log : list event }.

Definition M (A : Type) : Type := world -> completion A * world.

#[global] Instance M_ret : MRet M := fun A a w => (Normal a, w).
#[global] Instance M_bind : MBind M := fun A B k c w =>
  match c w with
  | (Normal a, w') => k a w'
  | (Throw e, w') => (Throw e, w')
  end.

Definition lift {A} (c : completion A) : M A := fun w => (c, w).

Definition emit (ev : event) : M unit := fun w =>
  (Normal tt, {| rateMap := rateMap w; log := log w ++ [ev] |}).

(** [try { body } catch (err) { handler }] *)
Definition try_catch {A} (body : M A) (handler : exn -> M A) : M A := fun w =>
  match body w with
  | (Throw e, w') => handler e w'
  | r => r
  end.

(** [isRateLimited] run against the shared store. *)
Definition rateLimit (now : Z) (ip : string) : M bool := fun w =>
  let '(limited, m') := isRateLimited now ip (rateMap w) in
  (Normal limited, {| rateMap := m'; log := log w ++ [EvRateCheck ip] |}).

(** ** Requests, upstream responses, responses *)

(** What a handler reads of its request: the path parameter [id], the
    [x-forwarded-for] header and the [name] query parameter. *)
Record request : Type :=
  { param_id : string;
    x_forwarded_for : option string;
    query_name : option string }.

(** What a handler reads of the upstream response. [response.ok] is
    derived from the status; [up_body] is [response.body]. *)
Record upstream_response : Type :=
  { up_status : Z;
    up_content_length : option string;
    up_body : option stream }.

Definition response_ok (r : upstream_response) : bool :=
  (200 <=? up_status r) && (up_status r <=? 299).

Inductive payload : Type :=
  | Json (error : string)       (* the body [{ error }] *)
  | Bytes (data : list byte)    (* a buffer *)
  | Piped (s : stream).         (* a stream, read by the transport *)

(** A response to the caller, with the headers the handler sets itself. *)
Record http_response : Type :=
  { status : Z; headers : list (string * string); body : payload }.

(** [x || d] for a string or [null]: the empty string is falsy too. *)
Definition or_default (x : option string) (d : string) : string :=
  match x with
  | Some (String c s) => String c s
  | _ => d
  end.

(** The statuses that forbid a body. *)
Definition null_body_status (s : Z) : bool :=
  (s =? 101) || (s =? 103) || (s =? 204) || (s =? 205) || (s =? 304).

(** [NextResponse.json({ error }, { status, headers })]. It builds a
    [Response] with a body, whose constructor throws a [RangeError] for
    a status outside 200..599 and a [TypeError] for a null-body status. *)
Definition NextResponse_json (error : string) (st : Z)
    (hs : list (string * string)) : completion http_response :=
  if (st <? 200) || (599 <? st) then Throw RangeError
  else if null_body_status st then Throw TypeError
  else Normal {| status := st; headers := hs; body := Json error |}.

(** The caller key:
    [request.headers.get("x-forwarded-for")?.split(",")[0]?.trim() || "unknown"]. *)
Definition callerKey (req : request) : string :=
  match x_forwarded_for req with
  | Some h => or_default (Some (trim (before_comma h))) "unknown"
  | None => "unknown"
  end.

Definition CRX_URL_TEMPLATE : string :=
  "https://clients2.google.com/service/update2/crx?response=redirect&prodversion=131.0.0.0&acceptformat=crx2,crx3&x=id%3D{ID}%26uc".

(** The [catch] clause shared by both handlers. *)
Definition on_error (err : exn) : M http_response :=
  let message := match err with
                 | TimeoutError => "Upstream request timed out"
                 | _ => "Failed to download CRX file"
                 end in
  lift (NextResponse_json message 502 []).

Definition dquote : string := String "034"%char EmptyString.

(** The sanitized display name:
    [rawName.toLowerCase().replace(/[^a-z0-9]+/g, "-").replace(/^-|-$/g, EMPTY)],
    with [EMPTY] the empty string. *)
Definition safeName (rawName : string) : string :=
  strip_edge_hyphens (replace_runs false (toLowerCase rawName)).

(** [safeName ? `${safeName}-${id}.zip` : `${id}.zip`] *)
Definition zip_filename (rawName id : string) : string :=
  match safeName rawName with
  | EmptyString => id +:+ ".zip"
  | name => name +:+ "-" +:+ id +:+ ".zip"
  end.

Section Upstream.

(** The vendor service, as the handler meets it: the completion of
    [await fetch(url, ...)], a rejection being a [Throw]. *)
Variable fetch : string -> completion upstream_response.

Definition do_fetch (url : string) : M upstream_response := fun w =>
  (fetch url, {| rateMap := rateMap w; log := log w ++ [EvFetch url] |}).

(** [await response.arrayBuffer()]: the whole body, or the error that
    ended it; a response without a body gives the empty buffer. *)
Definition read_body (r : upstream_response) : completion (list byte) :=
  match up_body r with
  | None => Normal []
  | Some s => match stream_end s with
              | Closed => Normal (concat (chunks s))
              | Errored e => Throw e
              end
  end.

Definition arrayBuffer (r : upstream_response) : M (list byte) :=
  _ ← emit EvReadBody;
  lift (read_body r).

End Upstream.

(** ** The derived-archive endpoint ([src/app/api/crx/[id]/route.ts]) *)

Module ArchiveRoute.
Section Handler.

Variable fetch : string -> completion upstream_response.
(** The value of [Date.now()] in the rate-limit check of this request. *)
Variable now : Z.

Definition GET (req : request) : M http_response :=
  let id := param_id req in
  if negb (test_id id)
  then lift (NextResponse_json "Invalid extension ID" 400 [])
  else
    let ip := callerKey req in
    limited ← rateLimit now ip;
    if (limited : bool)
    then lift (NextResponse_json "Too many requests. Try again in a minute."
                 429 [("Retry-After", "60")])
    else
      let url := replace_first "{ID}" id CRX_URL_TEMPLATE in
      try_catch
        (response ← do_fetch fetch url;
         if negb (response_ok response)
         then lift (NextResponse_json "Failed to fetch CRX file"
                      (up_status response) [])
         else
           crxBuf ← arrayBuffer response;
           if MAX_CRX_SIZE <? chunk_len crxBuf
           then lift (NextResponse_json "Extension file too large" 413 [])
           else
             zipData ← lift (stripCrxHeader crxBuf);
             match zipData with
             | None =>
                 lift (NextResponse_json
                         "Could not parse CRX file — invalid format" 502 [])
             | Some zipData =>
                 let rawName := or_default (query_name req) EmptyString in
                 let filename := zip_filename rawName id in
                 mret {| status := 200;
                         headers :=
                           [("Content-Type", "application/zip");
                            ("Content-Disposition",
                             "attachment; filename=" +:+ dquote +:+ filename
                               +:+ dquote);
                            ("Content-Length", pretty (chunk_len zipData));
                            ("Cache-Control", "private, no-store")];
                         body := Bytes zipData |}
             end)
        on_error.

End Handler.
End ArchiveRoute.

(** ** The raw-container endpoint (the streaming route file) *)

Module RawRoute.
Section Handler.

Variable fetch : string -> completion upstream_response.
Variable now : Z.

Definition GET (req : request) : M http_response :=
  let id := param_id req in
  if negb (test_id id)
  then lift (NextResponse_json "Invalid extension ID" 400 [])
  else
    let ip := callerKey req in
    limited ← rateLimit now ip;
    if (limited : bool)
    then lift (NextResponse_json "Too many requests. Try again in a minute."
                 429 [("Retry-After", "60")])
    else
      let url := replace_first "{ID}" id CRX_URL_TEMPLATE in
      try_catch
        (response ← do_fetch fetch url;
         if negb (response_ok response)
         then lift (NextResponse_json "Failed to fetch CRX file"
                      (up_status response) [])
         else
           let contentLength :=
             parseInt (or_default (up_content_length response) "0") in
           if num_gt contentLength MAX_CRX_SIZE
           then lift (NextResponse_json "Extension file too large" 413 [])
           else
             match up_body response with
             | None =>
                 lift (NextResponse_json "No response body from upstream"
                         502 [])
             | Some upstream =>
                 _ ← emit EvReadBody;
                 mret {| status := 200;
                         headers :=
                           [("Content-Type", "application/x-chrome-extension");
                            ("Content-Disposition",
                             "attachment; filename=" +:+ dquote +:+ id
                               +:+ ".crx" +:+ dquote);
                            ("Cache-Control", "private, no-store")]
                           ++ (if num_gt contentLength 0
                               then [("Content-Length",
                                      pretty (default 0 contentLength))]
                               else []);
                         body := Piped (pipeThrough upstream) |}
             end)
        on_error.

End Handler.
End RawRoute.

(** A run of a handler from a store [m] with an empty log. *)
Definition start (m : gmap string entry) : world :=
  {| rateMap := m; log := [] |}.

(** ** The Response Builder's file name, in the specification's words

    These definitions follow the text of the specification, not the code;
    they are compared with [safeName] and [zip_filename] below. *)

(** Every run of characters that are not alphanumeric is collapsed to a
    single hyphen: a character of a run is dropped while the run goes on,
    and the last one of the run becomes the hyphen. *)
Fixpoint spec_collapse (s : string) : string :=
  match s with
  | EmptyString => EmptyString
  | String c s' =>
      if is_alnum c then String c (spec_collapse s')
      else match s' with
           | String d _ =>
               if is_alnum d then String "-" (spec_collapse s')
               else spec_collapse s'
           | EmptyString => String "-" EmptyString
           end
  end.

(** All leading hyphens removed. *)
Fixpoint spec_trim_leading (s : string) : string :=
  match s with
  | String c s' => if Ascii.eqb c "-" then spec_trim_leading s' else s
  | EmptyString => EmptyString
  end.

(** All trailing hyphens removed. *)
Fixpoint spec_trim_trailing (s : string) : string :=
  match s with
  | EmptyString => EmptyString
  | String c s' =>
      match spec_trim_trailing s' with
      | EmptyString => if Ascii.eqb c "-" then EmptyString
                       else String c EmptyString
      | t => String c t
      end
  end.

(** "lowercased, has every run of non-alphanumeric characters collapsed to
    a single hyphen, and has leading/trailing hyphens trimmed" *)
Definition spec_sanitize (hint : string) : string :=
  spec_trim_trailing (spec_trim_leading (spec_collapse (toLowerCase hint))).

(** "{sanitizedName-}{identifier}.zip": no prefix for an empty name. *)
Definition spec_filename (hint id : string) : string :=
  if decide (spec_sanitize hint = EmptyString) then id +:+ ".zip"
  else spec_sanitize hint +:+ "-" +:+ id +:+ ".zip".

(** No two hyphens side by side. *)
Fixpoint single_hyphens (s : string) : bool :=
  match s with
  | String c ((String d _) as s') =>
      negb (Ascii.eqb c "-" && Ascii.eqb d "-") && single_hyphens s'
  | _ => true
  end.

(** The string starts inside a run of non-alphanumeric characters. *)
Definition starts_in_run (s : string) : bool :=
  match s with
  | String c _ => negb (is_alnum c)
  | EmptyString => false
  end.

Definition starts_with_hyphen (s : string) : bool :=
  match s with
  | String c _ => Ascii.eqb c "-"
  | EmptyString => false
  end.

(** The number of bytes a sequence of chunks carries. *)
Definition stream_bytes (cs : list (list byte)) : Z := chunk_len (concat cs).

(** The URL the template gives for an identifier. *)
Definition url_for (id : string) : string :=
  "https://clients2.google.com/service/update2/crx?response=redirect&prodversion=131.0.0.0&acceptformat=crx2,crx3&x=id%3D"
  +:+ id +:+ "%26uc".

(** A JSON error response without extra headers. *)
Definition json_error (st : Z) (error : string) : http_response :=
  {| status := st; headers := []; body := Json error |}.

(** The declared length of an upstream response is above the ceiling:
    [parseInt(response.headers.get("content-length") || "0", 10) > MAX_CRX_SIZE]. *)
Definition declares_too_large (r : upstream_response) : bool :=
  num_gt (parseInt (or_default (up_content_length r) "0")) MAX_CRX_SIZE.

(** A status that [NextResponse.json] can carry. *)
Definition json_status_ok (st : Z) : bool :=
  negb ((st <? 200) || (599 <? st)) && negb (null_body_status st).

(** The world once the rate limiter has run for a request, at time [now]. *)
Definition after_check (now : Z) (req : request) (w : world) : world :=
  {| rateMap := (isRateLimited now (callerKey req) (rateMap w)).2;
     log := log w ++ [EvRateCheck (callerKey req)] |}.

(** The entry a check at time [now] leaves for its key, given the entry
    [old] it found: a fresh one when there was none or its reset time has
    passed, the old one with one more count otherwise. *)
Definition checked_entry (now : Z) (old : option entry) : entry :=
  match old with
  | Some e => if resetAt e <? now
              then {| count := 1; resetAt := now + RATE_WINDOW_MS |}
              else {| count := count e + 1; resetAt := resetAt e |}
  | None => {| count := 1; resetAt := now + RATE_WINDOW_MS |}
  end.

(** From [w] to [w'] the request has used exactly one unit of its caller's
    quota and changed nothing else: the store is the one a single check
    leaves, the entry of the caller key is the checked one, every other
    key is as before, and the log grew by one rate check followed by
    effects that are not rate checks. *)
Definition consumes_one_unit (now : Z) (req : request) (w w' : world) : Prop :=
  rateMap w' = (isRateLimited now (callerKey req) (rateMap w)).2
  /\ rateMap w' !! callerKey req
     = Some (checked_entry now (rateMap w !! callerKey req))
  /\ (forall ip, ip <> callerKey req -> rateMap w' !! ip = rateMap w !! ip)
  /\ exists rest,
       log w' = log w ++ EvRateCheck (callerKey req) :: rest
       /\ Forall (fun ev => forall ip, ev <> EvRateCheck ip) rest.

(** The world once the fetch for a request has been issued. *)
Definition after_fetch (now : Z) (req : request) (w : world) : world :=
  {| rateMap := rateMap (after_check now req w);
     log := log (after_check now req w) ++ [EvFetch (url_for (param_id req))] |}.

(** What the handlers answer to an upstream response that is not [ok]:
    its status when a JSON response can carry it; otherwise building the
    response throws and the [catch] clause answers. *)
Definition not_ok_answer (r : upstream_response) : http_response :=
  if json_status_ok (up_status r)
  then json_error (up_status r) "Failed to fetch CRX file"
  else json_error 502 "Failed to download CRX file".

(** A request that passes validation and the rate limiter at time [now],
    and whose fetch completes with the response [resp]. *)
Definition reaches_upstream (fetch : string -> completion upstream_response)
    (now : Z) (req : request) (w : world) (resp : upstream_response) : Prop :=
  test_id (param_id req) = true
  /\ (isRateLimited now (callerKey req) (rateMap w)).1 = false
  /\ fetch (url_for (param_id req)) = Normal resp.

(** ** Sample requests and upstream behaviours *)

Definition id_lower : string := "aaaaaaaaaaaaaaaaaaaaaaaaaaaaaaaa".
Definition id_upper : string := "AAAAAAAAAAAAAAAAAAAAAAAAAAAAAAAA".

Definition sample_request (id : string) : request :=
  {| param_id := id;
     x_forwarded_for := Some "203.0.113.7, 10.0.0.1";
     query_name := Some "My Cool!! Extension--Name" |}.

(** The vendor answers 404. *)
Definition upstream_404 : string -> completion upstream_response :=
  fun _ => Normal {| up_status := 404; up_content_length := None;
                     up_body := None |}.

(** The vendor declares 30 000 000 bytes and the download runs into the
    9-second deadline while the body is read. *)
Definition upstream_declares_30MB : string -> completion upstream_response :=
  fun _ => Normal {| up_status := 200;
                     up_content_length := Some "30000000";
                     up_body := Some {| chunks := [magic];
                                        stream_end := Errored TimeoutError |} |}.

(** The fetch itself times out. *)
Definition upstream_timeout : string -> completion upstream_response :=
  fun _ => Throw TimeoutError.

(** The vendor serves a version-3 container with a 2-byte header around a
    4-byte archive, and declares its 18 bytes. *)
Definition upstream_small_crx3 : string -> completion upstream_response :=
  fun _ => Normal {| up_status := 200;
                     up_content_length := Some "18";
                     up_body := Some {| chunks := [crx3 [x0a; x0b] [x50; x4b];
                                                   [x03; x04]];
                                        stream_end := Closed |} |}.

(** ** Vocabulary for the further properties of the parser *)

(** The test that opens [stripCrxHeader]: the buffer starts with ["Cr24"]. *)
Definition has_magic (buf : list byte) : bool :=
  byteAt_is buf 0 x43 && byteAt_is buf 1 x72
  && byteAt_is buf 2 x32 && byteAt_is buf 3 x34.

(** The test of the fallback loop at index [i]: [PK\x03\x04] starts there. *)
Definition zip_signature_at (buf : list byte) (i : nat) : bool :=
  byteAt_is buf i x50 && byteAt_is buf (i + 1) x4b
  && byteAt_is buf (i + 2) x03 && byteAt_is buf (i + 3) x04.

(** ** Vocabulary for the further properties of the rate limiter *)

(** The booleans the checks of a sequence of operations return, in order. *)
Fixpoint answers (os : list op) (m : gmap string entry) : list bool :=
  match os with
  | [] => []
  | OpCheck now ip :: os' =>
      (isRateLimited now ip m).1 :: answers os' (isRateLimited now ip m).2
  | OpSweep now :: os' => answers os' (sweep now m)
  end.

(** The sequence without its sweeps. *)
Fixpoint checks_only (os : list op) : list op :=
  match os with
  | [] => []
  | OpCheck now ip :: os' => OpCheck now ip :: checks_only os'
  | OpSweep _ :: os' => checks_only os'
  end.

(** The clock does not go back along the sequence. *)
Fixpoint clock_from (t : Z) (os : list op) : Prop :=
  match os with
  | [] => True
  | o :: os' => t <= op_time o /\ clock_from (op_time o) os'
  end.

(** [m1] is [m2] up to entries that are missing in [m1] and whose reset
    time has passed at time [t] in [m2]. *)
Definition swept_view (t : Z) (m1 m2 : gmap string entry) : Prop :=
  forall ip, m1 !! ip = m2 !! ip
             \/ (m1 !! ip = None
                 /\ exists e, m2 !! ip = Some e /\ resetAt e < t).

(** The vendor serves the four bytes of the magic and nothing else. *)
Definition upstream_bare_magic : string -> completion upstream_response :=
  fun _ => Normal {| up_status := 200; up_content_length := Some "4";
                     up_body := Some {| chunks := [magic];
                                        stream_end := Closed |} |}.

(** The fetch is rejected by the network. *)
Definition upstream_unreachable : string -> completion upstream_response :=
  fun _ => Throw TypeError.

(** ** Vocabulary for the further properties of names and keys *)

(** A character of [[a-z0-9-]]. *)
Definition is_slug_char (c : ascii) : bool := is_alnum c || Ascii.eqb c "-".

(** A character of [[a-z0-9.-]]. *)
Definition is_filename_char (c : ascii) : bool :=
  is_alnum c || Ascii.eqb c "-" || Ascii.eqb c ".".

Fixpoint ends_with_hyphen (s : string) : bool :=
  match s with
  | EmptyString => false
  | String c EmptyString => Ascii.eqb c "-"
  | String _ s' => ends_with_hyphen s'
  end.

(** A well-formed slug: characters of [[a-z0-9-]] only, no hyphen at either
    end, no two hyphens side by side. *)
Definition is_slug (s : string) : bool :=
  forall_chars is_slug_char s && negb (starts_with_hyphen s)
  && negb (ends_with_hyphen s) && single_hyphens s.

Definition starts_with_space (s : string) : bool :=
  match s with
  | String c _ => is_space c
  | EmptyString => false
  end.

Fixpoint ends_with_space (s : string) : bool :=
  match s with
  | EmptyString => false
  | String c EmptyString => is_space c
  | String _ s' => ends_with_space s'
  end.

Definition is_comma (c : ascii) : bool := Ascii.eqb c ",".

(** ** The redirect page ([src/app/detail/[...slug]/page.tsx], [DetailCatchAll]) *)

(** The character class [[a-z]] under the [i] flag: the 52 ASCII letters. *)
Definition is_letter (c : ascii) : bool := is_lower c || is_upper c.

(** [/^[a-z]{32}$/i.test(s)] *)
Definition test_id_i (s : string) : bool :=
  (String.length s =? 32)%nat && forall_chars is_letter s.

(** [s.replace(/-/g, " ")] *)
Fixpoint hyphens_to_spaces (s : string) : string :=
  match s with
  | EmptyString => EmptyString
  | String c s' =>
      String (if Ascii.eqb c "-" then " "%char else c) (hyphens_to_spaces s')
  end.

(** The character class [[a-zA-Z0-9 ]]. *)
Definition is_name_char (c : ascii) : bool :=
  is_lower c || is_upper c || is_digit c || Ascii.eqb c " ".

(** [s.replace(/[^a-zA-Z0-9 ]/g, EMPTY)], with [EMPTY] the empty string. *)
Fixpoint keep_name_chars (s : string) : string :=
  match s with
  | EmptyString => EmptyString
  | String c s' =>
      if is_name_char c then String c (keep_name_chars s')
      else keep_name_chars s'
  end.

(** [s.slice(0, n)] for [0 <= n]. *)
Definition slice0 (n : nat) (s : string) : string := String.substring 0 n s.

(** One uppercase hexadecimal digit. *)
Definition hex_digit (n : N) : ascii :=
  if (n <? 10)%N then ascii_of_N (48 + n) else ascii_of_N (55 + n).

(** The UTF-8 bytes of a code unit below 256. *)
Definition utf8_bytes (c : ascii) : list N :=
  if (code c <? 128)%N then [code c]
  else [192 + code c / 64; 128 + code c mod 64]%N.

(** The [application/x-www-form-urlencoded] serialization of one byte: a
    space becomes [+], the ASCII letters and digits and [*-._] stay, every
    other byte is percent-encoded. *)
Definition form_encode_byte (b : N) : string :=
  if (b =? 32)%N then "+"
  else if ((48 <=? b) && (b <=? 57))%N || ((65 <=? b) && (b <=? 90))%N
          || ((97 <=? b) && (b <=? 122))%N
          || (b =? 42)%N || (b =? 45)%N || (b =? 46)%N || (b =? 95)%N
       then String (ascii_of_N b) EmptyString
       else String "%" (String (hex_digit (b / 16))
                          (String (hex_digit (b mod 16)) EmptyString)).

Fixpoint form_encode (s : string) : string :=
  match s with
  | EmptyString => EmptyString
  | String c s' =>
      foldr (fun b acc => form_encode_byte b +:+ acc) (form_encode s')
            (utf8_bytes c)
  end.

(** [new URLSearchParams(...).toString()] for a list of pairs. *)
Fixpoint searchParams_toString (ps : list (string * string)) : string :=
  match ps with
  | [] => EmptyString
  | [(k, v)] => form_encode k +:+ "=" +:+ form_encode v
  | (k, v) :: ps' =>
      form_encode k +:+ "=" +:+ form_encode v +:+ "&"
        +:+ searchParams_toString ps'
  end.

(** [slug[i]]; the handler only reads indices it has checked. *)
Definition segment (slug : list string) (i : nat) : string :=
  default EmptyString (slug !! i).

(** [DetailCatchAll]: [redirect(target)] throws, so the first redirect
    reached ends the function; the result is its target. *)
Definition DetailCatchAll (slug : list string) : string :=
  if (10 <? length slug)%nat then "/"
  else
    let '(id, name) :=
      if (2 <=? length slug)%nat then
        let candidate := segment slug (length slug - 1) in
        if test_id_i candidate then
          let rawName := hyphens_to_spaces (segment slug (length slug - 2)) in
          (Some (toLowerCase candidate),
           Some (slice0 80 (keep_name_chars rawName)))
        else (None, None)
      else if (length slug =? 1)%nat && test_id_i (segment slug 0)
      then (Some (toLowerCase (segment slug 0)), None)
      else (None, None) in
    match id with
    | Some (String c i) =>
        let id := String c i in
        "/?" +:+ searchParams_toString
                   (("id", id)
                    :: match name with
                       | Some (String d n) => [("name", String d n)]
                       | _ => []
                       end)
    | _ => "/"
    end.

(** A character of a form-encoded name: [[a-zA-Z0-9+]]. *)
Definition is_encoded_name_char (c : ascii) : bool :=
  is_lower c || is_upper c || is_digit c || Ascii.eqb c "+".

(** ** The page ([src/app/page.tsx]): URLs, history, relative times *)

(** [buildCrxUrl] *)
Definition buildCrxUrl (extensionId : string) : string :=
  "https://clients2.google.com/service/update2/crx?response=redirect&prodversion=131.0.0.0&acceptformat=crx2,crx3&x=id%3D"
  +:+ extensionId +:+ "%26uc".

(** [buildStoreUrl] *)
Definition buildStoreUrl (extensionId : string) : string :=
  "https://chromewebstore.google.com/detail/" +:+ extensionId.

Record HistoryEntry : Type :=
  { h_id : string; h_name : string; h_crxUrl : string; h_timestamp : Z }.

(** The state of the page that the history handlers touch: the [input]
    text, the [result] shown, the [error] text, the [history] list, and
    what [saveHistory] has written to [localStorage]. *)
Record page_state : Type :=
  { input : string;
    result : option (string * string * string);
    error : string;
    history : list HistoryEntry;
    stored : list HistoryEntry }.

(** [h.id !== id] *)
Definition other_id (id : string) (h : HistoryEntry) : bool :=
  negb (String.eqb (h_id h) id).

(** [saveHistory(entries)] *)
Definition saveHistory (entries : list HistoryEntry) (st : page_state)
  : page_state :=
  {| input := input st; result := result st; error := error st;
     history := entries; stored := entries |}.

(** [processExtension(id, name, currentHistory)], with [now] the value of
    [Date.now()]. *)
Definition processExtension (now : Z) (id name : string)
    (currentHistory : list HistoryEntry) (st : page_state) : page_state :=
  let crxUrl := buildCrxUrl id in
  let st1 := {| input := input st;
                result := Some (id, name, crxUrl); error := EmptyString;
                history := history st; stored := stored st |} in
  let entry := {| h_id := id; h_name := name; h_crxUrl := crxUrl;
                  h_timestamp := now |} in
  let updated := entry :: List.filter (other_id id) currentHistory in
  saveHistory updated st1.

(** [handleRemove(id)] *)
Definition handleRemove (id : string) (st : page_state) : page_state :=
  let st1 := saveHistory (List.filter (other_id id) (history st)) st in
  match result st with
  | Some (rid, _, _) =>
      if String.eqb rid id
      then {| input := EmptyString; result := None; error := error st1;
              history := history st1; stored := stored st1 |}
      else st1
  | None => st1
  end.

(** Time values.  [Date.now()] yields a whole number of milliseconds
    since the epoch, at most 8.64e15 (the bound ECMAScript puts on time
    values), and [processExtension] stores such a value as [timestamp].
    [timeAgo] is modelled on these values only, where its double
    arithmetic is exact: the difference of two of them is an integer of
    magnitude below 2^53; its quotient by 1000 has magnitude below 2^43,
    where doubles are less than 0.001 apart, so [Math.floor] of the rounded
    quotient is the floor of the exact one, and the later quotients by 60
    and by 24 are floored exactly for the same reason; the counts printed
    are below 1e21, where Number-to-string writes plain decimal digits.
    A [timestamp] that is not such a value (a fraction, a number beyond
    the bound, something that is not a number, as an edited localStorage
    can hold) is outside the model. *)
Definition MAX_TIME_VALUE : Z := 8640000000000000.

Record time_value : Type :=
  { ms : Z;
    ms_range : (0 <=? ms) && (ms <=? MAX_TIME_VALUE) = true }.

(** [timeAgo(ts)], with [now] the value of [Date.now()]. *)
Definition timeAgo (now ts : time_value) : string :=
  let seconds := (ms now - ms ts) / 1000 in
  if seconds <? 60 then "just now"
  else
    let minutes := seconds / 60 in
    if minutes <? 60 then pretty minutes +:+ "m ago"
    else
      let hours := minutes / 60 in
      if hours <? 24 then pretty hours +:+ "h ago"
      else pretty (hours / 24) +:+ "d ago".

(** Two time values, a thousand seconds apart. *)
Definition time_sample_now : time_value :=
  {| ms := 1700000000000; ms_range := eq_refl |}.
Definition time_sample_then : time_value :=
  {| ms := 1699999000000; ms_range := eq_refl |}.

(** The identifiers of a history, in order. *)
Definition history_ids (hs : list HistoryEntry) : list string := h_id <$> hs.

(** The history holds each extension once and [localStorage] mirrors it. *)
Definition history_ok (st : page_state) : Prop :=
  NoDup (history_ids (history st)) /\ stored st = history st.

(** ** The regular expressions of [extractExtensionInfo]

    The four URL patterns are sequences of literal text, a greedy
    [[^/]+], a counted [[a-z]{32}] and capture groups around one of these,
    all under the [i] flag. [String.prototype.match] with such a pattern
    is a backtracking search for the leftmost match. *)

Inductive piece : Type :=
  | Text (t : string)                        (* literal characters *)
  | OneOrMore (cls : ascii -> bool)          (* [cls]+, greedy *)
  | Exactly (n : nat) (cls : ascii -> bool)  (* [cls]{n} *)
  | Capture (p : piece).                     (* ( p ) *)

(** Two characters are the same under the [i] flag. *)
Definition eq_nocase (a b : ascii) : bool :=
  Ascii.eqb (lower_char a) (lower_char b).

(** The rest of [s] after the literal [t], if [s] starts with it. *)
Fixpoint after_text (t s : string) : option string :=
  match t, s with
  | EmptyString, _ => Some s
  | String a t', String b s' =>
      if eq_nocase a b then after_text t' s' else None
  | String _ _, EmptyString => None
  end.

(** The number of leading characters of [s] that are in [cls]. *)
Fixpoint run_length (cls : ascii -> bool) (s : string) : nat :=
  match s with
  | String c s' => if cls c then S (run_length cls s') else O
  | EmptyString => O
  end.

Definition str_take (n : nat) (s : string) : string := String.substring 0 n s.
Definition str_drop (n : nat) (s : string) : string :=
  String.substring n (String.length s - n) s.

(** The ways [s] splits into [n], [n - 1], ..., 1 leading characters and
    the rest: the order in which a greedy [+] gives characters back. *)
Fixpoint splits_down (n : nat) (s : string) : list (string * string) :=
  match n with
  | O => []
  | S n' => (str_take n s, str_drop n s) :: splits_down n' s
  end.

(** The ways a piece can match at the start of [s], as (matched text,
    rest), in the order a backtracking matcher tries them. *)
Fixpoint alternatives (p : piece) (s : string) : list (string * string) :=
  match p with
  | Text t =>
      match after_text t s with
      | Some rest => [(str_take (String.length t) s, rest)]
      | None => []
      end
  | OneOrMore cls => splits_down (run_length cls s) s
  | Exactly n cls =>
      if (n <=? run_length cls s)%nat then [(str_take n s, str_drop n s)]
      else []
  | Capture q => alternatives q s
  end.

Definition is_capture (p : piece) : bool :=
  match p with
  | Capture _ => true
  | _ => false
  end.

(** The first alternative on which the continuation succeeds. *)
Fixpoint first_success {A B : Type} (f : A -> option B) (l : list A)
  : option B :=
  match l with
  | [] => None
  | x :: l' => match f x with
               | Some r => Some r
               | None => first_success f l'
               end
  end.

(** A match of the whole pattern at the start of [s]: the texts of its
    capture groups, in order. *)
Fixpoint match_pieces (ps : list piece) (s : string) : option (list string) :=
  match ps with
  | [] => Some []
  | p :: ps' =>
      first_success
        (fun '(m, rest) =>
           match match_pieces ps' rest with
           | Some caps => Some (if is_capture p then m :: caps else caps)
           | None => None
           end)
        (alternatives p s)
  end.

(** [s.match(pattern)]: the captures of the leftmost match. *)
Fixpoint search (ps : list piece) (s : string) : option (list string) :=
  match match_pieces ps s with
  | Some caps => Some caps
  | None => match s with
            | String _ s' => search ps s'
            | EmptyString => None
            end
  end.

(** [[^/]] *)
Definition not_slash (c : ascii) : bool := negb (Ascii.eqb c "/").

(** [/chromewebstore\.google\.com\/detail\/([^/]+)\/([a-z]{32})/i] *)
Definition pattern1 : list piece :=
  [Text "chromewebstore.google.com/detail/"; Capture (OneOrMore not_slash);
   Text "/"; Capture (Exactly 32 is_letter)].

(** [/chrome\.google\.com\/webstore\/detail\/([^/]+)\/([a-z]{32})/i] *)
Definition pattern2 : list piece :=
  [Text "chrome.google.com/webstore/detail/"; Capture (OneOrMore not_slash);
   Text "/"; Capture (Exactly 32 is_letter)].

(** [/chromewebstore\.google\.com\/detail\/([a-z]{32})/i] *)
Definition pattern3 : list piece :=
  [Text "chromewebstore.google.com/detail/"; Capture (Exactly 32 is_letter)].

(** [/chrome\.google\.com\/webstore\/detail\/[^/]+\/([a-z]{32})/i] *)
Definition pattern4 : list piece :=
  [Text "chrome.google.com/webstore/detail/"; OneOrMore not_slash;
   Text "/"; Capture (Exactly 32 is_letter)].

Record ExtensionInfo : Type := { info_id : string; info_name : string }.

(** The body of the loop over the patterns: [match.length === 3] holds
    for a pattern with two groups. *)
Definition info_of_match (caps : list string) : ExtensionInfo :=
  match caps with
  | [g1; g2] => {| info_id := g2; info_name := hyphens_to_spaces g1 |}
  | g1 :: _ => {| info_id := g1; info_name := g1 |}
  | [] => {| info_id := EmptyString; info_name := EmptyString |}
  end.

Fixpoint first_pattern (patterns : list (list piece)) (url : string)
  : option ExtensionInfo :=
  match patterns with
  | [] => None
  | pattern :: patterns' =>
      match search pattern url with
      | Some caps => Some (info_of_match caps)
      | None => first_pattern patterns' url
      end
  end.

(** [extractExtensionInfo] *)
Definition extractExtensionInfo (url : string) : option ExtensionInfo :=
  match first_pattern [pattern1; pattern2; pattern3; pattern4] url with
  | Some info => Some info
  | None =>
      if test_id (trim url)
      then Some {| info_id := trim url; info_name := trim url |}
      else None
  end.

(** The string holds a full stop. *)
Fixpoint has_dot (s : string) : bool :=
  match s with
  | EmptyString => false
  | String c s' => Ascii.eqb c "." || has_dot s'
  end.

Definition not_dot (c : ascii) : bool := negb (Ascii.eqb c ".").
Definition not_space (c : ascii) : bool := negb (is_space c).

(** * Properties *)

(** ** Container Parser *)

Section ParserFacts.

Local Open Scope N_scope.

Lemma to_N_byte_of_N (n : N) : Byte.to_N (byte_of_N n) = n mod 256.
Proof.
  unfold byte_of_N.
  destruct (Byte.of_N (n mod 256)) as [b|] eqn:E.
  - by apply Byte.to_of_N.
  - apply Byte.of_N_None_iff in E.
    pose proof (N.mod_upper_bound n 256). lia.
Qed.

(** Reading back the four bytes of [LE32 n] gives [n], for [n < 2^32]. *)
Lemma LE32_value (n : N) :
  n < 4294967296 ->
  Byte.to_N (byte_of_N n) + 256 * Byte.to_N (byte_of_N (n / 256))
  + 65536 * Byte.to_N (byte_of_N (n / 65536))
  + 16777216 * Byte.to_N (byte_of_N (n / 16777216)) = n.
Proof.
  intros Hn. rewrite !to_N_byte_of_N.
  replace (n / 65536) with (n / 256 / 256)
    by (rewrite N.Div0.div_div; reflexivity).
  replace (n / 16777216) with (n / 256 / 256 / 256)
    by (rewrite !N.Div0.div_div; reflexivity).
  pose proof (N.Div0.div_mod n 256).
  pose proof (N.Div0.div_mod (n / 256) 256).
  pose proof (N.Div0.div_mod (n / 256 / 256) 256).
  assert ((n / 256 / 256 / 256) mod 256 = n / 256 / 256 / 256).
  { apply N.mod_small. rewrite !N.Div0.div_div.
    apply N.Div0.div_lt_upper_bound. simpl. lia. }
  lia.
Qed.

Lemma LE32_3 : LE32 3 = [x03; x00; x00; x00].
Proof. reflexivity. Qed.

Lemma LE32_2 : LE32 2 = [x02; x00; x00; x00].
Proof. reflexivity. Qed.

(** The magic branch on a version-3 container, whatever follows. *)
Lemma strip_v3_shape (b0 b1 b2 b3 : byte) (rest : list byte) :
  stripCrxHeader (magic ++ [x03; x00; x00; x00] ++ [b0; b1; b2; b3] ++ rest)
  = Normal (sliceFrom (magic ++ [x03; x00; x00; x00] ++ [b0; b1; b2; b3] ++ rest)
              (12 + (Byte.to_N b0 + 256 * Byte.to_N b1
                                 + 65536 * Byte.to_N b2
                                 + 16777216 * Byte.to_N b3))).
Proof. reflexivity. Qed.

Lemma strip_v2_shape (p0 p1 p2 p3 s0 s1 s2 s3 : byte) (rest : list byte) :
  stripCrxHeader (magic ++ [x02; x00; x00; x00] ++ [p0; p1; p2; p3]
                        ++ [s0; s1; s2; s3] ++ rest)
  = Normal (sliceFrom (magic ++ [x02; x00; x00; x00] ++ [p0; p1; p2; p3]
                             ++ [s0; s1; s2; s3] ++ rest)
              (16 + (Byte.to_N p0 + 256 * Byte.to_N p1 + 65536 * Byte.to_N p2
                     + 16777216 * Byte.to_N p3)
                  + (Byte.to_N s0 + 256 * Byte.to_N s1 + 65536 * Byte.to_N s2
                     + 16777216 * Byte.to_N s3))).
Proof. reflexivity. Qed.

(** Slicing at the end of a prefix: the rest, unless the rest is empty. *)
Lemma sliceFrom_app (pre payload : list byte) :
  sliceFrom (pre ++ payload) (byteLength pre)
  = match payload with [] => None | _ => Some payload end.
Proof.
  unfold sliceFrom, byteLength, subarray.
  rewrite length_app, Nat2N.id, drop_app_length.
  destruct payload as [|b payload]; simpl.
  - rewrite Nat.add_0_r, N.ltb_irrefl. reflexivity.
  - replace (_ <? _) with true; [done|].
    symmetry. apply N.ltb_lt. lia.
Qed.

Lemma strip_crx3 (header payload : list byte) :
  byteLength header < 4294967296 ->
  stripCrxHeader (crx3 header payload)
  = Normal (match payload with [] => None | _ => Some payload end).
Proof.
  intros Hh. unfold crx3. rewrite LE32_3. unfold LE32.
  rewrite strip_v3_shape, (LE32_value _ Hh). f_equal.
  set (pre := magic ++ [x03; x00; x00; x00]
                ++ [byte_of_N (byteLength header);
                    byte_of_N (byteLength header / 256);
                    byte_of_N (byteLength header / 65536);
                    byte_of_N (byteLength header / 16777216)]).
  change (sliceFrom ((pre ++ header) ++ payload) (12 + byteLength header)
          = match payload with [] => None | _ => Some payload end).
  replace (12 + byteLength header) with (byteLength (pre ++ header)).
  - apply sliceFrom_app.
  - unfold byteLength. rewrite length_app. subst pre. simpl length. lia.
Qed.

Lemma strip_crx2 (pk sig payload : list byte) :
  byteLength pk < 4294967296 ->
  byteLength sig < 4294967296 ->
  stripCrxHeader (crx2 pk sig payload)
  = Normal (match payload with [] => None | _ => Some payload end).
Proof.
  intros Hp Hs. unfold crx2. rewrite LE32_2. unfold LE32.
  rewrite strip_v2_shape, (LE32_value _ Hp), (LE32_value _ Hs). f_equal.
  set (pre := magic ++ [x02; x00; x00; x00]
                ++ [byte_of_N (byteLength pk);
                    byte_of_N (byteLength pk / 256);
                    byte_of_N (byteLength pk / 65536);
                    byte_of_N (byteLength pk / 16777216)]
                ++ [byte_of_N (byteLength sig);
                    byte_of_N (byteLength sig / 256);
                    byte_of_N (byteLength sig / 65536);
                    byte_of_N (byteLength sig / 16777216)]).
  change (sliceFrom (pre ++ pk ++ sig ++ payload)
            (16 + byteLength pk + byteLength sig)
          = match payload with [] => None | _ => Some payload end).
  rewrite !app_assoc.
  replace (16 + byteLength pk + byteLength sig)
    with (byteLength ((pre ++ pk) ++ sig)).
  - apply sliceFrom_app.
  - unfold byteLength. rewrite !length_app. subst pre. simpl length. lia.
Qed.

(** C1 (as stated) fails: a version-3 container with an empty header and an
    empty payload is answered with [null], not with the empty payload. *)
Lemma strip_roundtrip_empty_payload :
  stripCrxHeader (crx3 [] []) = Normal None
  /\ stripCrxHeader (crx3 [] []) <> Normal (Some []).
Proof. split; [reflexivity | discriminate]. Qed.

(** C1 (amended): for every header whose length fits 32 bits (0, 16 and
    4096 among them) and every non-empty payload, parsing the version-3
    container ["Cr24" + LE32(3) + LE32(headerLen) + header + payload]
    returns exactly the payload; for all key and signature lengths that fit
    32 bits, zero included, and every non-empty payload, parsing the
    version-2 container returns exactly the payload. *)
Theorem strip_roundtrip (header pk sig payload : list byte) :
  payload <> [] ->
  byteLength header < 4294967296 ->
  byteLength pk < 4294967296 ->
  byteLength sig < 4294967296 ->
  stripCrxHeader (crx3 header payload) = Normal (Some payload)
  /\ stripCrxHeader (crx2 pk sig payload) = Normal (Some payload).
Proof.
  intros Hne Hh Hp Hs.
  rewrite (strip_crx3 _ _ Hh), (strip_crx2 _ _ _ Hp Hs).
  destruct payload; [done | split; reflexivity].
Qed.

Lemma strip_roundtrip_witness :
  stripCrxHeader (crx3 (replicate 16 x00) [x50; x4b; x03; x04])
  = Normal (Some [x50; x4b; x03; x04])
  /\ stripCrxHeader (crx2 [] [xff] [x50; x4b; x03; x04])
     = Normal (Some [x50; x4b; x03; x04]).
Proof.
  apply (strip_roundtrip (replicate 16 x00) [] [xff] [x50; x4b; x03; x04]);
    [discriminate | reflexivity | reflexivity | reflexivity].
Defined.

(** C7: the parser is not total. On a buffer that holds the magic and
    nothing else the version read throws a [RangeError]; so does the read
    of the signature length on a 12-byte version-2 buffer. Neither call
    returns a view or [null]. *)
Theorem strip_short_magic_throws :
  stripCrxHeader [x43; x72; x32; x34] = Throw RangeError
  /\ stripCrxHeader ([x43; x72; x32; x34] ++ [x02; x00; x00; x00]
                      ++ [x00; x00; x00; x00]) = Throw RangeError.
Proof. split; reflexivity. Qed.

(** Where the parser does return: on every buffer without the magic, and on
    every buffer of 16 bytes or more. *)
Lemma getUint32_in_bounds (buf : list byte) (off : nat) :
  (off + 4 <= length buf)%nat -> exists n, getUint32 buf off = Normal n.
Proof.
  intros Hlen. unfold getUint32.
  destruct (lookup_lt_is_Some_2 buf off) as [b0 ->]; [lia|].
  destruct (lookup_lt_is_Some_2 buf (off + 1)) as [b1 ->]; [lia|].
  destruct (lookup_lt_is_Some_2 buf (off + 2)) as [b2 ->]; [lia|].
  destruct (lookup_lt_is_Some_2 buf (off + 3)) as [b3 ->]; [lia|].
  eauto.
Qed.

Lemma getUint32_out_of_bounds (buf : list byte) (off : nat) :
  (length buf < off + 4)%nat -> getUint32 buf off = Throw RangeError.
Proof.
  intros Hlen. unfold getUint32.
  rewrite (lookup_ge_None_2 buf (off + 3)) by lia.
  repeat case_match; reflexivity.
Qed.

Lemma strip_returns_without_magic (buf : list byte) :
  (byteAt_is buf 0 x43 && byteAt_is buf 1 x72
   && byteAt_is buf 2 x32 && byteAt_is buf 3 x34) = false ->
  exists r, stripCrxHeader buf = Normal r.
Proof. intros H. unfold stripCrxHeader. rewrite H. eauto. Qed.

Lemma strip_returns_when_long (buf : list byte) :
  (16 <= length buf)%nat -> exists r, stripCrxHeader buf = Normal r.
Proof.
  intros Hlen. unfold stripCrxHeader.
  destruct (getUint32_in_bounds buf 4) as [v Hv]; [lia|].
  destruct (getUint32_in_bounds buf 8) as [a Ha]; [lia|].
  destruct (getUint32_in_bounds buf 12) as [b Hb]; [lia|].
  rewrite Hv, Ha, Hb. simpl.
  repeat case_match; eauto.
Qed.

(** Every buffer that holds the magic and fewer than 8 bytes makes the
    parser throw. *)
Lemma strip_throws_below_8 (rest : list byte) :
  (length rest < 4)%nat ->
  stripCrxHeader (magic ++ rest) = Throw RangeError.
Proof.
  intros Hlen. unfold stripCrxHeader.
  change (byteAt_is (magic ++ rest) 0 x43 && byteAt_is (magic ++ rest) 1 x72
          && byteAt_is (magic ++ rest) 2 x32
          && byteAt_is (magic ++ rest) 3 x34) with true.
  cbv iota. rewrite (getUint32_out_of_bounds _ 4); [reflexivity|].
  rewrite length_app. simpl. lia.
Qed.

End ParserFacts.

(** ** Response Builder: the file name *)

Section FilenameFacts.

Lemma replace_runs_cons (b : bool) (c : ascii) (s : string) :
  replace_runs b (String c s)
  = if is_alnum c then String c (replace_runs false s)
    else if b then replace_runs true s
    else String "-" (replace_runs true s).
Proof. reflexivity. Qed.

Lemma spec_collapse_cons (c : ascii) (s : string) :
  spec_collapse (String c s)
  = if is_alnum c then String c (spec_collapse s)
    else match s with
         | String d _ => if is_alnum d then String "-" (spec_collapse s)
                         else spec_collapse s
         | EmptyString => String "-" EmptyString
         end.
Proof. reflexivity. Qed.

Lemma hyphen_not_alnum : is_alnum "-" = false.
Proof. reflexivity. Qed.

Lemma alnum_not_hyphen (c : ascii) : is_alnum c = true -> Ascii.eqb c "-" = false.
Proof.
  intros H. destruct (Ascii.eqb_spec c "-") as [->|]; [|done].
  by rewrite hyphen_not_alnum in H.
Qed.

(** The code's left-to-right replacement and the specification's collapse
    agree; inside a run the code has emitted the hyphen already. *)
Lemma replace_runs_spec (s : string) :
  replace_runs false s = spec_collapse s
  /\ (if starts_in_run s then String "-" (replace_runs true s)
      else replace_runs true s) = spec_collapse s.
Proof.
  induction s as [|c s [IHf IHt]]; [done|].
  unfold starts_in_run. rewrite !replace_runs_cons, spec_collapse_cons.
  destruct (is_alnum c) eqn:Ec; simpl negb; cbv iota.
  - by rewrite IHf.
  - assert (String "-" (replace_runs true s)
            = match s with
              | String d _ => if is_alnum d then String "-" (spec_collapse s)
                              else spec_collapse s
              | EmptyString => String "-" EmptyString
              end) as ->; [|done].
    destruct s as [|d s]; [done|].
    unfold starts_in_run in IHt.
    destruct (is_alnum d); simpl negb in IHt; cbv iota in IHt; by rewrite IHt.
Qed.

Lemma single_hyphens_cons (c : ascii) (t : string) :
  single_hyphens (String c t)
  = negb (Ascii.eqb c "-" && starts_with_hyphen t) && single_hyphens t.
Proof. destruct t; [by rewrite andb_false_r|done]. Qed.

(** After the first replace no two hyphens are adjacent, and what the code
    emits inside a run does not start with a hyphen. *)
Lemma replace_runs_single (s : string) (b : bool) :
  single_hyphens (replace_runs b s) = true
  /\ starts_with_hyphen (replace_runs true s) = false.
Proof.
  revert b. induction s as [|c s IH]; intros b; [done|].
  rewrite !replace_runs_cons.
  destruct (IH false) as [Hf _], (IH true) as [Ht Hs].
  destruct (is_alnum c) eqn:Ec.
  - rewrite single_hyphens_cons, Hf. simpl.
    by rewrite (alnum_not_hyphen _ Ec).
  - split; [|done]. destruct b; [done|].
    by rewrite single_hyphens_cons, Hs, Ht, andb_false_r.
Qed.

Lemma drop_final_hyphen_cons (c : ascii) (s : string) :
  drop_final_hyphen (String c s)
  = match s with
    | EmptyString => if Ascii.eqb c "-" then EmptyString
                     else String c EmptyString
    | _ => String c (drop_final_hyphen s)
    end.
Proof. destruct s; reflexivity. Qed.

Lemma spec_trim_trailing_cons (c : ascii) (s : string) :
  spec_trim_trailing (String c s)
  = match spec_trim_trailing s with
    | EmptyString => if Ascii.eqb c "-" then EmptyString
                     else String c EmptyString
    | t => String c t
    end.
Proof. reflexivity. Qed.

Lemma spec_trim_trailing_empty (d : ascii) (s : string) :
  spec_trim_trailing (String d s) = EmptyString -> Ascii.eqb d "-" = true.
Proof.
  rewrite spec_trim_trailing_cons.
  destruct (spec_trim_trailing s), (Ascii.eqb d "-"); done.
Qed.

(** Removing one final hyphen removes them all when hyphens are single. *)
Lemma drop_final_hyphen_spec (t : string) :
  single_hyphens t = true -> drop_final_hyphen t = spec_trim_trailing t.
Proof.
  induction t as [|c s IH]; [done|].
  rewrite single_hyphens_cons, drop_final_hyphen_cons, spec_trim_trailing_cons.
  intros [Hc Hs]%andb_true_iff. specialize (IH Hs).
  destruct s as [|d s]; [done|]. rewrite IH.
  destruct (spec_trim_trailing (String d s)) eqn:E; [|done].
  apply spec_trim_trailing_empty in E. simpl in Hc. rewrite E in Hc.
  by destruct (Ascii.eqb c "-").
Qed.

Lemma spec_trim_leading_id (t : string) :
  starts_with_hyphen t = false -> spec_trim_leading t = t.
Proof. destruct t as [|c t]; [done|]. simpl. by intros ->. Qed.

(** On a string with single hyphens the second replace trims both ends. *)
Lemma strip_edge_hyphens_spec (t : string) :
  single_hyphens t = true ->
  strip_edge_hyphens t = spec_trim_trailing (spec_trim_leading t).
Proof.
  intros Ht. destruct t as [|c t]; [done|].
  rewrite single_hyphens_cons in Ht.
  apply andb_true_iff in Ht as [Hc Hs].
  unfold strip_edge_hyphens.
  change (spec_trim_leading (String c t))
    with (if Ascii.eqb c "-" then spec_trim_leading t else String c t).
  destruct (Ascii.eqb c "-") eqn:Ec.
  - simpl in Hc. apply negb_true_iff in Hc.
    rewrite (spec_trim_leading_id _ Hc). by apply drop_final_hyphen_spec.
  - apply drop_final_hyphen_spec. by rewrite single_hyphens_cons, Ec, Hs.
Qed.

Lemma safeName_spec (hint : string) : safeName hint = spec_sanitize hint.
Proof.
  unfold safeName, spec_sanitize.
  rewrite strip_edge_hyphens_spec by apply replace_runs_single.
  by rewrite (proj1 (replace_runs_spec _)).
Qed.

(** C8: the sanitized name is the hint lowercased, with every run of
    non-alphanumeric characters collapsed to one hyphen and the leading and
    trailing hyphens removed; the file name is [{sanitizedName}-{id}.zip]
    for a non-empty sanitized name and [{id}.zip] otherwise; the hint
    ["My Cool!! Extension--Name"] gives [my-cool-extension-name-{id}.zip],
    an empty or blank hint gives [{id}.zip]. *)
Theorem zip_filename_sanitized (hint id : string) :
  safeName hint = spec_sanitize hint
  /\ zip_filename hint id = spec_filename hint id
  /\ zip_filename "My Cool!! Extension--Name" id
     = "my-cool-extension-name-" +:+ id +:+ ".zip"
  /\ zip_filename EmptyString id = id +:+ ".zip"
  /\ zip_filename "   " id = id +:+ ".zip".
Proof.
  split; [apply safeName_spec|]. split; [|by repeat split].
  unfold zip_filename, spec_filename. rewrite safeName_spec.
  destruct (spec_sanitize hint); [done|].
  by destruct (decide _).
Qed.

End FilenameFacts.

(** ** Rate Limiter *)

Section RateLimiterFacts.

Local Open Scope Z_scope.

Implicit Types (m : gmap string entry) (ip : string) (e : entry).

(** What one check does to the entry of its key. *)
Lemma isRateLimited_fresh now ip m :
  match m !! ip with Some e => resetAt e < now | None => True end ->
  isRateLimited now ip m
  = (false, <[ip := {| count := 1; resetAt := now + RATE_WINDOW_MS |}]> m).
Proof.
  unfold isRateLimited. destruct (m !! ip) as [e|]; [|done].
  intros H. by rewrite (proj2 (Z.ltb_lt _ _) H).
Qed.

Lemma isRateLimited_live now ip m e :
  m !! ip = Some e -> now <= resetAt e ->
  isRateLimited now ip m
  = (RATE_LIMIT <? count e + 1,
     <[ip := {| count := count e + 1; resetAt := resetAt e |}]> m).
Proof.
  unfold isRateLimited. intros -> H.
  by rewrite (proj2 (Z.ltb_ge _ _) H).
Qed.

(** A check leaves every other key alone. *)
Lemma isRateLimited_other now ip ip' m :
  ip <> ip' -> (isRateLimited now ip m).2 !! ip' = m !! ip'.
Proof.
  intros Hne. unfold isRateLimited.
  destruct (m !! ip) as [e|]; [destruct (resetAt e <? now)|];
    simpl; by rewrite lookup_insert_ne.
Qed.

(** After a check the key has an entry. *)
Lemma isRateLimited_entry now ip m :
  (isRateLimited now ip m).2 !! ip
  = Some (match m !! ip with
          | Some e => if resetAt e <? now
                      then {| count := 1; resetAt := now + RATE_WINDOW_MS |}
                      else {| count := count e + 1; resetAt := resetAt e |}
          | None => {| count := 1; resetAt := now + RATE_WINDOW_MS |}
          end).
Proof.
  unfold isRateLimited.
  destruct (m !! ip) as [e|]; [destruct (resetAt e <? now)|];
    simpl; by rewrite lookup_insert_eq.
Qed.

(** The sweep keeps every entry whose reset time has not passed. *)
Lemma sweep_keeps now ip m e :
  m !! ip = Some e -> now <= resetAt e -> sweep now m !! ip = Some e.
Proof.
  intros Hm Hle. unfold sweep. apply map_lookup_filter_Some.
  split; [done|]. simpl. lia.
Qed.

(** One operation before the reset time of an entry: the entry stays, with
    the same reset time and a count that has not gone down. *)
Lemma run_op_in_window o m ip e :
  m !! ip = Some e -> op_time o <= resetAt e ->
  exists e', run_op o m !! ip = Some e'
             /\ resetAt e' = resetAt e /\ count e <= count e'.
Proof.
  intros Hm Hle. destruct o as [now ip'|now]; simpl in *.
  - destruct (decide (ip' = ip)) as [->|Hne].
    + rewrite (isRateLimited_live _ _ _ _ Hm Hle). simpl.
      rewrite lookup_insert_eq. eexists. split; [done|]. simpl. lia.
    + rewrite isRateLimited_other by done. exists e. split; [done|]. lia.
  - rewrite (sweep_keeps _ _ _ _ Hm Hle). exists e. split; [done|]. lia.
Qed.

Lemma run_ops_in_window os m ip e :
  m !! ip = Some e -> Forall (fun o => op_time o <= resetAt e) os ->
  exists e', run_ops os m !! ip = Some e'
             /\ resetAt e' = resetAt e /\ count e <= count e'.
Proof.
  revert m e. induction os as [|o os IH]; intros m e Hm Hall.
  - exists e. split; [done|]. lia.
  - apply Forall_cons in Hall as [Ho Hos]. unfold run_ops. simpl.
    destruct (run_op_in_window o m ip e Hm Ho) as (e1 & H1 & Hr & Hc).
    destruct (IH (run_op o m) e1 H1) as (e2 & H2 & Hr2 & Hc2).
    { by rewrite Hr. }
    exists e2. split; [exact H2|]. lia.
Qed.

(** A denial stores a count above the limit. *)
Lemma denied_count now ip m m' e :
  isRateLimited now ip m = (true, m') -> m' !! ip = Some e ->
  RATE_LIMIT < count e.
Proof.
  unfold isRateLimited.
  destruct (m !! ip) as [e0|]; [destruct (resetAt e0 <? now)|]; try done.
  intros [= Hlt <-]. rewrite lookup_insert_eq. intros [= <-].
  simpl. by apply Z.ltb_lt.
Qed.

(** C9: before the stored reset time of an entry passes, whatever checks
    (of this key or of others) and sweeps run, the entry stays with its
    reset time and its count never goes down; so once a key has been
    denied, every later check of it up to that reset time is denied. *)
Theorem denied_stays_denied m0 ip t0 m e (os : list op) (t : Z) :
  isRateLimited t0 ip m0 = (true, m) ->
  m !! ip = Some e ->
  Forall (fun o => op_time o <= resetAt e) os ->
  t <= resetAt e ->
  (exists e', run_ops os m !! ip = Some e'
              /\ resetAt e' = resetAt e /\ count e <= count e')
  /\ (isRateLimited t ip (run_ops os m)).1 = true
  /\ (forall now m1,
        (isRateLimited now ip m1).2 !! ip
        = Some (match m1 !! ip with
                | Some e1 =>
                    if resetAt e1 <? now
                    then {| count := 1; resetAt := now + RATE_WINDOW_MS |}
                    else {| count := count e1 + 1; resetAt := resetAt e1 |}
                | None => {| count := 1; resetAt := now + RATE_WINDOW_MS |}
                end)).
Proof.
  intros Hden Hm Hos Ht.
  pose proof (denied_count _ _ _ _ _ Hden Hm) as Hc.
  destruct (run_ops_in_window os m ip e Hm Hos) as (e' & He' & Hr & Hc').
  split; [by exists e'|].
  split; [|intros; apply isRateLimited_entry].
  rewrite (isRateLimited_live _ _ _ _ He') by lia.
  simpl. apply Z.ltb_lt. lia.
Qed.

Lemma denied_stays_denied_witness :
  let m0 : gmap string entry := {[ "10.0.0.1" := {| count := 5; resetAt := 100 |} ]} in
  let m := (isRateLimited 50 "10.0.0.1" m0).2 in
  (isRateLimited 100 "10.0.0.1"
     (run_ops [OpCheck 60 "10.0.0.2"; OpSweep 70; OpCheck 80 "10.0.0.1"] m)).1
  = true.
Proof.
  intros m0 m.
  refine (proj1 (proj2 (denied_stays_denied m0 "10.0.0.1" 50 m
                          {| count := 6; resetAt := 100 |}
                          [OpCheck 60 "10.0.0.2"; OpSweep 70; OpCheck 80 "10.0.0.1"]
                          100 _ _ _ _))).
  - reflexivity.
  - reflexivity.
  - repeat constructor; simpl; lia.
  - simpl. lia.
Defined.

(** The answers to checks of one key inside the window of its entry. *)
Lemma checks_in_window ip (ts : list Z) m e :
  m !! ip = Some e -> Forall (fun t => t <= resetAt e) ts ->
  forall i, (i < length ts)%nat ->
    (checks ip ts m).1 !! i = Some (RATE_LIMIT <? count e + Z.of_nat i + 1).
Proof.
  revert m e. induction ts as [|t ts IH]; intros m e Hm Hall i Hi;
    [simpl in Hi; lia|].
  apply Forall_cons in Hall as [Ht Hts]. simpl.
  rewrite (isRateLimited_live _ _ _ _ Hm Ht).
  specialize (IH (<[ip := {| count := count e + 1; resetAt := resetAt e |}]> m)
                 {| count := count e + 1; resetAt := resetAt e |}
                 (lookup_insert_eq _ _ _) Hts).
  destruct (checks ip ts _) as [bs m''] eqn:E. simpl in *.
  destruct i as [|j]; simpl.
  - do 2 f_equal. lia.
  - rewrite IH by lia. do 2 f_equal. lia.
Qed.

(** C6: from a key without a live entry, with every later check no later
    than the reset time stored by the first one, checks number 1 to 5 are
    allowed and every check from the 6th on is denied; a check made once
    the stored reset time has passed sets the entry to count 1 with a reset
    time one window ahead, and is allowed. *)
Theorem rate_limit_window ip m (t0 : Z) (ts : list Z) :
  match m !! ip with Some e => resetAt e < t0 | None => True end ->
  Forall (fun t => t <= t0 + RATE_WINDOW_MS) ts ->
  RATE_LIMIT = 5 /\ RATE_WINDOW_MS = 60000
  /\ (forall i, (i < S (length ts))%nat ->
        (checks ip (t0 :: ts) m).1 !! i = Some (bool_decide (5 <= i)%nat))
  /\ (forall m' e now, m' !! ip = Some e -> resetAt e < now ->
        isRateLimited now ip m'
        = (false,
           <[ip := {| count := 1; resetAt := now + RATE_WINDOW_MS |}]> m')).
Proof.
  intros Hfresh Hts. do 2 (split; [reflexivity|]). split.
  - intros i Hi. simpl. rewrite (isRateLimited_fresh _ _ _ Hfresh).
    pose proof (checks_in_window ip ts
                  (<[ip := {| count := 1; resetAt := t0 + RATE_WINDOW_MS |}]> m)
                  {| count := 1; resetAt := t0 + RATE_WINDOW_MS |}
                  (lookup_insert_eq _ _ _) Hts) as Hin.
    destruct (checks ip ts _) as [bs m''] eqn:E. simpl in *.
    destruct i as [|j]; simpl.
    + reflexivity.
    + rewrite Hin by lia. f_equal. unfold RATE_LIMIT.
      case_bool_decide; [apply Z.ltb_lt | apply Z.ltb_ge]; lia.
  - intros m' e now Hm Hlt. apply isRateLimited_fresh. by rewrite Hm.
Qed.

Lemma rate_limit_window_witness :
  (checks "10.0.0.1" [1000; 1001; 1002; 1003; 1004; 1005; 61000] ∅).1
    !! 5%nat = Some true
  /\ (checks "10.0.0.1" [1000; 1001; 1002; 1003; 1004; 1005; 61000] ∅).1
       !! 4%nat = Some false.
Proof.
  assert (Forall (fun t => t <= 1000 + RATE_WINDOW_MS)
            [1001; 1002; 1003; 1004; 1005; 61000]) as Hts.
  { repeat constructor; unfold RATE_WINDOW_MS; lia. }
  split.
  - refine (proj1 (proj2 (proj2
              (rate_limit_window "10.0.0.1" ∅ 1000
                 [1001; 1002; 1003; 1004; 1005; 61000] _ Hts))) 5%nat _).
    + vm_compute. exact I.
    + simpl. lia.
  - refine (proj1 (proj2 (proj2
              (rate_limit_window "10.0.0.1" ∅ 1000
                 [1001; 1002; 1003; 1004; 1005; 61000] _ Hts))) 4%nat _).
    + vm_compute. exact I.
    + simpl. lia.
Defined.

End RateLimiterFacts.

(** ** Size-Guarded Streamer *)

Section StreamerFacts.

Local Open Scope Z_scope.

Lemma stream_bytes_cons (c : list byte) (cs : list (list byte)) :
  stream_bytes (c :: cs) = chunk_len c + stream_bytes cs.
Proof. unfold stream_bytes, chunk_len. simpl. rewrite length_app. lia. Qed.

Lemma stream_bytes_nonneg (cs : list (list byte)) : 0 <= stream_bytes cs.
Proof. unfold stream_bytes, chunk_len. lia. Qed.

Lemma transform_ok (c : list byte) (st : limiter) :
  bytesRead st + chunk_len c <= MAX_CRX_SIZE ->
  transform c st = {| bytesRead := bytesRead st + chunk_len c;
                      enqueued := enqueued st ++ [c]; errored := None |}.
Proof. intros H. unfold transform. by rewrite (proj2 (Z.ltb_ge _ _) H). Qed.

Lemma transform_over (c : list byte) (st : limiter) :
  MAX_CRX_SIZE < bytesRead st + chunk_len c ->
  transform c st = {| bytesRead := bytesRead st + chunk_len c;
                      enqueued := enqueued st;
                      errored := Some GenericError |}.
Proof. intros H. unfold transform. by rewrite (proj2 (Z.ltb_lt _ _) H). Qed.

(** What feeding a sequence of chunks to a live limiter leaves behind. *)
Lemma feed_spec (cs : list (list byte)) (st : limiter) :
  bytesRead st <= MAX_CRX_SIZE ->
  errored st = None ->
  if MAX_CRX_SIZE <? bytesRead st + stream_bytes cs
  then exists k c,
      cs !! k = Some c
      /\ bytesRead st + stream_bytes (take k cs) <= MAX_CRX_SIZE
      /\ MAX_CRX_SIZE < bytesRead st + stream_bytes (take (S k) cs)
      /\ enqueued (feed cs st) = enqueued st ++ take k cs
      /\ errored (feed cs st) = Some GenericError
  else enqueued (feed cs st) = enqueued st ++ cs
       /\ errored (feed cs st) = None.
Proof.
  revert st. induction cs as [|c cs IH]; intros st Hst Hlive.
  - change (stream_bytes []) with 0. rewrite Z.add_0_r.
    rewrite (proj2 (Z.ltb_ge _ _) Hst). simpl. by rewrite app_nil_r.
  - rewrite stream_bytes_cons. pose proof (stream_bytes_nonneg cs) as Hcs.
    simpl feed.
    destruct (Z.lt_ge_cases MAX_CRX_SIZE (bytesRead st + chunk_len c))
      as [Hover|Hfit].
    + rewrite (transform_over _ _ Hover). simpl.
      rewrite (proj2 (Z.ltb_lt _ _)) by lia.
      exists 0%nat, c. cbn [firstn]. rewrite ?take_0.
      rewrite app_nil_r, stream_bytes_cons.
      change (stream_bytes []) with 0.
      split; [done|]. split; [lia|]. split; [lia|]. done.
    + rewrite (transform_ok _ _ Hfit). simpl.
      specialize (IH {| bytesRead := bytesRead st + chunk_len c;
                        enqueued := enqueued st ++ [c]; errored := None |}
                     Hfit eq_refl).
      simpl in IH. rewrite <- Z.add_assoc in IH.
      destruct (MAX_CRX_SIZE <? bytesRead st + (chunk_len c + stream_bytes cs)).
      * destruct IH as (k & c' & Hk & Hle & Hlt & Henq & Herr).
        exists (S k), c'.
        change (take (S (S k)) (c :: cs)) with (c :: take (S k) cs).
        change (take (S k) (c :: cs)) with (c :: take k cs).
        rewrite !stream_bytes_cons. rewrite <- app_assoc in Henq.
        split; [done|]. split; [lia|]. split; [lia|]. done.
      * destruct IH as [Henq Herr]. rewrite <- app_assoc in Henq. done.
Qed.

Lemma feed_init_spec (cs : list (list byte)) :
  if MAX_CRX_SIZE <? stream_bytes cs
  then exists k c,
      cs !! k = Some c
      /\ stream_bytes (take k cs) <= MAX_CRX_SIZE
      /\ MAX_CRX_SIZE < stream_bytes (take (S k) cs)
      /\ enqueued (feed cs limiter_init) = take k cs
      /\ errored (feed cs limiter_init) = Some GenericError
  else enqueued (feed cs limiter_init) = cs
       /\ errored (feed cs limiter_init) = None.
Proof.
  assert (bytesRead limiter_init <= MAX_CRX_SIZE) as H0 by done.
  exact (feed_spec cs limiter_init H0 eq_refl).
Qed.

(** C5: the chunks the limiter hands on are a prefix of the upstream
    chunks, unchanged and in order; they never carry more than 20 MiB; when
    the upstream carries more, the first chunk that takes the running total
    past the ceiling is not handed on, nothing after it is, and the stream
    ends with an error; otherwise everything is handed on and the stream
    ends as the upstream does. *)
Theorem size_guarded_stream (up : stream) :
  MAX_CRX_SIZE = 20 * 1024 * 1024
  /\ stream_bytes (chunks (pipeThrough up)) <= MAX_CRX_SIZE
  /\ (exists k, chunks (pipeThrough up) = take k (chunks up))
  /\ if MAX_CRX_SIZE <? stream_bytes (chunks up)
     then exists k c,
         chunks up !! k = Some c
         /\ stream_bytes (take k (chunks up)) <= MAX_CRX_SIZE
         /\ MAX_CRX_SIZE < stream_bytes (take (S k) (chunks up))
         /\ chunks (pipeThrough up) = take k (chunks up)
         /\ stream_end (pipeThrough up) = Errored GenericError
     else chunks (pipeThrough up) = chunks up
          /\ stream_end (pipeThrough up) = stream_end up.
Proof.
  split; [reflexivity|].
  pose proof (feed_init_spec (chunks up)) as H.
  unfold pipeThrough. cbn [chunks stream_end].
  destruct (MAX_CRX_SIZE <? stream_bytes (chunks up)) eqn:E.
  - destruct H as (k & c & Hk & Hle & Hlt & Henq & Herr).
    rewrite Henq, Herr. split; [done|]. split; [by exists k|].
    by exists k, c.
  - destruct H as [Henq Herr]. rewrite Henq, Herr.
    apply Z.ltb_ge in E. split; [done|]. split; [|done].
    exists (length (chunks up)). by rewrite take_ge.
Qed.

End StreamerFacts.

(** ** The handlers *)

Section HandlerFacts.

Local Open Scope Z_scope.

Variable fetch : string -> completion upstream_response.
Variable now : Z.

Implicit Types (req : request) (w : world) (m : gmap string entry).

Lemma replace_first_template (id : string) :
  replace_first "{ID}" id CRX_URL_TEMPLATE = url_for id.
Proof. reflexivity. Qed.

Lemma NextResponse_json_ok (error : string) (st : Z) hs :
  json_status_ok st = true ->
  NextResponse_json error st hs
  = Normal {| status := st; headers := hs; body := Json error |}.
Proof.
  unfold json_status_ok, NextResponse_json.
  intros [H1 H2]%andb_true_iff.
  apply negb_true_iff in H1, H2. by rewrite H1, H2.
Qed.

Lemma NextResponse_json_bad (error : string) (st : Z) hs :
  json_status_ok st = false ->
  NextResponse_json error st hs = Throw RangeError
  \/ NextResponse_json error st hs = Throw TypeError.
Proof.
  unfold json_status_ok, NextResponse_json.
  destruct ((st <? 200) || (599 <? st)); [eauto|].
  destruct (null_body_status st); [eauto|done].
Qed.

Lemma on_error_502 (err : exn) w :
  exists msg, on_error err w = (Normal (json_error 502 msg), w).
Proof. destruct err; eexists; reflexivity. Qed.

(** Rejection of an identifier: nothing is touched. *)
Lemma Archive_GET_invalid req w :
  test_id (param_id req) = false ->
  ArchiveRoute.GET fetch now req w
  = (Normal (json_error 400 "Invalid extension ID"), w).
Proof. intros H. unfold ArchiveRoute.GET. by rewrite H. Qed.

Lemma Raw_GET_invalid req w :
  test_id (param_id req) = false ->
  RawRoute.GET fetch now req w
  = (Normal (json_error 400 "Invalid extension ID"), w).
Proof. intros H. unfold RawRoute.GET. by rewrite H. Qed.

Lemma Archive_GET_limited req w :
  test_id (param_id req) = true ->
  (isRateLimited now (callerKey req) (rateMap w)).1 = true ->
  ArchiveRoute.GET fetch now req w
  = (Normal {| status := 429; headers := [("Retry-After", "60")];
               body := Json "Too many requests. Try again in a minute." |},
     after_check now req w).
Proof.
  intros Hid Hlim. unfold ArchiveRoute.GET, after_check.
  rewrite Hid. unfold mbind, M_bind, rateLimit. simpl.
  destruct (isRateLimited _ _ _) as [b m']. simpl in *. by subst b.
Qed.

Lemma Raw_GET_limited req w :
  test_id (param_id req) = true ->
  (isRateLimited now (callerKey req) (rateMap w)).1 = true ->
  RawRoute.GET fetch now req w
  = (Normal {| status := 429; headers := [("Retry-After", "60")];
               body := Json "Too many requests. Try again in a minute." |},
     after_check now req w).
Proof.
  intros Hid Hlim. unfold RawRoute.GET, after_check.
  rewrite Hid. unfold mbind, M_bind, rateLimit. simpl.
  destruct (isRateLimited _ _ _) as [b m']. simpl in *. by subst b.
Qed.

(** Unfolding a handler down to the case analysis on its environment. *)
Ltac step_handler := cbn beta iota zeta delta [rateMap log fst snd negb].

Ltac run_handler :=
  unfold ArchiveRoute.GET, RawRoute.GET;
  unfold arrayBuffer, do_fetch, on_error;
  unfold mbind, M_bind, rateLimit, try_catch, emit, lift, mret, M_ret;
  step_handler.

Lemma consumes_one_unit_intro req w w' rest :
  rateMap w' = (isRateLimited now (callerKey req) (rateMap w)).2 ->
  log w' = log w ++ EvRateCheck (callerKey req) :: rest ->
  Forall (fun ev => forall ip, ev <> EvRateCheck ip) rest ->
  consumes_one_unit now req w w'.
Proof.
  intros Hm Hl Hrest. unfold consumes_one_unit. rewrite Hm.
  split; [done|]. split; [apply isRateLimited_entry|].
  split; [intros ip Hne; by apply isRateLimited_other|]. eauto.
Qed.

Ltac solve_consumes :=
  eapply consumes_one_unit_intro; step_handler;
  [ done
  | repeat rewrite <- app_assoc; cbn [app]; reflexivity
  | repeat constructor; done ].

Lemma Archive_consumes req w :
  test_id (param_id req) = true ->
  consumes_one_unit now req w (ArchiveRoute.GET fetch now req w).2.
Proof.
  intros Hid. run_handler. rewrite Hid. step_handler.
  generalize (replace_first "{ID}" (param_id req) CRX_URL_TEMPLATE) as url.
  intros url.
  destruct (isRateLimited now (callerKey req) (rateMap w)) as [limited m'] eqn:E.
  assert (m' = (isRateLimited now (callerKey req) (rateMap w)).2) as Hm'
    by (by rewrite E).
  destruct limited; [solve_consumes|]. step_handler.
  destruct (fetch _) as [resp|e]; [|destruct e; solve_consumes].
  destruct (response_ok resp); step_handler.
  2:{ destruct (NextResponse_json _ _ _) as [r|e]; [|destruct e]; solve_consumes. }
  destruct (read_body resp) as [buf|e]; [|destruct e; solve_consumes].
  destruct (MAX_CRX_SIZE <? chunk_len buf); [solve_consumes|].
  destruct (stripCrxHeader buf) as [[zip|]|e]; [| |destruct e]; solve_consumes.
Qed.

Lemma Raw_consumes req w :
  test_id (param_id req) = true ->
  consumes_one_unit now req w (RawRoute.GET fetch now req w).2.
Proof.
  intros Hid. run_handler. rewrite Hid. step_handler.
  generalize (replace_first "{ID}" (param_id req) CRX_URL_TEMPLATE) as url.
  intros url.
  destruct (isRateLimited now (callerKey req) (rateMap w)) as [limited m'] eqn:E.
  assert (m' = (isRateLimited now (callerKey req) (rateMap w)).2) as Hm'
    by (by rewrite E).
  destruct limited; [solve_consumes|]. step_handler.
  destruct (fetch _) as [resp|e]; [|destruct e; solve_consumes].
  destruct (response_ok resp); step_handler.
  2:{ destruct (NextResponse_json _ _ _) as [r|e]; [|destruct e]; solve_consumes. }
  destruct (num_gt _ MAX_CRX_SIZE); [solve_consumes|].
  destruct (up_body resp); solve_consumes.
Qed.

Ltac enter_handler Hid Hlim Hfetch :=
  run_handler; rewrite Hid; step_handler;
  rewrite replace_first_template;
  unfold after_fetch, after_check;
  destruct (isRateLimited _ _ _) as [limited m'];
  cbn [fst snd] in Hlim |- *; subst limited; step_handler;
  rewrite Hfetch; step_handler.

Lemma Archive_GET_not_ok req w resp :
  reaches_upstream fetch now req w resp ->
  response_ok resp = false ->
  ArchiveRoute.GET fetch now req w
  = (Normal (not_ok_answer resp), after_fetch now req w).
Proof.
  intros (Hid & Hlim & Hfetch) Hok. enter_handler Hid Hlim Hfetch.
  rewrite Hok. step_handler. unfold not_ok_answer.
  destruct (json_status_ok (up_status resp)) eqn:Ej.
  - by rewrite (NextResponse_json_ok _ _ _ Ej).
  - by destruct (NextResponse_json_bad "Failed to fetch CRX file" _ [] Ej)
      as [-> | ->].
Qed.

Lemma Raw_GET_not_ok req w resp :
  reaches_upstream fetch now req w resp ->
  response_ok resp = false ->
  RawRoute.GET fetch now req w
  = (Normal (not_ok_answer resp), after_fetch now req w).
Proof.
  intros (Hid & Hlim & Hfetch) Hok. enter_handler Hid Hlim Hfetch.
  rewrite Hok. step_handler. unfold not_ok_answer.
  destruct (json_status_ok (up_status resp)) eqn:Ej.
  - by rewrite (NextResponse_json_ok _ _ _ Ej).
  - by destruct (NextResponse_json_bad "Failed to fetch CRX file" _ [] Ej)
      as [-> | ->].
Qed.

(** C4 (amended): when the fetch completes with a status that is not a
    success, each endpoint answers with that very status (and the message
    "Failed to fetch CRX file") whenever a JSON response can carry it, that
    is for 200..599 except 204, 205 and 304; for the other statuses
    building the answer throws and the endpoint answers 502. *)
Theorem upstream_status_propagated req w resp :
  reaches_upstream fetch now req w resp ->
  response_ok resp = false ->
  ArchiveRoute.GET fetch now req w
  = (Normal (not_ok_answer resp), after_fetch now req w)
  /\ RawRoute.GET fetch now req w
     = (Normal (not_ok_answer resp), after_fetch now req w).
Proof.
  intros Hup Hok. split; [by apply Archive_GET_not_ok | by apply Raw_GET_not_ok].
Qed.

(** The streaming endpoint answers a declared length above the ceiling
    right after the fetch. *)
Lemma Raw_GET_declared_too_large req w resp :
  reaches_upstream fetch now req w resp ->
  response_ok resp = true ->
  declares_too_large resp = true ->
  RawRoute.GET fetch now req w
  = (Normal (json_error 413 "Extension file too large"),
     after_fetch now req w).
Proof.
  intros (Hid & Hlim & Hfetch) Hok Hbig. enter_handler Hid Hlim Hfetch.
  rewrite Hok. step_handler. unfold declares_too_large in Hbig.
  by rewrite Hbig.
Qed.

(** The archive endpoint reads the body of every [ok] response, and
    answers 413 exactly when the body it has read is above the ceiling. *)
Lemma Archive_GET_reads_body req w resp :
  reaches_upstream fetch now req w resp ->
  response_ok resp = true ->
  log (ArchiveRoute.GET fetch now req w).2
  = log (after_fetch now req w) ++ [EvReadBody]
  /\ ((ArchiveRoute.GET fetch now req w).1
      = Normal (json_error 413 "Extension file too large")
      <-> exists buf, read_body resp = Normal buf
                      /\ MAX_CRX_SIZE < chunk_len buf).
Proof.
  intros (Hid & Hlim & Hfetch) Hok. enter_handler Hid Hlim Hfetch.
  rewrite Hok. step_handler.
  destruct (read_body resp) as [buf|e].
  2:{ split; [by destruct e|]. split; [by destruct e|]. by intros (? & ? & _). }
  step_handler.
  destruct (MAX_CRX_SIZE <? chunk_len buf) eqn:Esz.
  { split; [done|]. split; [|done]. intros _. exists buf.
    split; [done|]. by apply Z.ltb_lt. }
  apply Z.ltb_ge in Esz.
  assert (~ exists buf0, Normal buf = Normal buf0 /\ MAX_CRX_SIZE < chunk_len buf0)
    as Hno by (intros (? & [= <-] & ?); lia).
  destruct (stripCrxHeader buf) as [[zip|]|e]; [| |destruct e];
    (split; [done|]); (split; [done|]); intros H; by destruct Hno.
Qed.

(** C3 (as stated) fails on the archive endpoint: with a declared length
    of 30 000 000 bytes it still reads the body, and here answers 502
    because the read runs into the deadline. *)
Lemma archive_ignores_declared_length :
  (ArchiveRoute.GET upstream_declares_30MB 0 (sample_request id_lower)
     (start ∅)).1
  = Normal (json_error 502 "Upstream request timed out")
  /\ log (ArchiveRoute.GET upstream_declares_30MB 0 (sample_request id_lower)
            (start ∅)).2
     = [EvRateCheck "203.0.113.7"; EvFetch (url_for id_lower); EvReadBody].
Proof. split; reflexivity. Qed.

(** The archive endpoint answers from the status and the body of the
    upstream response alone: two upstreams that agree on these get the
    same answer and leave the same world, whatever lengths they declare. *)
Lemma Archive_GET_ignores_declared_length req w resp
    (fetch' : string -> completion upstream_response)
    (resp' : upstream_response) :
  reaches_upstream fetch now req w resp ->
  fetch' (url_for (param_id req)) = Normal resp' ->
  up_status resp' = up_status resp ->
  up_body resp' = up_body resp ->
  ArchiveRoute.GET fetch' now req w = ArchiveRoute.GET fetch now req w.
Proof.
  intros (Hid & Hlim & Hfetch) Hfetch' Hstatus Hbody.
  run_handler. rewrite Hid. step_handler. rewrite replace_first_template.
  destruct (isRateLimited _ _ _) as [limited m'].
  cbn [fst snd] in Hlim. subst limited. step_handler.
  rewrite Hfetch, Hfetch'. step_handler.
  unfold response_ok, read_body. by rewrite Hstatus, Hbody.
Qed.

(** C3 (amended): for an [ok] upstream response that declares a
    Content-Length above 20 MiB, the streaming endpoint answers 413 right
    after the fetch, without reading the body; the archive endpoint does
    not look at the declared length: for every [ok] response, whatever it
    declares, it reads the body, answers 413 exactly when the body it has
    read holds more than 20 MiB, and answers the same to any upstream with
    the same status and body. *)
Theorem declared_length_cutoff req w resp :
  reaches_upstream fetch now req w resp ->
  response_ok resp = true ->
  MAX_CRX_SIZE = 20 * 1024 * 1024
  /\ (declares_too_large resp = true ->
      (RawRoute.GET fetch now req w).1
      = Normal (json_error 413 "Extension file too large")
      /\ log (RawRoute.GET fetch now req w).2
         = log w ++ [EvRateCheck (callerKey req);
                     EvFetch (url_for (param_id req))])
  /\ log (ArchiveRoute.GET fetch now req w).2
     = log w ++ [EvRateCheck (callerKey req); EvFetch (url_for (param_id req));
                 EvReadBody]
  /\ ((ArchiveRoute.GET fetch now req w).1
      = Normal (json_error 413 "Extension file too large")
      <-> exists buf, read_body resp = Normal buf
                      /\ MAX_CRX_SIZE < chunk_len buf)
  /\ (forall (fetch' : string -> completion upstream_response) resp',
        fetch' (url_for (param_id req)) = Normal resp' ->
        up_status resp' = up_status resp ->
        up_body resp' = up_body resp ->
        ArchiveRoute.GET fetch' now req w = ArchiveRoute.GET fetch now req w).
Proof.
  intros Hup Hok. split; [reflexivity|].
  destruct (Archive_GET_reads_body _ _ _ Hup Hok) as [Hlog H413].
  split; [|split; [|split; [exact H413|]]].
  - intros Hbig. rewrite (Raw_GET_declared_too_large _ _ _ Hup Hok Hbig).
    split; [done|]. unfold after_fetch, after_check. cbn [log fst snd].
    by rewrite <- !app_assoc.
  - rewrite Hlog. unfold after_fetch, after_check. cbn [log fst snd].
    by rewrite <- !app_assoc.
  - intros fetch' resp' Hfetch' Hstatus Hbody.
    exact (Archive_GET_ignores_declared_length req w resp fetch' resp'
             Hup Hfetch' Hstatus Hbody).
Qed.

(** C10: a request whose identifier passes validation runs the rate
    limiter for its caller key exactly once, as the first effect and so
    before any fetch; whatever the upstream does afterwards (an error
    status, a rejected or timed-out fetch, an oversize or unparseable
    body), the store the handler leaves is the store that one check
    leaves: the caller's entry is created, reinitialized or incremented,
    and no other key changes. *)
Theorem quota_consumed_once req w :
  test_id (param_id req) = true ->
  consumes_one_unit now req w (ArchiveRoute.GET fetch now req w).2
  /\ consumes_one_unit now req w (RawRoute.GET fetch now req w).2.
Proof. intros Hid. split; [by apply Archive_consumes | by apply Raw_consumes]. Qed.

Ltac shape_with r :=
  match goal with
  | Hshape : forall l r, _ -> exists rest, _ |- _ =>
      apply (Hshape _ r); step_handler;
      rewrite ?app_nil_r, <- ?app_assoc; reflexivity
  end.

Lemma forall_chars_In (p : ascii -> bool) (s : string) :
  forall_chars p s = true
  <-> forall c, In c (list_ascii_of_string s) -> p c = true.
Proof.
  induction s as [|a s IH]; simpl; [done|].
  rewrite andb_true_iff, IH. split.
  - intros [Ha Hs] c [<-|Hc]; auto.
  - intros H. split; [apply H; by left | intros c Hc; apply H; by right].
Qed.

Lemma test_id_spec (id : string) :
  test_id id = true
  <-> String.length id = 32%nat
      /\ forall c, In c (list_ascii_of_string id) -> (97 <= code c <= 122)%N.
Proof.
  unfold test_id. rewrite andb_true_iff, Nat.eqb_eq, forall_chars_In.
  unfold is_lower.
  split; intros [Hl Hc]; (split; [done|]); intros c Hin;
    specialize (Hc c Hin).
  - apply andb_true_iff in Hc as [?%N.leb_le ?%N.leb_le]. lia.
  - apply andb_true_iff. split; apply N.leb_le; lia.
Qed.

(** Past validation and the rate limiter, the fetch is issued for the
    identifier as it was given. *)
Lemma Archive_GET_fetches req w :
  test_id (param_id req) = true ->
  (isRateLimited now (callerKey req) (rateMap w)).1 = false ->
  exists rest,
    log (ArchiveRoute.GET fetch now req w).2
    = log w ++ EvRateCheck (callerKey req)
              :: EvFetch (url_for (param_id req)) :: rest.
Proof.
  intros Hid Hlim. run_handler. rewrite Hid. step_handler.
  rewrite replace_first_template.
  destruct (isRateLimited _ _ _) as [limited m'].
  cbn [fst snd] in Hlim. subst limited. step_handler.
  assert (forall l r, l = (log w ++ [EvRateCheck (callerKey req)])
                          ++ [EvFetch (url_for (param_id req))] ++ r ->
            exists rest, l = log w ++ EvRateCheck (callerKey req)
                                   :: EvFetch (url_for (param_id req)) :: rest)
    as Hshape.
  { intros l r ->. exists r. by rewrite <- app_assoc. }
  destruct (fetch _) as [resp|e];
    [|destruct e; shape_with (@nil event)].
  destruct (response_ok resp); step_handler.
  2:{ destruct (NextResponse_json _ _ _) as [r|e]; [|destruct e];
      shape_with (@nil event). }
  destruct (read_body resp) as [buf|e];
    [|destruct e; shape_with [EvReadBody]].
  destruct (MAX_CRX_SIZE <? chunk_len buf);
    [shape_with [EvReadBody]|].
  destruct (stripCrxHeader buf) as [[zip|]|e]; [| |destruct e];
    shape_with [EvReadBody].
Qed.

Lemma Raw_GET_fetches req w :
  test_id (param_id req) = true ->
  (isRateLimited now (callerKey req) (rateMap w)).1 = false ->
  exists rest,
    log (RawRoute.GET fetch now req w).2
    = log w ++ EvRateCheck (callerKey req)
              :: EvFetch (url_for (param_id req)) :: rest.
Proof.
  intros Hid Hlim. run_handler. rewrite Hid. step_handler.
  rewrite replace_first_template.
  destruct (isRateLimited _ _ _) as [limited m'].
  cbn [fst snd] in Hlim. subst limited. step_handler.
  assert (forall l r, l = (log w ++ [EvRateCheck (callerKey req)])
                          ++ [EvFetch (url_for (param_id req))] ++ r ->
            exists rest, l = log w ++ EvRateCheck (callerKey req)
                                   :: EvFetch (url_for (param_id req)) :: rest)
    as Hshape.
  { intros l r ->. exists r. by rewrite <- app_assoc. }
  destruct (fetch _) as [resp|e];
    [|destruct e; shape_with (@nil event)].
  destruct (response_ok resp); step_handler.
  2:{ destruct (NextResponse_json _ _ _) as [r|e]; [|destruct e];
      shape_with (@nil event). }
  destruct (num_gt _ MAX_CRX_SIZE);
    [shape_with (@nil event)|].
  destruct (up_body resp);
    [shape_with [EvReadBody]
    |shape_with (@nil event)].
Qed.

(** C2 (as stated) fails: 32 capital letters are rejected with 400 by both
    endpoints, which leave the store and the log untouched. *)
Lemma uppercase_id_rejected :
  ArchiveRoute.GET upstream_404 0 (sample_request id_upper) (start ∅)
  = (Normal (json_error 400 "Invalid extension ID"), start ∅)
  /\ RawRoute.GET upstream_404 0 (sample_request id_upper) (start ∅)
     = (Normal (json_error 400 "Invalid extension ID"), start ∅).
Proof. split; reflexivity. Qed.

(** C2 (amended): the endpoints test the identifier case-sensitively. It
    passes exactly when it is 32 lowercase letters [a-z]; then the request
    goes on to the rate limiter and, if allowed, the fetch is issued for
    the identifier unchanged. Every other string, among them those with a
    capital letter, is answered 400 "Invalid extension ID" with the store
    untouched and no rate-limit or network effect. *)
Theorem id_validation req w :
  (test_id (param_id req) = true
   <-> String.length (param_id req) = 32%nat
       /\ forall c, In c (list_ascii_of_string (param_id req)) ->
                    (97 <= code c <= 122)%N)
  /\ if test_id (param_id req)
     then (exists rest, log (ArchiveRoute.GET fetch now req w).2
                        = log w ++ EvRateCheck (callerKey req) :: rest)
          /\ (exists rest, log (RawRoute.GET fetch now req w).2
                           = log w ++ EvRateCheck (callerKey req) :: rest)
          /\ ((isRateLimited now (callerKey req) (rateMap w)).1 = false ->
              (exists rest,
                  log (ArchiveRoute.GET fetch now req w).2
                  = log w ++ EvRateCheck (callerKey req)
                            :: EvFetch (url_for (param_id req)) :: rest)
              /\ (exists rest,
                     log (RawRoute.GET fetch now req w).2
                     = log w ++ EvRateCheck (callerKey req)
                               :: EvFetch (url_for (param_id req)) :: rest))
     else ArchiveRoute.GET fetch now req w
          = (Normal (json_error 400 "Invalid extension ID"), w)
          /\ RawRoute.GET fetch now req w
             = (Normal (json_error 400 "Invalid extension ID"), w).
Proof.
  split; [apply test_id_spec|].
  destruct (test_id (param_id req)) eqn:Hid.
  - destruct (Archive_consumes req w Hid) as (_ & _ & _ & ra & Hra & _).
    destruct (Raw_consumes req w Hid) as (_ & _ & _ & rr & Hrr & _).
    split; [by exists ra|]. split; [by exists rr|].
    intros Hlim. split; [by apply Archive_GET_fetches | by apply Raw_GET_fetches].
  - split; [by apply Archive_GET_invalid | by apply Raw_GET_invalid].
Qed.

(** The success path of the archive endpoint: the stripped archive, under
    the sanitized file name. *)
Lemma Archive_GET_success req w resp buf zip :
  reaches_upstream fetch now req w resp ->
  response_ok resp = true ->
  read_body resp = Normal buf ->
  chunk_len buf <= MAX_CRX_SIZE ->
  stripCrxHeader buf = Normal (Some zip) ->
  (ArchiveRoute.GET fetch now req w).1
  = Normal {| status := 200;
              headers :=
                [("Content-Type", "application/zip");
                 ("Content-Disposition",
                  "attachment; filename=" +:+ dquote
                    +:+ zip_filename (or_default (query_name req) EmptyString)
                          (param_id req)
                    +:+ dquote);
                 ("Content-Length", pretty (chunk_len zip));
                 ("Cache-Control", "private, no-store")];
              body := Bytes zip |}.
Proof.
  intros (Hid & Hlim & Hfetch) Hok Hbody Hsize Hstrip.
  enter_handler Hid Hlim Hfetch.
  rewrite Hok. step_handler. rewrite Hbody. step_handler.
  rewrite (proj2 (Z.ltb_ge _ _) Hsize), Hstrip. reflexivity.
Qed.

End HandlerFacts.

(** ** Worked cases *)

Section WorkedCases.

Local Open Scope Z_scope.

(** The declared-length test at the ceiling: 20 971 520 passes, one more
    does not; a missing, empty or unreadable header counts as 0 or NaN. *)
Example declares_too_large_boundary :
  map (fun h => declares_too_large
                  {| up_status := 200; up_content_length := h;
                     up_body := None |})
      [Some "20971520"; Some "20971521"; Some " 30000000"; None;
       Some EmptyString; Some "chunked"]
  = [false; true; true; false; false; false].
Proof. vm_compute. reflexivity. Qed.

(** Three chunks of 2 bytes against a running total: all are handed on. *)
Example pipeThrough_small :
  pipeThrough {| chunks := [[x01; x02]; [x03; x04]; [x05; x06]];
                 stream_end := Closed |}
  = {| chunks := [[x01; x02]; [x03; x04]; [x05; x06]]; stream_end := Closed |}.
Proof. vm_compute. reflexivity. Qed.

(** The fallback of the parser: a bare archive is found where it starts. *)
Example strip_bare_zip :
  stripCrxHeader [x00; x00; x50; x4b; x03; x04; xff]
  = Normal (Some [x50; x4b; x03; x04; xff])
  /\ stripCrxHeader [x00; x01; x02] = Normal None
  /\ stripCrxHeader [] = Normal None.
Proof. repeat split; reflexivity. Qed.

Example archive_small_crx3 :
  (ArchiveRoute.GET upstream_small_crx3 0 (sample_request id_lower)
     (start ∅)).1
  = Normal {| status := 200;
              headers :=
                [("Content-Type", "application/zip");
                 ("Content-Disposition",
                  "attachment; filename=" +:+ dquote
                    +:+ "my-cool-extension-name-aaaaaaaaaaaaaaaaaaaaaaaaaaaaaaaa.zip"
                    +:+ dquote);
                 ("Content-Length", "4");
                 ("Cache-Control", "private, no-store")];
              body := Bytes [x50; x4b; x03; x04] |}.
Proof. vm_compute. reflexivity. Qed.

Example raw_small_crx3 :
  (RawRoute.GET upstream_small_crx3 0 (sample_request id_lower) (start ∅)).1
  = Normal {| status := 200;
              headers :=
                [("Content-Type", "application/x-chrome-extension");
                 ("Content-Disposition",
                  "attachment; filename=" +:+ dquote
                    +:+ "aaaaaaaaaaaaaaaaaaaaaaaaaaaaaaaa.crx" +:+ dquote);
                 ("Cache-Control", "private, no-store");
                 ("Content-Length", "18")];
              body := Piped {| chunks := [crx3 [x0a; x0b] [x50; x4b];
                                          [x03; x04]];
                               stream_end := Closed |} |}.
Proof. vm_compute. reflexivity. Qed.

(** C4 (as stated) fails: an upstream 404 is answered 404, not 502. *)
Lemma upstream_404_answered_404 :
  (ArchiveRoute.GET upstream_404 0 (sample_request id_lower) (start ∅)).1
  = Normal (json_error 404 "Failed to fetch CRX file")
  /\ (RawRoute.GET upstream_404 0 (sample_request id_lower) (start ∅)).1
     = Normal (json_error 404 "Failed to fetch CRX file")
  /\ json_error 404 "Failed to fetch CRX file"
     <> json_error 502 "Failed to fetch CRX file".
Proof. split; [reflexivity|]. split; [reflexivity|discriminate]. Qed.

Lemma upstream_status_propagated_witness :
  ArchiveRoute.GET upstream_404 0 (sample_request id_lower) (start ∅)
  = (Normal (json_error 404 "Failed to fetch CRX file"),
     after_fetch 0 (sample_request id_lower) (start ∅))
  /\ RawRoute.GET upstream_404 0 (sample_request id_lower) (start ∅)
     = (Normal (json_error 404 "Failed to fetch CRX file"),
        after_fetch 0 (sample_request id_lower) (start ∅)).
Proof.
  apply (upstream_status_propagated upstream_404 0 (sample_request id_lower)
           (start ∅)
           {| up_status := 404; up_content_length := None; up_body := None |}).
  - repeat split; reflexivity.
  - reflexivity.
Defined.

Lemma declared_length_cutoff_witness :
  ((RawRoute.GET upstream_declares_30MB 0 (sample_request id_lower)
      (start ∅)).1
   = Normal (json_error 413 "Extension file too large")
   /\ log (RawRoute.GET upstream_declares_30MB 0 (sample_request id_lower)
             (start ∅)).2
      = [EvRateCheck "203.0.113.7"; EvFetch (url_for id_lower)])
  /\ log (ArchiveRoute.GET upstream_declares_30MB 0 (sample_request id_lower)
            (start ∅)).2
     = [EvRateCheck "203.0.113.7"; EvFetch (url_for id_lower); EvReadBody].
Proof.
  set (resp := {| up_status := 200;
                  up_content_length := Some "30000000";
                  up_body := Some {| chunks := [magic];
                                     stream_end := Errored TimeoutError |} |}).
  assert (Hup : reaches_upstream upstream_declares_30MB 0
                  (sample_request id_lower) (start ∅) resp).
  { repeat split; reflexivity. }
  assert (Hok : response_ok resp = true).
  { reflexivity. }
  assert (Hbig : declares_too_large resp = true).
  { vm_compute. reflexivity. }
  exact (let H := declared_length_cutoff upstream_declares_30MB 0
                    (sample_request id_lower) (start ∅) resp Hup Hok in
         conj (proj1 (proj2 H) Hbig) (proj1 (proj2 (proj2 H)))).
Defined.

Lemma quota_consumed_once_witness :
  consumes_one_unit 0 (sample_request id_lower) (start ∅)
    (ArchiveRoute.GET upstream_timeout 0 (sample_request id_lower) (start ∅)).2
  /\ consumes_one_unit 0 (sample_request id_lower) (start ∅)
       (RawRoute.GET upstream_timeout 0 (sample_request id_lower) (start ∅)).2.
Proof.
  apply (quota_consumed_once upstream_timeout 0 (sample_request id_lower)
           (start ∅)).
  reflexivity.
Defined.

End WorkedCases.

(** * Further properties of the code *)

(** ** Container Parser: the fallback scan, failures, what is returned *)

Section ParserMore.

Local Open Scope nat_scope.

(** The loop of the fallback returns the view at the first index of its
    range that carries the signature, and nothing when there is none. *)
Lemma scanZip_Some (buf : list byte) (i n : nat) (zip : list byte) :
  scanZip buf i n = Some zip ->
  exists j, i <= j < i + n
            /\ zip_signature_at buf j = true
            /\ (forall k, i <= k < j -> zip_signature_at buf k = false)
            /\ zip = drop j buf.
Proof.
  revert i. induction n as [|n IH]; intros i; [done|].
  simpl. fold (zip_signature_at buf i).
  destruct (zip_signature_at buf i) eqn:E.
  - intros [= <-]. exists i. unfold subarray. rewrite Nat2N.id.
    repeat split; [lia | lia | done | intros k Hk; lia].
  - intros H. destruct (IH _ H) as (j & Hj & Hsig & Hfirst & ->).
    exists j. repeat split; [lia | lia | done |].
    intros k Hk. destruct (decide (k = i)) as [->|]; [done|].
    apply Hfirst. lia.
Qed.

Lemma scanZip_None (buf : list byte) (i n : nat) :
  scanZip buf i n = None <->
  forall k, i <= k < i + n -> zip_signature_at buf k = false.
Proof.
  revert i. induction n as [|n IH]; intros i.
  - split; [intros _ k Hk; lia | done].
  - simpl. fold (zip_signature_at buf i).
    destruct (zip_signature_at buf i) eqn:E.
    + split; [done|]. intros H. rewrite H in E by lia. done.
    + rewrite IH. split; intros H k Hk.
      * destruct (decide (k = i)) as [->|]; [done|]. apply H. lia.
      * apply H. lia.
Qed.

Lemma zip_signature_in_range (buf : list byte) (j : nat) :
  zip_signature_at buf j = true -> j + 3 < length buf.
Proof.
  unfold zip_signature_at, byteAt_is. intros H.
  apply andb_true_iff in H as [_ H].
  destruct (buf !! (j + 3)) eqn:E; [|done].
  by apply lookup_lt_Some in E.
Qed.

Lemma zip_signature_bytes (buf : list byte) (j : nat) :
  zip_signature_at buf j = true ->
  take 4 (drop j buf) = [x50; x4b; x03; x04].
Proof.
  intros H. pose proof (zip_signature_in_range _ _ H) as Hlen.
  unfold zip_signature_at, byteAt_is in H.
  repeat (apply andb_true_iff in H as [H ?]).
  destruct (buf !! j) as [b0|] eqn:E0; [|done].
  destruct (buf !! (j + 1)) as [b1|] eqn:E1; [|done].
  destruct (buf !! (j + 2)) as [b2|] eqn:E2; [|done].
  destruct (buf !! (j + 3)) as [b3|] eqn:E3; [|done].
  apply Byte.byte_dec_bl in H, H0, H1, H2. subst.
  rewrite <- (take_drop j buf) in E0, E1, E2, E3.
  rewrite lookup_app_r in E0, E1, E2, E3 by (rewrite length_take; lia).
  rewrite length_take in E0, E1, E2, E3.
  replace (j - j `min` length buf) with 0 in E0 by lia.
  replace (j + 1 - j `min` length buf) with 1 in E1 by lia.
  replace (j + 2 - j `min` length buf) with 2 in E2 by lia.
  replace (j + 3 - j `min` length buf) with 3 in E3 by lia.
  destruct (drop j buf) as [|c0 [|c1 [|c2 [|c3 rest]]]]; simplify_eq/=.
  done.
Qed.

(** X1: on a buffer that does not start with the magic the parser never
    throws; it returns the view that starts at the first ZIP signature
    found at an index below [min(byteLength, 1024)], and [null] exactly when
    no index of that window carries the signature. *)
Theorem strip_fallback_first_signature (buf : list byte) :
  has_magic buf = false ->
  match stripCrxHeader buf with
  | Normal (Some zip) =>
      exists j, j < 1024
                /\ zip = drop j buf
                /\ take 4 zip = [x50; x4b; x03; x04]
                /\ forall k, k < j -> zip_signature_at buf k = false
  | Normal None =>
      forall k, k < length buf `min` 1024 -> zip_signature_at buf k = false
  | Throw _ => False
  end.
Proof.
  intros Hm. unfold stripCrxHeader. fold (has_magic buf). rewrite Hm.
  destruct (scanZip buf 0 (length buf `min` 1024)) as [zip|] eqn:E.
  - apply scanZip_Some in E as (j & Hj & Hsig & Hfirst & ->).
    exists j. split; [lia|]. split; [done|].
    split; [by apply zip_signature_bytes|].
    intros k Hk. apply Hfirst. lia.
  - intros k Hk. eapply scanZip_None; [exact E | lia].
Qed.

Lemma strip_fallback_first_signature_witness :
  match stripCrxHeader [x00; x50; x4b; x03; x04; x50; x4b; x03; x04] with
  | Normal (Some zip) =>
      exists j, j < 1024
                /\ zip = drop j [x00; x50; x4b; x03; x04; x50; x4b; x03; x04]
                /\ take 4 zip = [x50; x4b; x03; x04]
                /\ forall k, k < j ->
                     zip_signature_at
                       [x00; x50; x4b; x03; x04; x50; x4b; x03; x04] k = false
  | Normal None =>
      forall k, k < length [x00; x50; x4b; x03; x04; x50; x4b; x03; x04]
                    `min` 1024 ->
        zip_signature_at [x00; x50; x4b; x03; x04; x50; x4b; x03; x04] k = false
  | Throw _ => False
  end.
Proof.
  apply (strip_fallback_first_signature
           [x00; x50; x4b; x03; x04; x50; x4b; x03; x04]).
  reflexivity.
Defined.

Lemma sliceFrom_suffix (buf : list byte) (off : N) (zip : list byte) :
  sliceFrom buf off = Some zip ->
  zip <> [] /\ exists pre, buf = pre ++ zip.
Proof.
  unfold sliceFrom, subarray, byteLength.
  destruct (N.ltb_spec off (N.of_nat (length buf))) as [Hlt|]; [|done].
  intros [= <-]. split.
  - intros H. apply (f_equal length) in H. rewrite length_drop in H.
    simpl in H. lia.
  - exists (take (N.to_nat off) buf). by rewrite take_drop.
Qed.

Lemma strip_suffix (buf zip : list byte) :
  stripCrxHeader buf = Normal (Some zip) ->
  zip <> [] /\ exists pre, buf = pre ++ zip.
Proof.
  unfold stripCrxHeader. fold (has_magic buf).
  destruct (has_magic buf).
  - destruct (getUint32 buf 4) as [v|]; [|done]. simpl.
    destruct (v =? 3)%N.
    { destruct (getUint32 buf 8) as [h|]; [|done]. simpl.
      intros [= H]. by apply sliceFrom_suffix in H. }
    destruct (v =? 2)%N; [|done].
    destruct (getUint32 buf 8) as [p|]; [|done]. simpl.
    destruct (getUint32 buf 12) as [g|]; [|done]. simpl.
    intros [= H]. by apply sliceFrom_suffix in H.
  - intros [= H]. apply scanZip_Some in H as (j & Hj & Hsig & _ & ->).
    apply zip_signature_in_range in Hsig. split.
    + intros H. apply (f_equal length) in H. rewrite length_drop in H.
      simpl in H. lia.
    + exists (take j buf). by rewrite take_drop.
Qed.

(** X2: whatever the parser returns is a non-empty suffix of the buffer:
    it never returns an empty archive and never changes or drops a byte
    after the offset it chose. *)
Theorem strip_result_is_suffix (buf zip : list byte) :
  stripCrxHeader buf = Normal (Some zip) ->
  zip <> [] /\ exists pre, buf = pre ++ zip.
Proof. apply strip_suffix. Qed.

Lemma strip_result_is_suffix_witness :
  [x50; x4b; x03; x04] <> []
  /\ exists pre, crx3 [xaa; xbb] [x50; x4b; x03; x04]
                 = pre ++ [x50; x4b; x03; x04].
Proof.
  apply (strip_result_is_suffix (crx3 [xaa; xbb] [x50; x4b; x03; x04])).
  reflexivity.
Defined.

Lemma getUint32_throws_RangeError (buf : list byte) (off : nat) (e : exn) :
  getUint32 buf off = Throw e -> e = RangeError.
Proof. unfold getUint32. repeat case_match; congruence. Qed.

Lemma strip_throws_RangeError (buf : list byte) (e : exn) :
  stripCrxHeader buf = Throw e -> e = RangeError.
Proof.
  unfold stripCrxHeader. destruct (_ && _); [|done].
  destruct (getUint32 buf 4) as [v|e4] eqn:E4; simpl;
    [|intros [= <-]; by eapply getUint32_throws_RangeError].
  destruct (v =? 3)%N.
  { destruct (getUint32 buf 8) as [h|e8] eqn:E8; simpl; [done|].
    intros [= <-]. by eapply getUint32_throws_RangeError. }
  destruct (v =? 2)%N; [|done].
  destruct (getUint32 buf 8) as [p|e8] eqn:E8; simpl;
    [|intros [= <-]; by eapply getUint32_throws_RangeError].
  destruct (getUint32 buf 12) as [g|e12] eqn:E12; simpl; [done|].
  intros [= <-]. by eapply getUint32_throws_RangeError.
Qed.

(** X3: the parser throws exactly on the buffers that start with the magic
    and end before a header field it reads: fewer than 8 bytes, version 3
    with fewer than 12, or version 2 with fewer than 16; what it throws is
    always the [RangeError] of the [DataView]. *)
Theorem strip_throws_iff (buf : list byte) (e : exn) :
  stripCrxHeader buf = Throw e <->
  e = RangeError
  /\ has_magic buf = true
  /\ (length buf < 8
      \/ (getUint32 buf 4 = Normal 3%N /\ length buf < 12)
      \/ (getUint32 buf 4 = Normal 2%N /\ length buf < 16)).
Proof.
  unfold stripCrxHeader. fold (has_magic buf).
  destruct (has_magic buf);
    [|split; [done | by intros (_ & ? & _)]].
  destruct (Nat.lt_ge_cases (length buf) 8) as [H8|H8].
  { rewrite (getUint32_out_of_bounds buf 4) by lia. simpl.
    split; [intros [= <-]; split_and!; by auto | by intros (-> & _)]. }
  destruct (getUint32_in_bounds buf 4) as [v Hv]; [lia|].
  rewrite Hv. simpl.
  destruct (N.eqb_spec v 3) as [->|Hv3].
  { destruct (Nat.lt_ge_cases (length buf) 12) as [H12|H12].
    - rewrite (getUint32_out_of_bounds buf 8) by lia. simpl.
      split; [intros [= <-]; split_and!; by auto | by intros (-> & _)].
    - destruct (getUint32_in_bounds buf 8) as [h ->]; [lia|]. simpl.
      split; [done|]. intros (_ & _ & [?|[[_ ?]|[[=] _]]]); lia. }
  destruct (N.eqb_spec v 2) as [->|Hv2].
  { destruct (Nat.lt_ge_cases (length buf) 16) as [H16|H16].
    - rewrite (getUint32_out_of_bounds buf 12) by lia.
      assert ((getUint32 buf 8 ≫= λ pkLen : N,
                 Throw RangeError ≫= λ sigLen : N,
                   Normal (sliceFrom buf (16 + pkLen + sigLen)%N))
              = Throw RangeError) as ->.
      { destruct (Nat.lt_ge_cases (length buf) 12).
        - by rewrite (getUint32_out_of_bounds buf 8) by lia.
        - by destruct (getUint32_in_bounds buf 8) as [p ->]; [lia|]. }
      split; [intros [= <-]; split_and!; by auto | by intros (-> & _)].
    - destruct (getUint32_in_bounds buf 8) as [p ->]; [lia|].
      destruct (getUint32_in_bounds buf 12) as [g ->]; [lia|]. simpl.
      split; [done|]. intros (_ & _ & [?|[[[=] _]|[_ ?]]]); lia. }
  split; [done|].
  intros (_ & _ & [?|[[[= ?] _]|[[= ?] _]]]); [lia | done | done].
Qed.

(** X4: a version-3 container cut short is refused: when the declared
    header length reaches the end of the buffer or goes beyond it, the
    parser returns [null], whatever bytes follow the length field. *)
Theorem strip_truncated_crx3 (n : N) (rest : list byte) :
  (n < 4294967296)%N ->
  (byteLength rest <= n)%N ->
  stripCrxHeader (magic ++ LE32 3 ++ LE32 n ++ rest) = Normal None.
Proof.
  intros Hn Hrest. rewrite LE32_3. unfold LE32.
  rewrite strip_v3_shape, (LE32_value _ Hn). f_equal.
  unfold sliceFrom. replace (_ <? _)%N with false; [done|].
  symmetry. apply N.ltb_ge. unfold byteLength in *.
  rewrite !length_app. simpl length. lia.
Qed.

Lemma strip_truncated_crx3_witness :
  stripCrxHeader (magic ++ LE32 3 ++ LE32 4096 ++ [x50; x4b; x03; x04])
  = Normal None.
Proof.
  apply (strip_truncated_crx3 4096 [x50; x4b; x03; x04]); reflexivity || done.
Defined.

End ParserMore.

(** ** Rate Limiter: the sweep, independence of keys, reachable stores *)

Section RateLimiterMore.

Local Open Scope Z_scope.

Implicit Types (m : gmap string entry) (ip : string) (e : entry).

Lemma sweep_lookup now ip m :
  sweep now m !! ip
  = match m !! ip with
    | Some e => if resetAt e <? now then None else Some e
    | None => None
    end.
Proof.
  unfold sweep. destruct (m !! ip) as [e|] eqn:E.
  - destruct (Z.ltb_spec (resetAt e) now) as [Hlt|Hge].
    + apply map_lookup_filter_None. right. intros e' He'. simpl.
      rewrite E in He'. injection He' as <-. lia.
    + apply map_lookup_filter_Some. split; [done|]. simpl. lia.
  - apply map_lookup_filter_None. by left.
Qed.

Lemma swept_view_later t t' m1 m2 :
  t <= t' -> swept_view t m1 m2 -> swept_view t' m1 m2.
Proof.
  intros Hle H ip. destruct (H ip) as [?|(? & e & ? & ?)]; [by left|].
  right. split; [done|]. exists e. split; [done|lia].
Qed.

(** A sweep on the left keeps the view, at the time of the sweep. *)
Lemma swept_view_sweep t now m1 m2 :
  t <= now -> swept_view t m1 m2 -> swept_view now (sweep now m1) m2.
Proof.
  intros Hle H ip. rewrite sweep_lookup.
  destruct (H ip) as [Heq|(Hn & e & He & Hexp)].
  - rewrite Heq. destruct (m2 !! ip) as [e|] eqn:E; [|by left].
    destruct (Z.ltb_spec (resetAt e) now); [|by left].
    right. split; [done|]. by exists e.
  - rewrite Hn. right. split; [done|]. exists e. split; [done|lia].
Qed.

(** A check no earlier than the time of the view answers the same on both
    sides and keeps the view. *)
Lemma swept_view_check t now ip m1 m2 :
  t <= now -> swept_view t m1 m2 ->
  (isRateLimited now ip m1).1 = (isRateLimited now ip m2).1
  /\ swept_view t (isRateLimited now ip m1).2 (isRateLimited now ip m2).2.
Proof.
  intros Hle H. destruct (H ip) as [Heq|(Hn & e & He & Hexp)].
  - split.
    + unfold isRateLimited. rewrite Heq.
      destruct (m2 !! ip) as [e|]; [destruct (resetAt e <? now)|]; done.
    + intros ip'. destruct (decide (ip = ip')) as [<-|Hne].
      * left. rewrite !isRateLimited_entry. by rewrite Heq.
      * rewrite !isRateLimited_other by done. apply H.
  - assert (isRateLimited now ip m1
            = (false, <[ip := {| count := 1;
                                 resetAt := now + RATE_WINDOW_MS |}]> m1)) as E1.
    { apply isRateLimited_fresh. by rewrite Hn. }
    assert (isRateLimited now ip m2
            = (false, <[ip := {| count := 1;
                                 resetAt := now + RATE_WINDOW_MS |}]> m2)) as E2.
    { apply isRateLimited_fresh. rewrite He. lia. }
    rewrite E1, E2. split; [done|]. simpl.
    intros ip'. destruct (decide (ip = ip')) as [<-|Hne].
    + left. by rewrite !lookup_insert_eq.
    + rewrite !lookup_insert_ne by done. apply H.
Qed.

Lemma answers_swept_view (os : list op) t m1 m2 :
  swept_view t m1 m2 -> clock_from t os ->
  answers os m1 = answers (checks_only os) m2.
Proof.
  revert t m1 m2. induction os as [|[now ip|now] os IH];
    intros t m1 m2 Hv Hclock; [done| |]; simpl in *.
  - destruct Hclock as [Hle Hclock].
    destruct (swept_view_check t now ip m1 m2 Hle Hv) as [-> Hv'].
    f_equal. apply (IH now); [|done].
    by apply (swept_view_later t).
  - destruct Hclock as [Hle Hclock].
    apply (IH now); [|done]. by apply (swept_view_sweep t).
Qed.

(** X5: the periodic sweep is invisible to callers: along any sequence of
    checks and sweeps whose clock readings do not go back, every check
    gets the answer it would get if no sweep had run at all. *)
Theorem sweep_never_changes_an_answer (os : list op) (t : Z) m :
  clock_from t os ->
  answers os m = answers (checks_only os) m.
Proof.
  intros Hclock. apply (answers_swept_view os t); [|done].
  intros ip. by left.
Qed.

Lemma sweep_never_changes_an_answer_witness :
  let m : gmap string entry := {[ "10.0.0.1" := {| count := 5; resetAt := 100 |} ]} in
  answers [OpCheck 50 "10.0.0.1"; OpSweep 120; OpCheck 130 "10.0.0.1";
           OpSweep 140; OpCheck 150 "10.0.0.2"] m
  = answers [OpCheck 50 "10.0.0.1"; OpCheck 130 "10.0.0.1";
             OpCheck 150 "10.0.0.2"] m.
Proof.
  intros m.
  apply (sweep_never_changes_an_answer
           [OpCheck 50 "10.0.0.1"; OpSweep 120; OpCheck 130 "10.0.0.1";
            OpSweep 140; OpCheck 150 "10.0.0.2"] 0 m).
  simpl. lia.
Defined.

(** X6: checks of two different caller keys do not interfere: run in
    either order they return the same answers and leave the same store. *)
Theorem checks_of_distinct_keys_commute m ip1 ip2 (t1 t2 : Z) :
  ip1 <> ip2 ->
  (isRateLimited t1 ip1 m).1
  = (isRateLimited t1 ip1 (isRateLimited t2 ip2 m).2).1
  /\ (isRateLimited t2 ip2 m).1
     = (isRateLimited t2 ip2 (isRateLimited t1 ip1 m).2).1
  /\ (isRateLimited t2 ip2 (isRateLimited t1 ip1 m).2).2
     = (isRateLimited t1 ip1 (isRateLimited t2 ip2 m).2).2.
Proof.
  intros Hne.
  assert (forall a b ta tb m0, a <> b ->
            isRateLimited ta a (isRateLimited tb b m0).2
            = ((isRateLimited ta a m0).1,
               <[a := checked_entry ta (m0 !! a)]> (isRateLimited tb b m0).2))
    as Hstep.
  { intros a b ta tb m0 Hab. unfold isRateLimited at 1.
    rewrite isRateLimited_other by done. unfold isRateLimited, checked_entry.
    destruct (m0 !! a) as [e|]; [destruct (resetAt e <? ta)|]; done. }
  assert (forall a ta m0,
            (isRateLimited ta a m0).2 = <[a := checked_entry ta (m0 !! a)]> m0)
    as Hsnd.
  { intros a ta m0. unfold isRateLimited, checked_entry.
    destruct (m0 !! a) as [e|]; [destruct (resetAt e <? ta)|]; done. }
  rewrite (Hstep ip1 ip2) by done. rewrite (Hstep ip2 ip1) by done.
  split; [done|]. split; [done|]. simpl.
  rewrite (Hsnd ip1 t1 m), (Hsnd ip2 t2 m).
  by apply insert_insert_ne.
Qed.

Lemma checks_of_distinct_keys_commute_witness :
  (isRateLimited 10 "10.0.0.1" ∅).1
  = (isRateLimited 10 "10.0.0.1" (isRateLimited 20 "10.0.0.2" ∅).2).1
  /\ (isRateLimited 20 "10.0.0.2" ∅).1
     = (isRateLimited 20 "10.0.0.2" (isRateLimited 10 "10.0.0.1" ∅).2).1
  /\ (isRateLimited 20 "10.0.0.2" (isRateLimited 10 "10.0.0.1" ∅).2).2
     = (isRateLimited 10 "10.0.0.1" (isRateLimited 20 "10.0.0.2" ∅).2).2.
Proof.
  apply (checks_of_distinct_keys_commute ∅ "10.0.0.1" "10.0.0.2" 10 20).
  discriminate.
Defined.

(** One operation no later than [T] keeps every entry well formed. *)
Lemma run_op_entries_bounded (T : Z) (o : op) m :
  op_time o <= T ->
  (forall ip e, m !! ip = Some e ->
                1 <= count e /\ resetAt e <= T + RATE_WINDOW_MS) ->
  forall ip e, run_op o m !! ip = Some e ->
               1 <= count e /\ resetAt e <= T + RATE_WINDOW_MS.
Proof.
  intros Ho Hm ip e. destruct o as [now ip'|now]; simpl in *.
  - destruct (decide (ip' = ip)) as [->|Hne].
    + rewrite isRateLimited_entry. intros [= <-].
      destruct (m !! ip) as [e0|] eqn:E; [|simpl; lia].
      destruct (Hm _ _ E). destruct (resetAt e0 <? now); simpl; lia.
    + rewrite isRateLimited_other by done. apply Hm.
  - rewrite sweep_lookup. destruct (m !! ip) as [e0|] eqn:E; [|done].
    destruct (resetAt e0 <? now); [done|]. intros [= <-]. by apply (Hm ip).
Qed.

Lemma run_ops_entries_bounded (T : Z) (os : list op) m :
  Forall (fun o => op_time o <= T) os ->
  (forall ip e, m !! ip = Some e ->
                1 <= count e /\ resetAt e <= T + RATE_WINDOW_MS) ->
  forall ip e, run_ops os m !! ip = Some e ->
               1 <= count e /\ resetAt e <= T + RATE_WINDOW_MS.
Proof.
  revert m. induction os as [|o os IH]; intros m Hos Hm; [done|].
  apply Forall_cons in Hos as [Ho Hos]. unfold run_ops. simpl.
  apply IH; [done|]. by apply run_op_entries_bounded.
Qed.

(** X7: in every store reached from the empty one, each entry has a count
    of at least 1 and a reset time at most one window after the latest
    operation; so a sweep that comes more than one window after the last
    operation leaves the store empty. *)
Theorem idle_store_is_swept_empty (T t : Z) (os : list op) :
  Forall (fun o => op_time o <= T) os ->
  T + RATE_WINDOW_MS < t ->
  (forall ip e, run_ops os ∅ !! ip = Some e ->
                1 <= count e /\ resetAt e <= T + RATE_WINDOW_MS)
  /\ sweep t (run_ops os ∅) = ∅.
Proof.
  intros Hos Ht.
  assert (forall ip e, run_ops os ∅ !! ip = Some e ->
                       1 <= count e /\ resetAt e <= T + RATE_WINDOW_MS) as Hinv.
  { apply run_ops_entries_bounded; [done|]. intros ip e. by rewrite lookup_empty. }
  split; [done|]. apply map_eq. intros ip.
  rewrite sweep_lookup, lookup_empty.
  destruct (run_ops os ∅ !! ip) as [e|] eqn:E; [|done].
  destruct (Hinv _ _ E) as [_ Hr].
  by rewrite (proj2 (Z.ltb_lt _ _)) by lia.
Qed.

Lemma idle_store_is_swept_empty_witness :
  sweep 70000
    (run_ops [OpCheck 10 "10.0.0.1"; OpCheck 20 "10.0.0.2"; OpSweep 30;
              OpCheck 40 "10.0.0.1"] ∅) = ∅.
Proof.
  refine (proj2 (idle_store_is_swept_empty 40 70000
                   [OpCheck 10 "10.0.0.1"; OpCheck 20 "10.0.0.2"; OpSweep 30;
                    OpCheck 40 "10.0.0.1"] _ _)).
  - repeat constructor; simpl; lia.
  - unfold RATE_WINDOW_MS. lia.
Defined.

End RateLimiterMore.

(** ** The handlers: every path to an answer *)

Section HandlersMore.

Local Open Scope Z_scope.

Variable fetch : string -> completion upstream_response.
Variable now : Z.

Implicit Types (req : request) (w : world) (m : gmap string entry).

Lemma pipeThrough_bounded (up : stream) :
  stream_bytes (chunks (pipeThrough up)) <= MAX_CRX_SIZE.
Proof.
  pose proof (feed_init_spec (chunks up)) as H.
  unfold pipeThrough. cbn [chunks].
  destruct (MAX_CRX_SIZE <? stream_bytes (chunks up)) eqn:E.
  - destruct H as (k & c & _ & Hle & _ & -> & _). done.
  - destruct H as [-> _]. by apply Z.ltb_ge in E.
Qed.

Ltac step := cbn beta iota zeta delta [rateMap log fst snd negb].

Ltac open_handler :=
  unfold ArchiveRoute.GET, RawRoute.GET;
  unfold arrayBuffer, do_fetch, on_error;
  unfold mbind, M_bind, rateLimit, try_catch, emit, lift, mret, M_ret;
  step; rewrite ?replace_first_template.

Lemma NextResponse_json_Normal (error : string) (st : Z) hs r :
  NextResponse_json error st hs = Normal r ->
  r = {| status := st; headers := hs; body := Json error |}
  /\ json_status_ok st = true.
Proof.
  unfold NextResponse_json, json_status_ok.
  destruct ((st <? 200) || (599 <? st)); [done|].
  destruct (null_body_status st); [done|]. by intros [= <-].
Qed.

(** The message of the [catch] clause. *)
Lemma on_error_answer (err : exn) w :
  on_error err w
  = (Normal (json_error 502 match err with
                            | TimeoutError => "Upstream request timed out"
                            | _ => "Failed to download CRX file"
                            end), w).
Proof. by destruct err. Qed.

Ltac fixed_status :=
  step; eexists; split; [reflexivity | left; simpl; tauto].

(** X8: neither handler ever throws: every request gets a response, and
    its status is 200, 400, 413, 429 or 502, or else the status of an
    upstream response that was not [ok]. *)
Theorem GET_always_answers req w :
  (exists r, (ArchiveRoute.GET fetch now req w).1 = Normal r
             /\ (In (status r) [200; 400; 413; 429; 502]
                 \/ exists resp, fetch (url_for (param_id req)) = Normal resp
                                 /\ response_ok resp = false
                                 /\ status r = up_status resp))
  /\ (exists r, (RawRoute.GET fetch now req w).1 = Normal r
                /\ (In (status r) [200; 400; 413; 429; 502]
                    \/ exists resp, fetch (url_for (param_id req)) = Normal resp
                                    /\ response_ok resp = false
                                    /\ status r = up_status resp)).
Proof.
  split.
  - open_handler. destruct (test_id (param_id req)); step; [|fixed_status].
    destruct (isRateLimited _ _ _) as [[] m']; step; [fixed_status|].
    destruct (fetch _) as [resp|e] eqn:Ef; step; [|destruct e; fixed_status].
    destruct (response_ok resp) eqn:Eok; step.
    2:{ destruct (NextResponse_json _ _ _) as [r|e] eqn:Ej; step.
        - apply NextResponse_json_Normal in Ej as [-> _].
          eexists. split; [reflexivity|]. right. by exists resp.
        - destruct e; fixed_status. }
    destruct (read_body resp) as [buf|e]; step; [|destruct e; fixed_status].
    destruct (MAX_CRX_SIZE <? chunk_len buf); [fixed_status|].
    destruct (stripCrxHeader buf) as [[zip|]|e]; step; [| |destruct e];
      fixed_status.
  - open_handler. destruct (test_id (param_id req)); step; [|fixed_status].
    destruct (isRateLimited _ _ _) as [[] m']; step; [fixed_status|].
    destruct (fetch _) as [resp|e] eqn:Ef; step; [|destruct e; fixed_status].
    destruct (response_ok resp) eqn:Eok; step.
    2:{ destruct (NextResponse_json _ _ _) as [r|e] eqn:Ej; step.
        - apply NextResponse_json_Normal in Ej as [-> _].
          eexists. split; [reflexivity|]. right. by exists resp.
        - destruct e; fixed_status. }
    destruct (num_gt _ MAX_CRX_SIZE); [fixed_status|].
    destruct (up_body resp); step; fixed_status.
Qed.

(** X9: a throttled request is answered 429 with [Retry-After: 60]; the
    rate check is its only effect: no fetch is issued, and the check it
    made stays in the store. *)
Theorem throttled_request_stops req w :
  test_id (param_id req) = true ->
  (isRateLimited now (callerKey req) (rateMap w)).1 = true ->
  ArchiveRoute.GET fetch now req w
  = (Normal {| status := 429; headers := [("Retry-After", "60")];
               body := Json "Too many requests. Try again in a minute." |},
     {| rateMap := (isRateLimited now (callerKey req) (rateMap w)).2;
        log := log w ++ [EvRateCheck (callerKey req)] |})
  /\ RawRoute.GET fetch now req w
     = (Normal {| status := 429; headers := [("Retry-After", "60")];
                  body := Json "Too many requests. Try again in a minute." |},
        {| rateMap := (isRateLimited now (callerKey req) (rateMap w)).2;
           log := log w ++ [EvRateCheck (callerKey req)] |}).
Proof.
  intros Hid Hlim. split.
  - by rewrite (Archive_GET_limited fetch now req w Hid Hlim).
  - by rewrite (Raw_GET_limited fetch now req w Hid Hlim).
Qed.

(** X10: when the fetch itself is rejected, both endpoints answer 502
    without reading anything; a [TimeoutError] gets the message "Upstream
    request timed out", every other error "Failed to download CRX file". *)
Theorem fetch_rejection_answered_502 req w (e : exn) :
  test_id (param_id req) = true ->
  (isRateLimited now (callerKey req) (rateMap w)).1 = false ->
  fetch (url_for (param_id req)) = Throw e ->
  ArchiveRoute.GET fetch now req w
  = (Normal (json_error 502 match e with
                            | TimeoutError => "Upstream request timed out"
                            | _ => "Failed to download CRX file"
                            end),
     after_fetch now req w)
  /\ RawRoute.GET fetch now req w
     = (Normal (json_error 502 match e with
                               | TimeoutError => "Upstream request timed out"
                               | _ => "Failed to download CRX file"
                               end),
        after_fetch now req w).
Proof.
  intros Hid Hlim Hf. unfold after_fetch, after_check. split.
  - open_handler. rewrite Hid. step.
    destruct (isRateLimited _ _ _) as [limited m']. cbn [fst snd] in *.
    subst limited. step. rewrite Hf. by destruct e.
  - open_handler. rewrite Hid. step.
    destruct (isRateLimited _ _ _) as [limited m']. cbn [fst snd] in *.
    subst limited. step. rewrite Hf. by destruct e.
Qed.

Ltac enter Hid Hlim Hfetch :=
  open_handler; rewrite Hid; step;
  unfold after_fetch, after_check;
  destruct (isRateLimited _ _ _) as [limited m'];
  cbn [fst snd] in Hlim |- *; subst limited; step;
  rewrite Hfetch; step.

(** X11: on the archive endpoint an [ok] response whose body cannot be
    read to its end is answered 502, with the time-out message when the
    read hit the deadline. *)
Theorem archive_body_read_failure req w resp (e : exn) :
  reaches_upstream fetch now req w resp ->
  response_ok resp = true ->
  read_body resp = Throw e ->
  (ArchiveRoute.GET fetch now req w).1
  = Normal (json_error 502 match e with
                           | TimeoutError => "Upstream request timed out"
                           | _ => "Failed to download CRX file"
                           end).
Proof.
  intros (Hid & Hlim & Hfetch) Hok Hbody. enter Hid Hlim Hfetch.
  rewrite Hok. step. rewrite Hbody. by destruct e.
Qed.

(** X12: on the archive endpoint a body within the ceiling that the
    parser refuses is answered 502 "Could not parse CRX file"; a body on
    which the parser throws is answered 502 too, but with the message of a
    failed download. *)
Theorem archive_parse_failure req w resp (buf : list byte) :
  reaches_upstream fetch now req w resp ->
  response_ok resp = true ->
  read_body resp = Normal buf ->
  chunk_len buf <= MAX_CRX_SIZE ->
  match stripCrxHeader buf with
  | Normal None =>
      (ArchiveRoute.GET fetch now req w).1
      = Normal (json_error 502 "Could not parse CRX file — invalid format")
  | Throw _ =>
      (ArchiveRoute.GET fetch now req w).1
      = Normal (json_error 502 "Failed to download CRX file")
  | Normal (Some _) =>
      exists r, (ArchiveRoute.GET fetch now req w).1 = Normal r
                /\ status r = 200
  end.
Proof.
  intros (Hid & Hlim & Hfetch) Hok Hbody Hsize. enter Hid Hlim Hfetch.
  rewrite Hok. step. rewrite Hbody. step.
  rewrite (proj2 (Z.ltb_ge _ _) Hsize).
  pose proof (strip_throws_RangeError buf) as Hthrow.
  destruct (stripCrxHeader buf) as [[zip|]|e]; step; [by eexists|done|].
  by rewrite (Hthrow e eq_refl).
Qed.

(** X13: every archive the archive endpoint serves is a non-empty tail of
    an upstream body of at most 20 MiB, read to its end from an [ok]
    response; it goes out with status 200, as [application/zip], with its
    own length as Content-Length, never cached. *)
Theorem served_archive_comes_from_upstream req w r (zip : list byte) :
  (ArchiveRoute.GET fetch now req w).1 = Normal r ->
  body r = Bytes zip ->
  status r = 200
  /\ zip <> []
  /\ chunk_len zip <= MAX_CRX_SIZE
  /\ In ("Content-Type", "application/zip") (headers r)
  /\ In ("Content-Length", pretty (chunk_len zip)) (headers r)
  /\ In ("Cache-Control", "private, no-store") (headers r)
  /\ exists resp buf pre,
       fetch (url_for (param_id req)) = Normal resp
       /\ response_ok resp = true
       /\ read_body resp = Normal buf
       /\ chunk_len buf <= MAX_CRX_SIZE
       /\ buf = pre ++ zip.
Proof.
  open_handler. destruct (test_id (param_id req)); step;
    [|by intros [= <-]].
  destruct (isRateLimited _ _ _) as [[] m']; step; [by intros [= <-]|].
  destruct (fetch _) as [resp|e] eqn:Ef; step;
    [|destruct e; by intros [= <-]].
  destruct (response_ok resp) eqn:Eok; step.
  2:{ destruct (NextResponse_json _ _ _) as [r'|e] eqn:Ej; step.
      - apply NextResponse_json_Normal in Ej as [-> _]. by intros [= <-].
      - destruct e; by intros [= <-]. }
  destruct (read_body resp) as [buf|e] eqn:Eb; step;
    [|destruct e; by intros [= <-]].
  destruct (Z.ltb_spec MAX_CRX_SIZE (chunk_len buf)) as [|Hsize];
    [by intros [= <-]|].
  destruct (stripCrxHeader buf) as [[zip'|]|e] eqn:Es; step;
    [|by intros [= <-]|destruct e; by intros [= <-]].
  intros [= <-]. simpl. intros [= <-].
  destruct (strip_suffix _ _ Es) as [Hne [pre Hpre]].
  assert (chunk_len zip' <= chunk_len buf) as Hle.
  { rewrite Hpre. unfold chunk_len. rewrite length_app. lia. }
  split; [done|]. split; [done|]. split; [lia|].
  split; [by left|]. split; [right; right; by left|].
  split; [right; right; right; by left|].
  by exists resp, buf, pre.
Qed.

(** X14: every stream the raw endpoint serves is the upstream body of an
    [ok] response piped through the limiter, so it carries at most 20 MiB;
    it goes out with status 200 as a Chrome extension named after the
    identifier; a Content-Length is sent only when the upstream declared a
    positive one, which is then at most 20 MiB and echoed in decimal. *)
Theorem served_stream_comes_from_upstream req w r (s : stream) :
  (RawRoute.GET fetch now req w).1 = Normal r ->
  body r = Piped s ->
  status r = 200
  /\ stream_bytes (chunks s) <= MAX_CRX_SIZE
  /\ In ("Content-Type", "application/x-chrome-extension") (headers r)
  /\ In ("Content-Disposition",
         "attachment; filename=" +:+ dquote +:+ param_id req +:+ ".crx"
           +:+ dquote) (headers r)
  /\ In ("Cache-Control", "private, no-store") (headers r)
  /\ exists resp up,
       fetch (url_for (param_id req)) = Normal resp
       /\ response_ok resp = true
       /\ up_body resp = Some up
       /\ s = pipeThrough up
       /\ forall v, In ("Content-Length", v) (headers r) ->
            exists n, parseInt (or_default (up_content_length resp) "0")
                      = Some n
                      /\ 0 < n <= MAX_CRX_SIZE /\ v = pretty n.
Proof.
  open_handler. destruct (test_id (param_id req)); step;
    [|by intros [= <-]].
  destruct (isRateLimited _ _ _) as [[] m']; step; [by intros [= <-]|].
  destruct (fetch _) as [resp|e] eqn:Ef; step;
    [|destruct e; by intros [= <-]].
  destruct (response_ok resp) eqn:Eok; step.
  2:{ destruct (NextResponse_json _ _ _) as [r'|e] eqn:Ej; step.
      - apply NextResponse_json_Normal in Ej as [-> _]. by intros [= <-].
      - destruct e; by intros [= <-]. }
  destruct (num_gt _ MAX_CRX_SIZE) eqn:Ebig; [by intros [= <-]|].
  destruct (up_body resp) as [up|] eqn:Eup; step; [|by intros [= <-]].
  intros [= <-]. cbn [body status headers]. intros [= <-].
  split; [done|]. split; [apply pipeThrough_bounded|].
  split; [by left|]. split; [right; by left|]. split; [right; right; by left|].
  exists resp, up. do 4 (split; [done|]).
  intros v Hv.
  destruct Hv as [Hv|[Hv|[Hv|Hv]]]; [by simplify_eq..|].
  destruct (parseInt _) as [n|]; [|by destruct Hv].
  simpl in Ebig, Hv. destruct (Z.ltb_spec 0 n) as [Hpos|]; [|by destruct Hv].
  destruct Hv as [[= <-]|[]]. exists n. split; [done|].
  apply Z.ltb_ge in Ebig. done.
Qed.

End HandlersMore.

Section HandlerCases.

Local Open Scope Z_scope.

Lemma throttled_request_stops_witness :
  (ArchiveRoute.GET upstream_404 50 (sample_request id_lower)
     (start {[ "203.0.113.7" := {| count := 5; resetAt := 100 |} ]})).1
  = Normal {| status := 429; headers := [("Retry-After", "60")];
              body := Json "Too many requests. Try again in a minute." |}.
Proof.
  refine (f_equal fst
            (proj1 (throttled_request_stops upstream_404 50
                      (sample_request id_lower)
                      (start {[ "203.0.113.7" := {| count := 5; resetAt := 100 |} ]})
                      _ _))).
  - reflexivity.
  - vm_compute. reflexivity.
Defined.

Lemma fetch_rejection_answered_502_witness :
  (ArchiveRoute.GET upstream_timeout 0 (sample_request id_lower) (start ∅)).1
  = Normal (json_error 502 "Upstream request timed out")
  /\ (RawRoute.GET upstream_unreachable 0 (sample_request id_lower)
        (start ∅)).1
     = Normal (json_error 502 "Failed to download CRX file").
Proof.
  split.
  - refine (f_equal fst
              (proj1 (fetch_rejection_answered_502 upstream_timeout 0
                        (sample_request id_lower) (start ∅) TimeoutError
                        _ _ _))); reflexivity.
  - refine (f_equal fst
              (proj2 (fetch_rejection_answered_502 upstream_unreachable 0
                        (sample_request id_lower) (start ∅) TypeError
                        _ _ _))); reflexivity.
Defined.

Lemma archive_body_read_failure_witness :
  (ArchiveRoute.GET upstream_declares_30MB 0 (sample_request id_lower)
     (start ∅)).1
  = Normal (json_error 502 "Upstream request timed out").
Proof.
  apply (archive_body_read_failure upstream_declares_30MB 0
           (sample_request id_lower) (start ∅)
           {| up_status := 200; up_content_length := Some "30000000";
              up_body := Some {| chunks := [magic];
                                 stream_end := Errored TimeoutError |} |}
           TimeoutError).
  - repeat split; reflexivity.
  - reflexivity.
  - reflexivity.
Defined.

Lemma archive_parse_failure_witness :
  (ArchiveRoute.GET upstream_bare_magic 0 (sample_request id_lower)
     (start ∅)).1
  = Normal (json_error 502 "Failed to download CRX file").
Proof.
  apply (archive_parse_failure upstream_bare_magic 0
           (sample_request id_lower) (start ∅)
           {| up_status := 200; up_content_length := Some "4";
              up_body := Some {| chunks := [magic]; stream_end := Closed |} |}
           magic).
  - repeat split; reflexivity.
  - reflexivity.
  - reflexivity.
  - vm_compute. discriminate.
Defined.

Lemma served_archive_comes_from_upstream_witness :
  chunk_len [x50; x4b; x03; x04] <= MAX_CRX_SIZE
  /\ exists pre, crx3 [x0a; x0b] [x50; x4b] ++ [x03; x04]
                 = pre ++ [x50; x4b; x03; x04].
Proof.
  destruct (served_archive_comes_from_upstream upstream_small_crx3 0
              (sample_request id_lower) (start ∅)
              {| status := 200;
                 headers :=
                   [("Content-Type", "application/zip");
                    ("Content-Disposition",
                     "attachment; filename=" +:+ dquote
                       +:+ "my-cool-extension-name-aaaaaaaaaaaaaaaaaaaaaaaaaaaaaaaa.zip"
                       +:+ dquote);
                    ("Content-Length", "4");
                    ("Cache-Control", "private, no-store")];
                 body := Bytes [x50; x4b; x03; x04] |}
              [x50; x4b; x03; x04])
    as (_ & _ & Hlen & _ & _ & _ & resp & buf & pre & Hf & _ & Hb & _ & Hpre).
  - vm_compute. reflexivity.
  - reflexivity.
  - split; [exact Hlen|]. exists pre.
    injection Hf as <-. injection Hb as <-. exact Hpre.
Defined.

Lemma served_stream_comes_from_upstream_witness :
  stream_bytes [crx3 [x0a; x0b] [x50; x4b]; [x03; x04]] <= MAX_CRX_SIZE.
Proof.
  refine (proj1 (proj2
            (served_stream_comes_from_upstream upstream_small_crx3 0
               (sample_request id_lower) (start ∅)
               {| status := 200;
                  headers :=
                    [("Content-Type", "application/x-chrome-extension");
                     ("Content-Disposition",
                      "attachment; filename=" +:+ dquote
                        +:+ "aaaaaaaaaaaaaaaaaaaaaaaaaaaaaaaa.crx" +:+ dquote);
                     ("Cache-Control", "private, no-store");
                     ("Content-Length", "18")];
                  body := Piped {| chunks := [crx3 [x0a; x0b] [x50; x4b];
                                              [x03; x04]];
                                   stream_end := Closed |} |}
               {| chunks := [crx3 [x0a; x0b] [x50; x4b]; [x03; x04]];
                  stream_end := Closed |} _ _))).
  - vm_compute. reflexivity.
  - reflexivity.
Defined.

End HandlerCases.

(** ** File names and caller keys *)

Section NamesMore.

Lemma forall_chars_app (p : ascii -> bool) (s t : string) :
  forall_chars p (s +:+ t) = forall_chars p s && forall_chars p t.
Proof. induction s as [|c s IH]; simpl; [done|]. by rewrite IH, andb_assoc. Qed.

Lemma forall_chars_impl (p q : ascii -> bool) (s : string) :
  (forall c, p c = true -> q c = true) ->
  forall_chars p s = true -> forall_chars q s = true.
Proof.
  intros Hpq. induction s as [|c s IH]; simpl; [done|].
  intros [Hc Hs]%andb_true_iff. by rewrite (Hpq _ Hc), IH.
Qed.

Lemma replace_runs_slug_chars (s : string) (b : bool) :
  forall_chars is_slug_char (replace_runs b s) = true.
Proof.
  revert b. induction s as [|c s IH]; intros b; [done|].
  rewrite replace_runs_cons. destruct (is_alnum c) eqn:Ec.
  - simpl. unfold is_slug_char at 1. by rewrite Ec, IH.
  - destruct b; [apply IH|]. simpl. apply IH.
Qed.

Lemma drop_final_hyphen_chars (p : ascii -> bool) (s : string) :
  forall_chars p s = true -> forall_chars p (drop_final_hyphen s) = true.
Proof.
  induction s as [|c s IH]; [done|]. rewrite drop_final_hyphen_cons.
  simpl. intros [Hc Hs]%andb_true_iff.
  destruct s as [|d s]; [destruct (Ascii.eqb c "-"); simpl; by rewrite ?Hc|].
  change (forall_chars p (String c (drop_final_hyphen (String d s))))
    with (p c && forall_chars p (drop_final_hyphen (String d s))).
  by rewrite Hc, IH.
Qed.

Lemma drop_final_hyphen_end (s : string) :
  single_hyphens s = true -> ends_with_hyphen (drop_final_hyphen s) = false.
Proof.
  induction s as [|c s IH]; [done|].
  rewrite single_hyphens_cons, drop_final_hyphen_cons.
  intros [Hc Hs]%andb_true_iff.
  destruct s as [|d s]; [by destruct (Ascii.eqb c "-") eqn:E; simpl; rewrite ?E|].
  specialize (IH Hs).
  destruct (drop_final_hyphen (String d s)) as [|x t] eqn:E; [|exact IH].
  (* the rest was a lone hyphen, so [c] is not one *)
  rewrite drop_final_hyphen_cons in E. destruct s as [|y s]; [|done].
  destruct (Ascii.eqb d "-") eqn:Ed; [|done].
  simpl in Hc. rewrite Ed, andb_true_r in Hc. simpl.
  by apply negb_true_iff in Hc.
Qed.

Lemma drop_final_hyphen_start (s : string) :
  starts_with_hyphen s = false ->
  starts_with_hyphen (drop_final_hyphen s) = false.
Proof.
  destruct s as [|c s]; [done|]. rewrite drop_final_hyphen_cons. simpl.
  intros Hc. destruct s; [by rewrite Hc|done].
Qed.

Lemma drop_final_hyphen_single (s : string) :
  single_hyphens s = true -> single_hyphens (drop_final_hyphen s) = true.
Proof.
  induction s as [|c s IH]; [done|].
  rewrite single_hyphens_cons, drop_final_hyphen_cons.
  intros [Hc Hs]%andb_true_iff.
  destruct s as [|d s]; [by destruct (Ascii.eqb c "-")|].
  rewrite single_hyphens_cons, (IH Hs), andb_true_r.
  destruct (Ascii.eqb c "-"); [|done]. cbn [andb] in Hc |- *.
  apply negb_true_iff in Hc. apply negb_true_iff.
  by apply drop_final_hyphen_start.
Qed.

Lemma single_hyphens_tail (c : ascii) (s : string) :
  single_hyphens (String c s) = true -> single_hyphens s = true.
Proof. rewrite single_hyphens_cons. by intros [_ ?]%andb_true_iff. Qed.

Lemma safeName_slug (rawName : string) : is_slug (safeName rawName) = true.
Proof.
  unfold is_slug, safeName.
  set (t := replace_runs false (toLowerCase rawName)).
  assert (forall_chars is_slug_char t = true) as Hchars
    by apply replace_runs_slug_chars.
  assert (single_hyphens t = true) as Hsingle by apply replace_runs_single.
  clearbody t. unfold strip_edge_hyphens.
  destruct t as [|c t]; [done|].
  destruct (Ascii.eqb c "-") eqn:Ec.
  - simpl in Hchars. apply andb_true_iff in Hchars as [_ Hchars].
    pose proof (single_hyphens_tail _ _ Hsingle) as Ht.
    rewrite single_hyphens_cons, Ec in Hsingle. simpl in Hsingle.
    apply andb_true_iff in Hsingle as [Hstart%negb_true_iff _].
    by rewrite drop_final_hyphen_chars, drop_final_hyphen_start,
      drop_final_hyphen_end, drop_final_hyphen_single.
  - by rewrite drop_final_hyphen_chars, drop_final_hyphen_start,
      drop_final_hyphen_end, drop_final_hyphen_single.
Qed.

(** X15: the sanitized name is always a well-formed slug: only characters
    of [a-z0-9-], no hyphen at either end, no two hyphens in a row. *)
Theorem safeName_is_slug (rawName : string) : is_slug (safeName rawName) = true.
Proof. apply safeName_slug. Qed.

Lemma is_slug_parts (s : string) :
  is_slug s = true ->
  forall_chars is_slug_char s = true /\ starts_with_hyphen s = false
  /\ ends_with_hyphen s = false /\ single_hyphens s = true.
Proof.
  unfold is_slug. intros H.
  repeat (apply andb_true_iff in H as [H ?]).
  by repeat split; try apply negb_true_iff.
Qed.

(** X16: for a validated identifier the file name of the archive holds
    only characters of [a-z0-9.-], whatever the display-name hint was: no
    quote, slash, space or control character reaches the
    Content-Disposition header. *)
Theorem zip_filename_is_safe (rawName id : string) :
  test_id id = true ->
  forall_chars is_filename_char (zip_filename rawName id) = true.
Proof.
  intros [_ Hid]%andb_true_iff.
  assert (forall_chars is_filename_char id = true) as Hid'.
  { apply (forall_chars_impl is_lower); [|done].
    intros c Hc. unfold is_filename_char, is_alnum. by rewrite Hc. }
  assert (forall_chars is_filename_char (safeName rawName) = true) as Hname.
  { apply (forall_chars_impl is_slug_char).
    - intros c Hc. unfold is_filename_char. unfold is_slug_char in Hc.
      by rewrite Hc.
    - by destruct (is_slug_parts _ (safeName_slug rawName)). }
  unfold zip_filename. destruct (safeName rawName) as [|c t] eqn:E.
  - by rewrite forall_chars_app, Hid'.
  - by rewrite !forall_chars_app, Hname, Hid'.
Qed.

Lemma zip_filename_is_safe_witness :
  forall_chars is_filename_char
    (zip_filename "../../etc/passwd" id_lower) = true.
Proof. apply (zip_filename_is_safe "../../etc/passwd" id_lower). reflexivity. Defined.

Lemma lower_char_slug (c : ascii) : is_slug_char c = true -> lower_char c = c.
Proof.
  unfold is_slug_char, is_alnum, is_lower, is_digit, lower_char, is_upper.
  destruct (Ascii.eqb_spec c "-") as [->|_]; [done|].
  rewrite orb_false_r. intros H.
  replace (_ || _) with false; [done|]. symmetry.
  apply orb_true_iff in H as [H|H];
    apply andb_true_iff in H as [H1%N.leb_le H2%N.leb_le];
    apply orb_false_iff; split.
  - apply andb_false_iff. right. apply N.leb_gt. lia.
  - apply andb_false_iff. left. apply andb_false_iff. left. apply N.leb_gt. lia.
  - apply andb_false_iff. left. apply N.leb_gt. lia.
  - apply andb_false_iff. left. apply andb_false_iff. left. apply N.leb_gt. lia.
Qed.

Lemma toLowerCase_slug (s : string) :
  forall_chars is_slug_char s = true -> toLowerCase s = s.
Proof.
  induction s as [|c s IH]; [done|]. simpl.
  intros [Hc Hs]%andb_true_iff. by rewrite (lower_char_slug _ Hc), IH.
Qed.

Lemma slug_char_not_alnum (c : ascii) :
  is_slug_char c = true -> is_alnum c = false -> Ascii.eqb c "-" = true.
Proof. unfold is_slug_char. intros H E. by rewrite E in H. Qed.

Lemma replace_runs_slug (s : string) :
  forall_chars is_slug_char s = true -> single_hyphens s = true ->
  replace_runs false s = s
  /\ (starts_with_hyphen s = false -> replace_runs true s = s).
Proof.
  induction s as [|c s IH]; [done|].
  simpl forall_chars. rewrite single_hyphens_cons, !replace_runs_cons.
  intros [Hc Hs]%andb_true_iff [Hcs Hss]%andb_true_iff.
  destruct (IH Hs Hss) as [IHf IHt].
  destruct (is_alnum c) eqn:Ec; [by rewrite IHf|].
  pose proof (slug_char_not_alnum _ Hc Ec) as Eh.
  rewrite Eh in Hcs. simpl in Hcs. apply negb_true_iff in Hcs.
  split; [|simpl; by rewrite Eh].
  apply Ascii.eqb_eq in Eh as ->. by rewrite (IHt Hcs).
Qed.

Lemma drop_final_hyphen_id (s : string) :
  ends_with_hyphen s = false -> drop_final_hyphen s = s.
Proof.
  induction s as [|c s IH]; [done|]. rewrite drop_final_hyphen_cons.
  destruct s as [|d s]; [simpl; by intros ->|].
  intros H. by rewrite IH.
Qed.

(** X17: sanitizing is idempotent: a sanitized name is left as it is
    by a second pass, and so is every well-formed slug. *)
Theorem safeName_idempotent (rawName : string) :
  safeName (safeName rawName) = safeName rawName
  /\ forall s, is_slug s = true -> safeName s = s.
Proof.
  assert (forall s, is_slug s = true -> safeName s = s) as Hslug.
  { intros s (Hchars & Hstart & Hend & Hsingle)%is_slug_parts.
    unfold safeName. rewrite (toLowerCase_slug _ Hchars).
    rewrite (proj1 (replace_runs_slug _ Hchars Hsingle)).
    unfold strip_edge_hyphens. destruct s as [|c s]; [done|].
    simpl in Hstart. rewrite Hstart. by apply drop_final_hyphen_id. }
  split; [|done]. apply Hslug, safeName_slug.
Qed.

(** Trimming. *)
Lemma trimStart_start (s : string) : starts_with_space (trimStart s) = false.
Proof.
  induction s as [|c s IH]; [done|]. simpl.
  destruct (is_space c) eqn:E; [done|]. simpl. exact E.
Qed.

Lemma trimEnd_cons (c : ascii) (s : string) :
  trimEnd (String c s)
  = match trimEnd s with
    | EmptyString => if is_space c then EmptyString else String c EmptyString
    | t => String c t
    end.
Proof. reflexivity. Qed.

Lemma trimEnd_start (s : string) :
  starts_with_space s = false -> starts_with_space (trimEnd s) = false.
Proof.
  destruct s as [|c s]; [done|]. rewrite trimEnd_cons. simpl. intros Hc.
  destruct (trimEnd s); [by rewrite Hc|done].
Qed.

Lemma trimEnd_end (s : string) : ends_with_space (trimEnd s) = false.
Proof.
  induction s as [|c s IH]; [done|]. rewrite trimEnd_cons.
  destruct (trimEnd s) as [|d t] eqn:E.
  - destruct (is_space c) eqn:Ec; [done|]. simpl. exact Ec.
  - exact IH.
Qed.

Lemma trimStart_chars (p : ascii -> bool) (s : string) :
  forall_chars p s = true -> forall_chars p (trimStart s) = true.
Proof.
  induction s as [|c s IH]; [done|]. simpl.
  intros [Hc Hs]%andb_true_iff.
  destruct (is_space c); [by apply IH|]. simpl. by rewrite Hc.
Qed.

Lemma trimEnd_chars (p : ascii -> bool) (s : string) :
  forall_chars p s = true -> forall_chars p (trimEnd s) = true.
Proof.
  induction s as [|c s IH]; [done|]. rewrite trimEnd_cons. simpl.
  intros [Hc Hs]%andb_true_iff. specialize (IH Hs).
  destruct (trimEnd s) as [|d t].
  - destruct (is_space c); simpl; by rewrite ?Hc.
  - change (p c && forall_chars p (String d t) = true). by rewrite Hc.
Qed.

Lemma before_comma_chars (s : string) :
  forall_chars (fun c => negb (is_comma c)) (before_comma s) = true.
Proof.
  induction s as [|c s IH]; [done|]. simpl.
  destruct (Ascii.eqb c ",") eqn:E; [done|]. simpl.
  unfold is_comma at 1. by rewrite E.
Qed.

(** X18: the caller key is never empty, holds no comma and has no white
    space at either end; a request without the [x-forwarded-for] header,
    or whose first address is blank, gets the shared key ["unknown"]. *)
Theorem callerKey_shape (req : request) :
  callerKey req <> EmptyString
  /\ forall_chars (fun c => negb (is_comma c)) (callerKey req) = true
  /\ starts_with_space (callerKey req) = false
  /\ ends_with_space (callerKey req) = false
  /\ (match x_forwarded_for req with
      | None => callerKey req = "unknown"
      | Some h => callerKey req
                  = match trim (before_comma h) with
                    | EmptyString => "unknown"
                    | key => key
                    end
      end).
Proof.
  unfold callerKey. destruct (x_forwarded_for req) as [h|]; [|done].
  unfold or_default.
  pose proof (trimEnd_chars _ _ (trimStart_chars _ _ (before_comma_chars h)))
    as Hchars.
  pose proof (trimEnd_start _ (trimStart_start (before_comma h))) as Hstart.
  pose proof (trimEnd_end (trimStart (before_comma h))) as Hend.
  fold (trim (before_comma h)) in Hchars, Hstart, Hend.
  by destruct (trim (before_comma h)).
Qed.

End NamesMore.

(** ** Numbers and their decimal text *)

Section NumbersMore.

Local Open Scope Z_scope.

Lemma pretty_N_char_digit (d : N) :
  (d < 10)%N ->
  is_digit (pretty_N_char d) = true
  /\ Z.of_N (code (pretty_N_char d) - 48) = Z.of_N d.
Proof.
  intros Hd.
  assert (d = 0 \/ d = 1 \/ d = 2 \/ d = 3 \/ d = 4 \/ d = 5 \/ d = 6
          \/ d = 7 \/ d = 8 \/ d = 9)%N as H by lia.
  repeat (destruct H as [->|H]; [by vm_compute|]). subst. by vm_compute.
Qed.

Lemma digit_not_sign_or_space (c : ascii) :
  is_digit c = true ->
  is_space c = false /\ Ascii.eqb c "-" = false /\ Ascii.eqb c "+" = false.
Proof.
  unfold is_digit, is_space.
  intros [H1%N.leb_le H2%N.leb_le]%andb_true_iff.
  split; [|split].
  - repeat (apply orb_false_iff; split).
    + apply andb_false_iff. right. apply N.leb_gt. lia.
    + apply N.eqb_neq. lia.
    + apply N.eqb_neq. lia.
  - destruct (Ascii.eqb_spec c "-") as [->|]; [|done]. vm_compute in H1. done.
  - destruct (Ascii.eqb_spec c "+") as [->|]; [|done]. vm_compute in H1. done.
Qed.

(** Reading the digits that [pretty_N_go] puts in front of [s]: the
    accumulator is shifted by a power of ten and [x] is added. *)
Lemma digits_prefix_pretty_N_go (x : N) :
  (0 < x)%N ->
  forall s, exists d,
    (exists c t, pretty_N_go x s = String c t /\ is_digit c = true)
    /\ forall acc seen,
         digits_prefix (pretty_N_go x s) acc seen
         = digits_prefix s (acc * d + Z.of_N x) true.
Proof.
  induction (N.lt_wf_0 x) as [x _ IH]. intros Hx s.
  rewrite (pretty_N_go_step x s Hx).
  pose proof (N.mod_upper_bound x 10 ltac:(done)) as Hmod.
  destruct (pretty_N_char_digit _ Hmod) as [Hdig Hval].
  pose proof (N.div_mod x 10 ltac:(done)) as Hdm.
  destruct (decide (x `div` 10 = 0)%N) as [E0|Hne].
  - rewrite E0, pretty_N_go_0. exists 10. split; [eauto|].
    intros acc seen. simpl. rewrite Hdig, Hval. f_equal. lia.
  - destruct (IH (x `div` 10)%N) with
      (s := String (pretty_N_char (x `mod` 10)) s)
      as (d & Hhead & Hread).
    { apply N.div_lt; lia. }
    { lia. }
    exists (10 * d). split; [done|].
    intros acc seen. rewrite Hread. simpl. rewrite Hdig, Hval. f_equal. lia.
Qed.

Lemma parseInt_pretty_pos (p : positive) : parseInt (pretty (Zpos p)) = Some (Zpos p).
Proof.
  change (pretty (Z.pos p)) with (pretty_N_go (N.pos p) EmptyString).
  destruct (digits_prefix_pretty_N_go (N.pos p) ltac:(done) EmptyString)
    as (d & (c & t & Hs & Hc) & Hread).
  unfold parseInt. rewrite Hs. simpl trimStart.
  destruct (digit_not_sign_or_space _ Hc) as (-> & -> & ->).
  rewrite <- Hs, Hread. cbn [digits_prefix]. f_equal; lia.
Qed.

(** X19: [parseInt] reads back exactly what the decimal rendering of an
    integer writes (for the integers a number holds exactly, up to 2^53 - 1
    in size), negative numbers included; so an upstream that declares
    [n] bytes in canonical decimal is cut off by the streaming endpoint
    exactly when [n] is above 20 MiB. *)
Theorem parseInt_pretty (z : Z) :
  Z.abs z <= 9007199254740991 ->
  parseInt (pretty z) = Some z
  /\ forall st b,
       declares_too_large {| up_status := st;
                             up_content_length := Some (pretty z);
                             up_body := b |}
       = (MAX_CRX_SIZE <? z).
Proof.
  intros _.
  assert (parseInt (pretty z) = Some z) as Hparse.
  { destruct z as [|p|p]; [done|apply parseInt_pretty_pos|].
    pose proof (parseInt_pretty_pos p) as Hp.
    change (pretty (Z.neg p)) with (String "-" (pretty (Z.pos p))).
    change (pretty (Z.pos p)) with (pretty_N_go (N.pos p) EmptyString) in *.
    destruct (digits_prefix_pretty_N_go (N.pos p) ltac:(done) EmptyString)
      as (d & (c & t & Hs & Hc) & Hread).
    unfold parseInt. cbn [trimStart]. change (is_space "-") with false.
    cbn iota. change (Ascii.eqb "-" "-") with true. cbn iota.
    rewrite Hread. cbn [digits_prefix]. simpl. f_equal; lia. }
  split; [done|]. intros st b. unfold declares_too_large. cbn [up_content_length].
  assert (or_default (Some (pretty z)) "0" = pretty z) as ->; [|by rewrite Hparse].
  destruct z as [|p|p]; [done| |done].
  change (pretty (Z.pos p)) with (pretty_N_go (N.pos p) EmptyString).
  destruct (digits_prefix_pretty_N_go (N.pos p) ltac:(done) EmptyString)
    as (d & (c & t & Hs & Hc) & _).
  by rewrite Hs.
Qed.

Lemma parseInt_pretty_witness :
  parseInt (pretty 20971521) = Some 20971521
  /\ forall st b,
       declares_too_large {| up_status := st;
                             up_content_length := Some (pretty 20971521);
                             up_body := b |}
       = (MAX_CRX_SIZE <? 20971521).
Proof. apply (parseInt_pretty 20971521). simpl. lia. Defined.

End NumbersMore.

(** ** The redirect page *)

Section RedirectMore.

Lemma code_ascii_of_N (n : N) : (n < 256)%N -> code (ascii_of_N n) = n.
Proof. apply N_ascii_embedding. Qed.

Lemma code_lt_256 (c : ascii) : (code c < 256)%N.
Proof. apply N_ascii_bounded. Qed.

Lemma lower_char_letter (c : ascii) :
  is_letter c = true -> is_lower (lower_char c) = true.
Proof.
  unfold is_letter, lower_char, is_lower, is_upper. intros H.
  destruct ((65 <=? code c)%N && (code c <=? 90)%N) eqn:Eu.
  - simpl. apply andb_true_iff in Eu as [H1%N.leb_le H2%N.leb_le].
    rewrite code_ascii_of_N by lia.
    apply andb_true_iff. split; apply N.leb_le; lia.
  - rewrite orb_false_r in H. simpl.
    apply andb_true_iff in H as [H1%N.leb_le H2%N.leb_le].
    replace ((192 <=? code c)%N) with false by (symmetry; apply N.leb_gt; lia).
    simpl. apply andb_true_iff. split; apply N.leb_le; lia.
Qed.

Lemma toLowerCase_length (s : string) :
  String.length (toLowerCase s) = String.length s.
Proof. induction s as [|c s IH]; simpl; [done|]. by rewrite IH. Qed.

(** Lowercasing 32 letters of any case gives an identifier the endpoints
    accept. *)
Lemma toLowerCase_test_id (s : string) :
  test_id_i s = true -> test_id (toLowerCase s) = true.
Proof.
  unfold test_id_i, test_id. rewrite toLowerCase_length.
  intros [-> Hs]%andb_true_iff. simpl.
  induction s as [|c s IH]; [done|]. simpl in *.
  apply andb_true_iff in Hs as [Hc Hs]. by rewrite lower_char_letter, IH.
Qed.

Lemma form_encode_cons_ascii (c : ascii) (s : string) :
  (code c < 128)%N ->
  form_encode (String c s) = form_encode_byte (code c) +:+ form_encode s.
Proof.
  intros Hc. simpl. unfold utf8_bytes.
  by rewrite (proj2 (N.ltb_lt _ _) Hc).
Qed.

Lemma form_encode_byte_alnum (c : ascii) :
  is_lower c || is_upper c || is_digit c = true ->
  (code c < 128)%N /\ form_encode_byte (code c) = String c EmptyString.
Proof.
  unfold is_lower, is_upper, is_digit, form_encode_byte. intros H.
  assert ((48 <= code c <= 57) \/ (65 <= code c <= 90)
          \/ (97 <= code c <= 122))%N as Hr.
  { repeat (apply orb_true_iff in H as [H|H]);
      apply andb_true_iff in H as [?%N.leb_le ?%N.leb_le]; lia. }
  split; [lia|].
  replace (code c =? 32)%N with false by (symmetry; apply N.eqb_neq; lia).
  replace (_ || _) with true.
  - unfold code. by rewrite ascii_N_embedding.
  - repeat match goal with
           | |- context [(?a <=? ?b)%N] => destruct (N.leb_spec a b)
           | |- context [(?a =? ?b)%N] => destruct (N.eqb_spec a b)
           end; simpl; try done; lia.
Qed.

Lemma form_encode_lower (s : string) :
  forall_chars is_lower s = true -> form_encode s = s.
Proof.
  induction s as [|c s IH]; [done|]. simpl forall_chars.
  intros [Hc Hs]%andb_true_iff.
  destruct (form_encode_byte_alnum c) as [Hlt Henc]; [by rewrite Hc|].
  by rewrite form_encode_cons_ascii, Henc, IH.
Qed.

(** Encoding a name of letters, digits and spaces: character by
    character, the spaces become [+]. *)
Lemma form_encode_name (s : string) :
  forall_chars is_name_char s = true ->
  String.length (form_encode s) = String.length s
  /\ forall_chars is_encoded_name_char (form_encode s) = true
  /\ (s <> EmptyString -> form_encode s <> EmptyString).
Proof.
  induction s as [|c s IH]; [done|].
  intros H. change (is_name_char c && forall_chars is_name_char s = true) in H.
  apply andb_true_iff in H as [Hc Hs]. destruct (IH Hs) as (IHl & IHc & _).
  assert (exists e, form_encode (String c s) = String e (form_encode s)
                    /\ is_encoded_name_char e = true) as (e & -> & He).
  { unfold is_name_char in Hc.
    destruct (Ascii.eqb_spec c " ") as [->|Hsp]; [by exists "+"%char|].
    rewrite orb_false_r in Hc.
    destruct (form_encode_byte_alnum c Hc) as [Hlt Henc].
    rewrite form_encode_cons_ascii, Henc by done. exists c.
    split; [done|]. unfold is_encoded_name_char. by rewrite Hc. }
  split; [simpl; by rewrite IHl|].
  split; [|done].
  change (is_encoded_name_char e && forall_chars is_encoded_name_char
                                      (form_encode s) = true).
  by rewrite He, IHc.
Qed.

Lemma keep_name_chars_chars (s : string) :
  forall_chars is_name_char (keep_name_chars s) = true.
Proof.
  induction s as [|c s IH]; [done|]. simpl.
  destruct (is_name_char c) eqn:E; [|done]. simpl. by rewrite E.
Qed.

Lemma slice0_chars (p : ascii -> bool) (n : nat) (s : string) :
  forall_chars p s = true -> forall_chars p (slice0 n s) = true.
Proof.
  unfold slice0. revert s. induction n as [|n IH]; intros [|c s]; try done.
  simpl. intros [Hc Hs]%andb_true_iff. by rewrite Hc, IH.
Qed.

Lemma slice0_length (n : nat) (s : string) :
  (String.length (slice0 n s) <= n)%nat.
Proof.
  unfold slice0. revert s. induction n as [|n IH]; intros [|c s]; simpl;
    try lia.
  specialize (IH s). lia.
Qed.

Lemma append_empty (s : string) : s +:+ EmptyString = s.
Proof.
  induction s as [|c s IH]; [done|].
  change (String c (s +:+ EmptyString) = String c s). by rewrite IH.
Qed.

(** X20: whatever the path, the redirect page sends the browser either to
    ["/"] or to ["/?id=..."] with an identifier that the endpoints accept
    (32 lowercase letters), optionally followed by a [name] parameter of
    1 to 80 characters of [a-zA-Z0-9+]. *)
Theorem detail_redirect_is_well_formed (slug : list string) :
  DetailCatchAll slug = "/"
  \/ exists id,
       test_id id = true
       /\ (DetailCatchAll slug = "/?id=" +:+ id
           \/ exists name,
                DetailCatchAll slug = "/?id=" +:+ id +:+ "&name=" +:+ name
                /\ (1 <= String.length name <= 80)%nat
                /\ forall_chars is_encoded_name_char name = true).
Proof.
  unfold DetailCatchAll.
  destruct (10 <? length slug)%nat; [by left|].
  destruct (2 <=? length slug)%nat.
  - destruct (test_id_i (segment slug (length slug - 1))) eqn:Eid;
      [|by left].
    pose proof (toLowerCase_test_id _ Eid) as Hid.
    set (id := toLowerCase (segment slug (length slug - 1))) in *.
    set (name := slice0 80 (keep_name_chars
                              (hyphens_to_spaces
                                 (segment slug (length slug - 2))))).
    assert (forall_chars is_name_char name = true) as Hname
      by apply slice0_chars, keep_name_chars_chars.
    pose proof (slice0_length 80 (keep_name_chars
                                    (hyphens_to_spaces
                                       (segment slug (length slug - 2)))))
      as Hlen. fold name in Hlen.
    pose proof Hid as Hid'. apply andb_true_iff in Hid' as [Hl Hlower].
    destruct id as [|c i] eqn:Eidv; [done|]. right. exists (String c i).
    split; [done|].
    destruct name as [|d n] eqn:En.
    + left. cbn [searchParams_toString].
      by rewrite (form_encode_lower _ Hlower).
    + right. destruct (form_encode_name _ Hname) as (Hl' & Hc' & _).
      exists (form_encode (String d n)). cbn [searchParams_toString].
      rewrite (form_encode_lower _ Hlower).
      split; [|split; [|done]].
      * reflexivity.
      * rewrite Hl'. simpl in *. lia.
  - destruct ((length slug =? 1)%nat && test_id_i (segment slug 0)) eqn:E;
      [|by left].
    apply andb_true_iff in E as [_ Eid].
    pose proof (toLowerCase_test_id _ Eid) as Hid.
    pose proof Hid as Hid'. apply andb_true_iff in Hid' as [Hl Hlower].
    destruct (toLowerCase (segment slug 0)) as [|c i] eqn:Eidv; [done|].
    right. exists (String c i). split; [done|]. left.
    cbn [searchParams_toString]. by rewrite (form_encode_lower _ Hlower).
Qed.

(** X21: the redirect page matches the identifier without regard to case
    and hands it on in lowercase: with 1 to 10 path segments of which the
    last is 32 letters, the target starts with ["/?id="] and the lowercase
    form of that segment; in every other case the target is ["/"]. *)
Theorem detail_redirect_accepts_any_case (slug : list string) :
  if ((1 <=? length slug) && (length slug <=? 10))%nat
     && test_id_i (segment slug (length slug - 1))
  then exists rest,
      DetailCatchAll slug
      = "/?id=" +:+ toLowerCase (segment slug (length slug - 1)) +:+ rest
  else DetailCatchAll slug = "/".
Proof.
  unfold DetailCatchAll.
  destruct (Nat.ltb_spec 10 (length slug)) as [Hbig|Hsmall].
  { replace (length slug <=? 10)%nat with false
      by (symmetry; apply Nat.leb_gt; lia).
    by rewrite andb_false_r. }
  replace (length slug <=? 10)%nat with true
    by (symmetry; apply Nat.leb_le; lia).
  rewrite andb_true_r.
  destruct (Nat.leb_spec 2 (length slug)) as [H2|H2].
  - replace (1 <=? length slug)%nat with true
      by (symmetry; apply Nat.leb_le; lia).
    cbn [andb].
    destruct (test_id_i (segment slug (length slug - 1))) eqn:Eid; [|done].
    pose proof (toLowerCase_test_id _ Eid) as Hid.
    apply andb_true_iff in Hid as [Hl Hlower].
    destruct (toLowerCase (segment slug (length slug - 1))) as [|c i] eqn:E;
      [done|].
    destruct (slice0 80 _) as [|d n]; cbn [searchParams_toString];
      rewrite (form_encode_lower _ Hlower).
    + exists EmptyString.
      by rewrite append_empty.
    + by exists ("&name=" +:+ form_encode (String d n)).
  - destruct (Nat.eqb_spec (length slug) 1) as [H1|H1].
    + rewrite H1. cbn [Nat.leb Nat.sub andb].
      destruct (test_id_i (segment slug 0)) eqn:Eid; [|done].
      pose proof (toLowerCase_test_id _ Eid) as Hid.
      apply andb_true_iff in Hid as [Hl Hlower].
      destruct (toLowerCase (segment slug 0)) as [|c i] eqn:E; [done|].
      cbn [searchParams_toString]. rewrite (form_encode_lower _ Hlower).
      exists EmptyString.
      by rewrite append_empty.
    + replace (1 <=? length slug)%nat with false
        by (symmetry; apply Nat.leb_gt; lia).
      done.
Qed.

End RedirectMore.

(** ** The page: history, relative times, URLs *)

Section PageMore.

Local Open Scope Z_scope.

Lemma filter_other_ids (id : string) (hs : list HistoryEntry) :
  history_ids (List.filter (other_id id) hs)
  = List.filter (fun i => negb (String.eqb i id)) (history_ids hs).
Proof.
  induction hs as [|h hs IH]; [done|]. simpl. unfold other_id at 1.
  destruct (negb (String.eqb (h_id h) id)); simpl; by rewrite IH.
Qed.

Lemma filter_other_not_in (id : string) (ids : list string) :
  ~ In id (List.filter (fun i => negb (String.eqb i id)) ids).
Proof.
  intros [_ H]%filter_In. by rewrite String.eqb_refl in H.
Qed.

Lemma filter_NoDup (p : string -> bool) (ids : list string) :
  NoDup ids -> NoDup (List.filter p ids).
Proof.
  induction ids as [|i ids IH]; [done|].
  intros [Hi Hnd]%NoDup_cons. simpl.
  destruct (p i); [|by apply IH].
  apply NoDup_cons. split; [|by apply IH].
  rewrite list_elem_of_In. intros [Hin _]%filter_In.
  by apply Hi, list_elem_of_In.
Qed.

(** X22: the history keeps each extension once and stays mirrored in
    [localStorage]: looking an extension up again moves it to the front
    instead of adding a second entry, and removing one keeps the rest. *)
Theorem history_stays_unique (now : Z) (id name : string) (st : page_state) :
  history_ok st ->
  history_ok (processExtension now id name (history st) st)
  /\ history_ok (handleRemove id st)
  /\ history_ids (history (processExtension now id name (history st) st))
     = id :: List.filter (fun i => negb (String.eqb i id))
               (history_ids (history st)).
Proof.
  intros [Hnd Hst]. split; [|split].
  - split; [|done]. cbn. rewrite filter_other_ids. apply NoDup_cons. split.
    + rewrite list_elem_of_In. apply filter_other_not_in.
    + by apply filter_NoDup.
  - unfold handleRemove, history_ok.
    assert (NoDup (history_ids (List.filter (other_id id) (history st))))
      as Hnd' by (rewrite filter_other_ids; by apply filter_NoDup).
    destruct (result st) as [[[rid n] u]|]; [|done].
    by destruct (String.eqb rid id).
  - cbn. by rewrite filter_other_ids.
Qed.

Lemma history_stays_unique_witness :
  let st := {| input := EmptyString; result := None; error := EmptyString;
               history := [{| h_id := id_lower; h_name := "a";
                              h_crxUrl := buildCrxUrl id_lower;
                              h_timestamp := 1 |}];
               stored := [{| h_id := id_lower; h_name := "a";
                             h_crxUrl := buildCrxUrl id_lower;
                             h_timestamp := 1 |}] |} in
  history_ids (history (processExtension 2 id_lower "b" (history st) st))
  = [id_lower].
Proof.
  intros st.
  refine (proj2 (proj2 (history_stays_unique 2 id_lower "b" st _))).
  split; [|reflexivity]. apply NoDup_singleton.
Defined.

(** X23: removing an extension forgets it everywhere: it is gone from the
    history and from [localStorage], the result panel no longer shows it,
    and the entries of other extensions stay, in their order. *)
Theorem handleRemove_forgets (id : string) (st : page_state) :
  ~ In id (history_ids (history (handleRemove id st)))
  /\ stored (handleRemove id st) = history (handleRemove id st)
  /\ history (handleRemove id st) = List.filter (other_id id) (history st)
  /\ (forall h, In h (history st) -> h_id h <> id ->
                In h (history (handleRemove id st)))
  /\ match result (handleRemove id st) with
     | Some (rid, _, _) => rid <> id
     | None => True
     end.
Proof.
  assert (history (handleRemove id st) = List.filter (other_id id) (history st)
          /\ stored (handleRemove id st) = history (handleRemove id st))
    as [Hh Hs].
  { unfold handleRemove. destruct (result st) as [[[rid n] u]|]; [|done].
    by destruct (String.eqb rid id). }
  rewrite Hh. split; [|split; [by rewrite <- Hh|split; [done|split]]].
  - rewrite filter_other_ids. apply filter_other_not_in.
  - intros h Hin Hne. apply filter_In. split; [done|].
    unfold other_id. apply negb_true_iff. by apply String.eqb_neq.
  - unfold handleRemove. destruct (result st) as [[[rid n] u]|] eqn:Er.
    + destruct (String.eqb_spec rid id); simpl; [done|]. by rewrite Er.
    + simpl. by rewrite Er.
Qed.

Lemma div_ltb (a b q : Z) : 0 < b -> (a / b <? q) = (a <? b * q).
Proof.
  intros Hb. destruct (Z.ltb_spec a (b * q)) as [H|H].
  - apply Z.ltb_lt. by apply Z.div_lt_upper_bound.
  - apply Z.ltb_ge. by apply Z.div_le_lower_bound.
Qed.

(** The elapsed time between two time values is an integer that a double
    holds exactly, and the whole seconds in it are far below 1e21. *)
Lemma elapsed_in_range (now ts : time_value) :
  - 2 ^ 53 < ms now - ms ts < 2 ^ 53
  /\ (ms now - ms ts) / 1000 < 2 ^ 43.
Proof.
  destruct now as [a Ha], ts as [b Hb]. cbn [ms].
  apply andb_prop in Ha as [Ha1 Ha2]. apply andb_prop in Hb as [Hb1 Hb2].
  apply Z.leb_le in Ha1, Ha2, Hb1, Hb2. unfold MAX_TIME_VALUE in *.
  split; [lia|]. apply Z.div_lt_upper_bound; lia.
Qed.

(** X24: [timeAgo] on time values (whole milliseconds from the epoch up
    to ECMAScript's bound of 8.64e15, as [Date.now()] yields and
    [processExtension] stores), in terms of the elapsed milliseconds:
    below one minute (a timestamp in the future included) it says
    "just now", below one hour the whole minutes, below one day the whole
    hours, from then on the whole days; the elapsed time is an integer of
    magnitude below 2^53, so that the code's double arithmetic is exact
    on it. *)
Theorem timeAgo_thresholds (now ts : time_value) :
  - 2 ^ 53 < ms now - ms ts < 2 ^ 53
  /\ timeAgo now ts
     = if ms now - ms ts <? 60000 then "just now"
       else if ms now - ms ts <? 3600000
            then pretty ((ms now - ms ts) / 60000) +:+ "m ago"
       else if ms now - ms ts <? 86400000
            then pretty ((ms now - ms ts) / 3600000) +:+ "h ago"
            else pretty ((ms now - ms ts) / 86400000) +:+ "d ago".
Proof.
  split; [apply elapsed_in_range|].
  unfold timeAgo. set (e := ms now - ms ts).
  assert (e / 1000 / 60 = e / 60000) as E1
    by (rewrite Z.div_div; [done|lia|lia]).
  assert (e / 60000 / 60 = e / 3600000) as E2
    by (rewrite Z.div_div; [done|lia|lia]).
  assert (e / 3600000 / 24 = e / 86400000) as E3
    by (rewrite Z.div_div; [done|lia|lia]).
  cbv zeta. rewrite E1, E2, E3.
  rewrite (div_ltb e 1000 60), (div_ltb e 60000 60), (div_ltb e 3600000 24)
    by lia.
  done.
Qed.

Lemma timeAgo_thresholds_witness :
  timeAgo time_sample_now time_sample_then = "16m ago".
Proof.
  exact (eq_trans (proj2 (timeAgo_thresholds time_sample_now time_sample_then))
                  eq_refl).
Defined.

(** X25: for an identifier the endpoints accept, the download URL the page
    shows ([buildCrxUrl]) is the URL the endpoints fetch from (the template
    with the identifier put in). *)
Theorem buildCrxUrl_is_fetched_url (id : string) :
  test_id id = true ->
  replace_first "{ID}" id CRX_URL_TEMPLATE = buildCrxUrl id.
Proof. intros _. reflexivity. Qed.

Lemma buildCrxUrl_is_fetched_url_witness :
  replace_first "{ID}" id_lower CRX_URL_TEMPLATE = buildCrxUrl id_lower.
Proof. apply (buildCrxUrl_is_fetched_url id_lower). reflexivity. Defined.

End PageMore.

(** ** The page: [extractExtensionInfo] *)

Section ExtractMore.

Local Open Scope nat_scope.

Lemma first_success_Some {A B} (f : A -> option B) (l : list A) (r : B) :
  first_success f l = Some r -> exists x, In x l /\ f x = Some r.
Proof.
  induction l as [|x l IH]; [done|]. simpl.
  destruct (f x) as [r'|] eqn:E.
  - intros [= <-]. exists x. auto.
  - intros H. destruct (IH H) as (y & Hy & Hf). exists y. auto.
Qed.

Lemma first_success_None {A B} (f : A -> option B) (l : list A) :
  (forall x, In x l -> f x = None) -> first_success f l = None.
Proof.
  induction l as [|x l IH]; [done|]. intros H. simpl.
  rewrite (H x) by (by left). apply IH. intros y Hy. apply H. by right.
Qed.

Lemma first_success_is_Some {A B C} (f : A -> option B) (g : A -> option C)
    (l : list A) :
  (forall x, is_Some (f x) <-> is_Some (g x)) ->
  is_Some (first_success f l) <-> is_Some (first_success g l).
Proof.
  intros Hfg. induction l as [|x l IH];
    [split; intros [? [=]]|]. simpl.
  specialize (Hfg x). destruct (f x) as [b|], (g x) as [c|].
  - split; eauto.
  - exfalso. apply (is_Some_None (A := C)), Hfg. eauto.
  - exfalso. apply (is_Some_None (A := B)), Hfg. eauto.
  - exact IH.
Qed.

(** Taking and dropping leading characters. *)
Lemma str_take_cons (n : nat) (c : ascii) (s : string) :
  str_take (S n) (String c s) = String c (str_take n s).
Proof. reflexivity. Qed.

Lemma str_take_run (cls : ascii -> bool) (n : nat) (s : string) :
  n <= run_length cls s ->
  String.length (str_take n s) = n /\ forall_chars cls (str_take n s) = true.
Proof.
  revert s. induction n as [|n IH]; intros s Hn.
  - by destruct s.
  - destruct s as [|c s]; simpl in Hn; [lia|].
    destruct (cls c) eqn:Ec; [|lia].
    rewrite str_take_cons. simpl. rewrite Ec.
    destruct (IH s) as [-> ->]; [lia|done].
Qed.

Lemma str_take_all (s : string) : str_take (String.length s) s = s.
Proof.
  induction s as [|c s IH]; [done|]. simpl String.length.
  by rewrite str_take_cons, IH.
Qed.

Lemma str_drop_all (s : string) : str_drop (String.length s) s = EmptyString.
Proof.
  unfold str_drop. rewrite Nat.sub_diag.
  induction s as [|c s IH]; [done|]. exact IH.
Qed.

Lemma run_length_all (cls : ascii -> bool) (s : string) :
  forall_chars cls s = true -> run_length cls s = String.length s.
Proof.
  induction s as [|c s IH]; [done|]. simpl.
  intros [-> Hs]%andb_true_iff. by rewrite IH.
Qed.

Lemma str_drop_chars (p : ascii -> bool) (n : nat) (s : string) :
  forall_chars p s = true -> forall_chars p (str_drop n s) = true.
Proof.
  unfold str_drop. revert s. induction n as [|n IH]; intros s Hs.
  - rewrite Nat.sub_0_r. fold (str_take (String.length s) s).
    by rewrite str_take_all.
  - destruct s as [|c s]; [done|]. simpl in Hs.
    apply andb_true_iff in Hs as [_ Hs]. by apply IH.
Qed.

Lemma splits_down_In (n : nat) (s m rest : string) :
  In (m, rest) (splits_down n s) ->
  exists k, 1 <= k <= n /\ m = str_take k s /\ rest = str_drop k s.
Proof.
  induction n as [|n IH]; [done|]. intros [[= <- <-]|H].
  - exists (S n). split; [lia|done].
  - destruct (IH H) as (k & Hk & ? & ?). exists k. split; [lia|done].
Qed.

(** What a piece can have matched. *)
Lemma alternatives_Exactly (n : nat) (cls : ascii -> bool) (s m rest : string) :
  In (m, rest) (alternatives (Exactly n cls) s) ->
  String.length m = n /\ forall_chars cls m = true.
Proof.
  simpl. destruct (Nat.leb_spec n (run_length cls s)) as [Hn|]; [|done].
  intros [[= <- <-]|[]]. by apply str_take_run.
Qed.

Lemma alternatives_OneOrMore_rest (p : ascii -> bool) (cls : ascii -> bool)
    (s m rest : string) :
  forall_chars p s = true ->
  In (m, rest) (alternatives (OneOrMore cls) s) ->
  forall_chars p rest = true.
Proof.
  intros Hs (k & _ & _ & ->)%splits_down_In. by apply str_drop_chars.
Qed.

Lemma match_pieces_cons (p : piece) (ps : list piece) (s : string)
    (caps : list string) :
  match_pieces (p :: ps) s = Some caps ->
  exists m rest caps',
    In (m, rest) (alternatives p s)
    /\ match_pieces ps rest = Some caps'
    /\ caps = if is_capture p then m :: caps' else caps'.
Proof.
  intros H0. cbn [match_pieces] in H0.
  apply first_success_Some in H0 as ([m rest] & Hin & H). cbn beta iota in H.
  destruct (match_pieces ps rest) as [caps'|] eqn:E; [|done].
  injection H as <-. by exists m, rest, caps'.
Qed.

Lemma match_pieces_text (t : string) (ps : list piece) (s : string) :
  match_pieces (Text t :: ps) s
  = match after_text t s with
    | Some rest => match_pieces ps rest
    | None => None
    end.
Proof.
  simpl. destruct (after_text t s) as [rest|]; [|done]. simpl.
  by destruct (match_pieces ps rest).
Qed.

Lemma search_Some (ps : list piece) (s : string) (caps : list string) :
  search ps s = Some caps -> exists s', match_pieces ps s' = Some caps.
Proof.
  induction s as [|c s IH]; simpl.
  - destruct (match_pieces ps EmptyString) eqn:E; [|done].
    intros [= <-]. eauto.
  - destruct (match_pieces ps (String c s)) eqn:E; [|exact IH].
    intros [= <-]. eauto.
Qed.

Lemma search_step (ps : list piece) (c : ascii) (s : string) :
  match_pieces ps (String c s) = None ->
  search ps (String c s) = search ps s.
Proof. intros H. simpl. by rewrite H. Qed.

(** The last group of every pattern holds 32 letters. *)
Lemma match_id_group (s : string) (caps : list string) :
  match_pieces [Capture (Exactly 32 is_letter)] s = Some caps ->
  exists g, caps = [g] /\ test_id_i g = true.
Proof.
  intros (m & rest & caps' & Hin & Hrest & ->)%match_pieces_cons.
  injection Hrest as <-. exists m. split; [done|].
  apply (alternatives_Exactly 32 is_letter s m rest) in Hin as [Hl Hc].
  unfold test_id_i. by rewrite Hl, Hc.
Qed.

Lemma match_two_groups (t : string) (s : string) (caps : list string) :
  match_pieces [Text t; Capture (OneOrMore not_slash); Text "/";
                Capture (Exactly 32 is_letter)] s = Some caps ->
  exists g1 g2, caps = [g1; g2] /\ test_id_i g2 = true.
Proof.
  rewrite match_pieces_text. destruct (after_text t s) as [r1|]; [|done].
  intros (g1 & r2 & caps' & _ & H & ->)%match_pieces_cons.
  rewrite match_pieces_text in H. destruct (after_text "/" r2) as [r3|]; [|done].
  apply match_id_group in H as (g2 & -> & Hg2). by exists g1, g2.
Qed.

Lemma match_one_group_after (t : string) (s : string) (caps : list string) :
  match_pieces [Text t; OneOrMore not_slash; Text "/";
                Capture (Exactly 32 is_letter)] s = Some caps ->
  exists g, caps = [g] /\ test_id_i g = true.
Proof.
  rewrite match_pieces_text. destruct (after_text t s) as [r1|]; [|done].
  intros (g1 & r2 & caps' & _ & H & ->)%match_pieces_cons.
  rewrite match_pieces_text in H. destruct (after_text "/" r2) as [r3|]; [|done].
  by apply match_id_group in H.
Qed.

Lemma match_one_group (t : string) (s : string) (caps : list string) :
  match_pieces [Text t; Capture (Exactly 32 is_letter)] s = Some caps ->
  exists g, caps = [g] /\ test_id_i g = true.
Proof.
  rewrite match_pieces_text. destruct (after_text t s) as [r1|]; [|done].
  apply match_id_group.
Qed.

Lemma lower_is_letter (s : string) :
  forall_chars is_lower s = true -> forall_chars is_letter s = true.
Proof.
  apply forall_chars_impl. intros c Hc. unfold is_letter. by rewrite Hc.
Qed.

(** X26: every identifier [extractExtensionInfo] returns is 32 ASCII
    letters, in the case they were written in: the URL patterns accept
    capitals and the function does not lowercase them. *)
Theorem extracted_id_is_32_letters (url : string) (info : ExtensionInfo) :
  extractExtensionInfo url = Some info ->
  test_id_i (info_id info) = true.
Proof.
  unfold extractExtensionInfo, first_pattern.
  destruct (search pattern1 url) as [caps|] eqn:E1.
  { intros [= <-]. apply search_Some in E1 as [s' H].
    by apply match_two_groups in H as (g1 & g2 & -> & Hg). }
  destruct (search pattern2 url) as [caps|] eqn:E2.
  { intros [= <-]. apply search_Some in E2 as [s' H].
    by apply match_two_groups in H as (g1 & g2 & -> & Hg). }
  destruct (search pattern3 url) as [caps|] eqn:E3.
  { intros [= <-]. apply search_Some in E3 as [s' H].
    by apply match_one_group in H as (g & -> & Hg). }
  destruct (search pattern4 url) as [caps|] eqn:E4.
  { intros [= <-]. apply search_Some in E4 as [s' H].
    by apply match_one_group_after in H as (g & -> & Hg). }
  destruct (test_id (trim url)) eqn:Eid; [|done].
  intros [= <-]. simpl. unfold test_id in Eid. unfold test_id_i.
  apply andb_true_iff in Eid as [-> Hl]. by rewrite lower_is_letter.
Qed.

Lemma extracted_id_is_32_letters_witness :
  test_id_i "CJPALHDLNBPAFIAMEJDNHCPHJBKEIAGM" = true.
Proof.
  apply (extracted_id_is_32_letters
           "https://chrome.google.com/webstore/detail/ublock-origin/CJPALHDLNBPAFIAMEJDNHCPHJBKEIAGM"
           {| info_id := "CJPALHDLNBPAFIAMEJDNHCPHJBKEIAGM";
              info_name := "ublock origin" |}).
  vm_compute. reflexivity.
Defined.

(** Capture groups do not change whether a pattern matches. *)
Lemma pattern4_matches_like_pattern2 (s : string) :
  is_Some (match_pieces pattern2 s) <-> is_Some (match_pieces pattern4 s).
Proof.
  unfold pattern2, pattern4. rewrite !match_pieces_text.
  destruct (after_text _ s) as [r|]; [|done].
  cbn [match_pieces alternatives].
  apply first_success_is_Some. intros [m rest]. cbn beta iota.
  destruct (first_success _ _) as [caps|]; cbn [is_capture];
    split; intros [x Hx]; try discriminate; eauto.
Qed.

Lemma search_is_Some (ps qs : list piece) (s : string) :
  (forall s', is_Some (match_pieces ps s') <-> is_Some (match_pieces qs s')) ->
  is_Some (search ps s) <-> is_Some (search qs s).
Proof.
  intros H.
  induction s as [|c s IH]; cbn [search].
  - specialize (H EmptyString).
    destruct (match_pieces ps EmptyString) as [a|],
             (match_pieces qs EmptyString) as [b|].
    + split; eauto.
    + exfalso. eapply is_Some_None, H. eauto.
    + exfalso. eapply is_Some_None, H. eauto.
    + split; intros [? [=]].
  - specialize (H (String c s)).
    destruct (match_pieces ps (String c s)) as [a|],
             (match_pieces qs (String c s)) as [b|].
    + split; eauto.
    + exfalso. eapply is_Some_None, H. eauto.
    + exfalso. eapply is_Some_None, H. eauto.
    + exact IH.
Qed.

(** X27: the fourth URL pattern never decides anything: every string it
    matches is matched by the second pattern, which is tried before it, so
    dropping it from the list changes no result. *)
Theorem fourth_pattern_is_never_used (url : string) :
  first_pattern [pattern1; pattern2; pattern3; pattern4] url
  = first_pattern [pattern1; pattern2; pattern3] url.
Proof.
  unfold first_pattern.
  destruct (search pattern1 url); [done|].
  destruct (search pattern2 url) eqn:E2; [done|].
  destruct (search pattern3 url); [done|].
  destruct (search pattern4 url) eqn:E4; [|done].
  exfalso. eapply is_Some_None. rewrite <- E2.
  apply (search_is_Some pattern2 pattern4 url pattern4_matches_like_pattern2).
  rewrite E4. eauto.
Qed.

(** Literal text with a full stop does not match where there is none. *)
Lemma eq_nocase_dot (b : ascii) : eq_nocase "." b = true -> b = "."%char.
Proof.
  unfold eq_nocase. change (lower_char ".") with "."%char.
  intros H%Ascii.eqb_eq. unfold lower_char in H.
  destruct (_ || _) eqn:E; [|done].
  exfalso. apply (f_equal code) in H. rewrite code_ascii_of_N in H.
  - change (code ".") with 46%N in H. unfold is_upper in E.
    apply orb_true_iff in E as [E|E].
    + apply andb_true_iff in E as [?%N.leb_le _]. lia.
    + apply andb_true_iff in E as [E _].
      apply andb_true_iff in E as [?%N.leb_le _]. lia.
  - pose proof (code_lt_256 b). unfold is_upper in E.
    apply orb_true_iff in E as [E|E].
    + apply andb_true_iff in E as [_ ?%N.leb_le]. lia.
    + apply andb_true_iff in E as [E _].
      apply andb_true_iff in E as [_ ?%N.leb_le]. lia.
Qed.

Lemma after_text_no_dot (t s : string) :
  has_dot t = true -> forall_chars not_dot s = true -> after_text t s = None.
Proof.
  revert s. induction t as [|a t IH]; intros s Ht Hs; [done|].
  destruct s as [|b s]; [done|]. simpl in *.
  apply andb_true_iff in Hs as [Hb Hs].
  destruct (eq_nocase a b) eqn:E; [|done].
  destruct (Ascii.eqb_spec a ".") as [->|_].
  - apply eq_nocase_dot in E as ->. done.
  - by apply IH.
Qed.

Lemma search_no_dot (t : string) (ps : list piece) (s : string) :
  has_dot t = true -> forall_chars not_dot s = true ->
  search (Text t :: ps) s = None.
Proof.
  intros Ht. induction s as [|c s IH]; intros Hs.
  - cbn [search]. rewrite match_pieces_text.
    by rewrite after_text_no_dot.
  - cbn [search]. rewrite match_pieces_text.
    rewrite after_text_no_dot by done.
    simpl in Hs. apply andb_true_iff in Hs as [_ Hs]. by apply IH.
Qed.

Lemma letters_no_dot (s : string) :
  forall_chars is_letter s = true -> forall_chars not_dot s = true.
Proof.
  apply forall_chars_impl. intros c Hc. unfold not_dot.
  destruct (Ascii.eqb_spec c ".") as [->|]; done.
Qed.

Lemma letters_no_slash (s : string) :
  forall_chars is_letter s = true ->
  forall_chars (fun c => negb (eq_nocase "/" c)) s = true.
Proof.
  apply forall_chars_impl. intros c Hc.
  destruct (eq_nocase "/" c) eqn:E; [|done]. exfalso.
  unfold eq_nocase in E. change (lower_char "/") with "/"%char in E.
  apply Ascii.eqb_eq in E.
  pose proof (lower_char_letter c Hc) as Hl. rewrite <- E in Hl. done.
Qed.

Lemma match_pieces_unfold (p : piece) (ps : list piece) (s : string) :
  match_pieces (p :: ps) s
  = first_success
      (fun '(m, rest) =>
         match match_pieces ps rest with
         | Some caps => Some (if is_capture p then m :: caps else caps)
         | None => None
         end)
      (alternatives p s).
Proof. reflexivity. Qed.

(** On letters only, [[^/]+] followed by a slash finds no slash. *)
Lemma name_then_slash_fails (ps : list piece) (s : string) :
  forall_chars is_letter s = true ->
  match_pieces (Capture (OneOrMore not_slash) :: Text "/" :: ps) s = None.
Proof.
  intros Hs. rewrite match_pieces_unfold. apply first_success_None.
  intros [m rest] Hin. cbn beta iota.
  pose proof (alternatives_OneOrMore_rest _ _ _ _ _ (letters_no_slash _ Hs) Hin)
    as Hrest.
  rewrite match_pieces_text.
  destruct rest as [|c rest]; [done|]. simpl in Hrest |- *.
  apply andb_true_iff in Hrest as [Hc _]. apply negb_true_iff in Hc.
  by rewrite Hc.
Qed.

Lemma match_id_whole (id : string) :
  test_id_i id = true ->
  match_pieces [Capture (Exactly 32 is_letter)] id = Some [id].
Proof.
  intros [Hl%Nat.eqb_eq Hc]%andb_true_iff.
  rewrite match_pieces_unfold. cbn [alternatives].
  rewrite (run_length_all _ _ Hc), Hl, Nat.leb_refl.
  rewrite <- Hl. rewrite str_take_all, str_drop_all. done.
Qed.

Lemma str_drop_S (k : nat) (c : ascii) (s : string) :
  str_drop (S k) (String c s) = str_drop k s.
Proof. reflexivity. Qed.

(** The search passes over a prefix at no offset of which the pattern
    matches. *)
Lemma search_prefix (ps : list piece) (pre s : string) :
  (forall k, k < String.length pre ->
             match_pieces ps (str_drop k pre +:+ s) = None) ->
  search ps (pre +:+ s) = search ps s.
Proof.
  induction pre as [|c pre IH]; intros H; [done|].
  change (String c pre +:+ s) with (String c (pre +:+ s)).
  rewrite search_step.
  - apply IH. intros k Hk. rewrite <- (str_drop_S k c). apply H. simpl. lia.
  - specialize (H 0 ltac:(simpl; lia)).
    unfold str_drop in H. rewrite Nat.sub_0_r in H.
    fold (str_take (String.length (String c pre)) (String c pre)) in H.
    by rewrite str_take_all in H.
Qed.

Lemma search_hit (ps : list piece) (s : string) (caps : list string) :
  match_pieces ps s = Some caps -> search ps s = Some caps.
Proof. intros H. destruct s; simpl; by rewrite H. Qed.

Tactic Notation "each_offset" integer(n) :=
  let k := fresh "k" in
  let Hk := fresh "Hk" in
  intros k Hk; do n (destruct k as [|k]; [reflexivity|]);
  exfalso; simpl in Hk; lia.

(** X28: the store URL the page builds for an extension is read back as
    that extension: [extractExtensionInfo (buildStoreUrl id)] gives the
    identifier unchanged (whatever its case) and, for want of a name
    segment, the identifier as the name. *)
Theorem store_url_round_trip (id : string) :
  test_id_i id = true ->
  extractExtensionInfo (buildStoreUrl id)
  = Some {| info_id := id; info_name := id |}.
Proof.
  intros Hid. pose proof Hid as [_ Hletters]%andb_true_iff.
  pose proof (letters_no_dot _ Hletters) as Hnodot.
  assert (search pattern1 (buildStoreUrl id) = None) as E1.
  { change (buildStoreUrl id)
      with ("https://" +:+ String "c" ("hromewebstore.google.com/detail/" +:+ id)).
    rewrite search_prefix by each_offset 8.
    rewrite search_step.
    - rewrite search_prefix by each_offset 32.
      by apply search_no_dot.
    - unfold pattern1. rewrite match_pieces_text.
      change (after_text "chromewebstore.google.com/detail/"
                (String "c" ("hromewebstore.google.com/detail/" +:+ id)))
        with (Some id).
      by apply name_then_slash_fails. }
  assert (search pattern2 (buildStoreUrl id) = None) as E2.
  { unfold buildStoreUrl.
    rewrite search_prefix by each_offset 41.
    by apply search_no_dot. }
  assert (search pattern3 (buildStoreUrl id) = Some [id]) as E3.
  { change (buildStoreUrl id)
      with ("https://" +:+ ("chromewebstore.google.com/detail/" +:+ id)).
    rewrite search_prefix by each_offset 8.
    apply search_hit. unfold pattern3. rewrite match_pieces_text.
    change (after_text "chromewebstore.google.com/detail/"
              ("chromewebstore.google.com/detail/" +:+ id))
      with (Some id).
    by apply match_id_whole. }
  unfold extractExtensionInfo, first_pattern. by rewrite E1, E2, E3.
Qed.

Lemma store_url_round_trip_witness :
  extractExtensionInfo (buildStoreUrl id_upper)
  = Some {| info_id := id_upper; info_name := id_upper |}.
Proof. apply (store_url_round_trip id_upper). reflexivity. Defined.

Lemma trimStart_no_space (s : string) :
  starts_with_space s = false -> trimStart s = s.
Proof. destruct s as [|c s]; [done|]. simpl. by intros ->. Qed.

Lemma trimEnd_no_space (s : string) :
  forall_chars not_space s = true -> trimEnd s = s.
Proof.
  induction s as [|c s IH]; [done|]. rewrite trimEnd_cons. simpl.
  intros [Hc Hs]%andb_true_iff. rewrite (IH Hs).
  apply negb_true_iff in Hc. rewrite Hc. by destruct s.
Qed.

Lemma lower_not_space (s : string) :
  forall_chars is_lower s = true -> forall_chars not_space s = true.
Proof.
  apply forall_chars_impl. intros c. unfold is_lower, not_space, is_space.
  intros [H1%N.leb_le H2%N.leb_le]%andb_true_iff.
  apply negb_true_iff. repeat (apply orb_false_iff; split).
  - apply andb_false_iff. right. apply N.leb_gt. lia.
  - apply N.eqb_neq. lia.
  - apply N.eqb_neq. lia.
Qed.

(** X29: a bare identifier of 32 lowercase letters is taken as it is, as
    identifier and as name; none of the URL patterns claims it. *)
Theorem bare_id_is_extracted (id : string) :
  test_id id = true ->
  extractExtensionInfo id = Some {| info_id := id; info_name := id |}.
Proof.
  intros Hid. pose proof Hid as [_ Hlower]%andb_true_iff.
  pose proof (letters_no_dot _ (lower_is_letter _ Hlower)) as Hnodot.
  pose proof (lower_not_space _ Hlower) as Hnospace.
  assert (trim id = id) as Htrim.
  { unfold trim. rewrite trimStart_no_space.
    - by apply trimEnd_no_space.
    - destruct id as [|c id]; [done|]. simpl in *.
      apply andb_true_iff in Hnospace as [Hc _]. by apply negb_true_iff in Hc. }
  unfold extractExtensionInfo, first_pattern.
  unfold pattern1, pattern2, pattern3, pattern4.
  rewrite !search_no_dot by done. by rewrite Htrim, Hid.
Qed.

Lemma bare_id_is_extracted_witness :
  extractExtensionInfo id_lower
  = Some {| info_id := id_lower; info_name := id_lower |}.
Proof. apply (bare_id_is_extracted id_lower). reflexivity. Defined.

End ExtractMore.
